(** * Shard: a shallow embedding of the load generator and its checked properties

    The development follows the Go packages of the repository:
    - [Go]: the few pieces of the Go language and standard library the
      program relies on (64-bit integers, [make] of a channel,
      [time.Duration], [error] values, [strings.Contains], [float64]);
    - [config]: [internal/config] -- [Config] and [Validate];
    - [attack]: [internal/attack] -- the record schema of [trace.go], the
      request tracer ([doRequest], [classifyError]) and the live
      [StatsCollector];
    - [legacy]: the earlier revision of the runner that is also kept in the
      repository (no failing-phase tag, four-way error classification);
    - [json]: the lines of the result file, as [encoding/json] writes a
      [Result] and as the record schema is read back;
    - [Runner]: the concurrent [Run] of [internal/attack], as a transition
      system;
    - [stats]: [internal/stats] -- the offline [Aggregator] and [LoadJSONL];
    - [Report]: [Report] of [internal/stats] with its two sorting helpers;
    - [hooks], [tally], [ledger]: what the properties of the tracer, of
      the counters and of a run are stated with.

    Definitions come first, the checked properties after them. *)

From Stdlib Require Import ZArith String Ascii List Lia Bool SpecFloat.
From Stdlib Require Import DecimalString DecimalZ DecimalPos.
From stdpp Require Import base option gmap strings list sorting.

Open Scope Z_scope.
Open Scope string_scope.

(* ================================================================== *)
(** * Part I: the program                                              *)
(* ================================================================== *)

(** ** Go: integers, durations, errors, strings, floats *)
Module Go.

(** [int64] (and [int] on the 64-bit targets the tool is built for):
    values live in [[-2^63, 2^63)] and arithmetic wraps around. *)
Definition int64_min : Z := - 2 ^ 63.
Definition int64_max : Z := 2 ^ 63 - 1.

Definition in_int64 (z : Z) : Prop := int64_min <= z <= int64_max.

Definition wrap64 (z : Z) : Z := (z + 2 ^ 63) mod 2 ^ 64 - 2 ^ 63.

Definition add64 (a b : Z) : Z := wrap64 (a + b).
Definition sub64 (a b : Z) : Z := wrap64 (a - b).
Definition mul64 (a b : Z) : Z := wrap64 (a * b).

(** Integer division truncates toward zero; the only overflowing case,
    [int64_min / -1], wraps. Division by zero is a run-time panic and is
    handled by the callers. *)
Definition div64 (a b : Z) : Z := wrap64 (Z.quot a b).

(** [make(chan T, size)]: the runtime's [makechan] panics ("makechan:
    size out of range") when [size] is negative, or when the buffer of
    [size] elements of [elemSize] bytes each is larger than
    [maxAlloc - hchanSize] bytes. The constants are those of the 64-bit
    Linux targets: 48 bits of address space and a channel header of 96
    bytes. A buffer that passes the check and for which the machine has
    no memory ends the process with a fatal error of the runtime, which
    is not a panic; that case is left out. *)
Definition maxAlloc : Z := 2 ^ 48.
Definition hchanSize : Z := 96.

Definition makechan_ok (elemSize size : Z) : Prop :=
  0 <= size /\ elemSize * size <= maxAlloc - hchanSize.

(** [time.Duration] is an [int64] count of nanoseconds. *)
Definition Duration := Z.
Definition Second : Duration := 1000000000.

(** [func (d Duration) Milliseconds() int64 { return int64(d) / 1e6 }] *)
Definition Milliseconds (d : Duration) : Z := div64 d 1000000.

(** A [time.Time], as its observers [Date], [Clock], [Nanosecond] and
    [Zone] present it: the civil date and time of day in the value's
    zone, and the zone's offset in seconds east of UTC. The monotonic
    clock reading is not part of the value: the program only uses it
    through [time.Since], whose readings the tracer model takes as
    inputs. *)
Record Time := mkTime {
  year : Z;
  month : Z;
  day : Z;
  hour : Z;
  minute : Z;
  second : Z;
  nanosecond : Z;
  zoneOffset : Z
}.

(** What the program observes of an [error] value: whether
    [os.IsTimeout] holds of it, and the text of [err.Error()]. *)
Record error := mkError {
  IsTimeout : bool;
  Error : string
}.

(** [strings.Contains(s, substr)] *)
Fixpoint Contains (s substr : string) : bool :=
  if String.prefix substr s then true
  else match s with
       | EmptyString => false
       | String _ s' => Contains s' substr
       end.

(** [float64]: IEEE 754 binary64, with round to nearest even. *)
Definition float64 := spec_float.
Definition prec : Z := 53.
Definition emax : Z := 1024.

(** The conversion [float64(n)] of an integer. *)
Definition float64_of_int (n : Z) : float64 :=
  binary_normalize prec emax n 0 false.

Definition fzero : float64 := S754_zero false.
Definition fdiv (x y : float64) : float64 := SFdiv prec emax x y.
Definition fadd (x y : float64) : float64 := SFadd prec emax x y.
Definition flt (x y : float64) : bool := SFltb x y.

End Go.

(** ** Package config *)
Module config.

Import Go.

Record Target := mkTarget {
  URL : string;
  Method : string;
  Headers : gmap string string;
  BodyFile : string
}.

Record LoadConfig := mkLoadConfig {
  Rate : Z;
  Duration : string;
  Concurrency : Z;
  Timeout : string;
  DisableKeepAlive : bool;
  InsecureTLS : bool;
  HTTP2 : bool
}.

Record Output := mkOutput {
  JSONLPath : string
}.

Record Config := mkConfig {
  target : Target;
  Load : LoadConfig;
  output : Output
}.

Definition DefaultConfig : Config :=
  mkConfig
    (mkTarget "https://example.com" "GET"
              {[ "User-Agent" := "shard/1.0" ]} "")
    (mkLoadConfig 50 "10s" 256 "10s" false false true)
    (mkOutput "results.jsonl").

Section Validation.

(** [time.ParseDuration] belongs to the standard library: [inl d] is a
    parsed duration, [inr msg] the text of the error it returns. *)
Variable ParseDuration : string -> Go.Duration + string.

(** [Validate]: [None] is the [nil] error, [Some msg] an error with
    that text. *)
Definition Validate (c : Config) : option string :=
  if decide (URL (target c) = "") then
    Some "target.url is required"
  else if decide (Rate (Load c) <= 0) then
    Some "load.rate must be > 0"
  else if decide (Concurrency (Load c) <= 0) then
    Some "load.concurrency must be > 0"
  else match ParseDuration (Duration (Load c)) with
       | inr err => Some ("invalid load.duration: " ++ err)
       | inl _ =>
           match ParseDuration (Timeout (Load c)) with
           | inr err => Some ("invalid load.timeout: " ++ err)
           | inl _ => None
           end
       end.

End Validation.

(** The configuration of the default file with another rate. *)
Definition withRate (c : Config) (r : Z) : Config :=
  mkConfig (target c)
           (mkLoadConfig r (Duration (Load c)) (Concurrency (Load c))
                         (Timeout (Load c)) (DisableKeepAlive (Load c))
                         (InsecureTLS (Load c)) (HTTP2 (Load c)))
           (output c).

End config.

(** ** Package attack: record schema, tracer, live statistics *)
Module attack.

Import Go.

Record PhaseTimings := mkPhases {
  DNS : Duration;
  Connect : Duration;
  TLS : Duration;
  TTFB : Duration;
  Total : Duration
}.

Record Result := mkResult {
  Timestamp : Time;
  Code : Z;
  Error : string;
  FailPhase : string;
  Reused : bool;
  Phases : PhaseTimings
}.

(** The zero values Go gives to [var phases PhaseTimings] and
    [var res Result]. *)
Definition zeroPhases : PhaseTimings := mkPhases 0 0 0 0 0.
Definition zeroTime : Time := mkTime 1 1 1 0 0 0 0 0.
Definition zeroResult : Result := mkResult zeroTime 0 "" "" false zeroPhases.

(** *** The request tracer *)

(** The [httptrace.ClientTrace] hooks that [doRequest] installs. The
    argument of [ConnectDone] records whether its [err] is non-nil. *)
Inductive TraceEvent :=
| GotConn (reused : bool)
| DNSStart
| DNSDone
| ConnectStart
| ConnectDone (failed : bool)
| TLSHandshakeStart
| TLSHandshakeDone
| GotFirstResponseByte.

(** What one call of [r.client.Do(req)] does as far as [doRequest] can
    see: the hooks it fires, each with the value [time.Since(start)] has
    when the hook runs, then either an error or a response with its
    status code, and the value of [time.Since(start)] after the call. *)
Record Response := mkResponse { StatusCode : Z }.

Record Exchange := mkExchange {
  start : Time;
  fired : list (TraceEvent * Duration);
  outcome : error + Response;
  elapsed : Duration
}.

(** The captured variables [phases] and [reused]. *)
Record Captured := mkCaptured {
  phases : PhaseTimings;
  reused : bool
}.

Definition setDNS (p : PhaseTimings) (d : Duration) : PhaseTimings :=
  mkPhases d (Connect p) (TLS p) (TTFB p) (Total p).
Definition setConnect (p : PhaseTimings) (d : Duration) : PhaseTimings :=
  mkPhases (DNS p) d (TLS p) (TTFB p) (Total p).
Definition setTLS (p : PhaseTimings) (d : Duration) : PhaseTimings :=
  mkPhases (DNS p) (Connect p) d (TTFB p) (Total p).
Definition setTTFB (p : PhaseTimings) (d : Duration) : PhaseTimings :=
  mkPhases (DNS p) (Connect p) (TLS p) d (Total p).
Definition setTotal (p : PhaseTimings) (d : Duration) : PhaseTimings :=
  mkPhases (DNS p) (Connect p) (TLS p) (TTFB p) d.

(** One hook call; [since] is [time.Since(start)] at that moment. *)
Definition hook (c : Captured) (ev : TraceEvent * Duration) : Captured :=
  let '(e, since) := ev in
  let p := phases c in
  match e with
  | GotConn r => mkCaptured p r
  | DNSStart => mkCaptured (setDNS p since) (reused c)
  | DNSDone => mkCaptured (setDNS p (sub64 since (DNS p))) (reused c)
  | ConnectStart => mkCaptured (setConnect p since) (reused c)
  | ConnectDone failed =>
      if failed then c
      else mkCaptured (setConnect p (sub64 since (Connect p))) (reused c)
  | TLSHandshakeStart => mkCaptured (setTLS p since) (reused c)
  | TLSHandshakeDone => mkCaptured (setTLS p (sub64 since (TLS p))) (reused c)
  | GotFirstResponseByte => mkCaptured (setTTFB p since) (reused c)
  end.

Definition runHooks (evs : list (TraceEvent * Duration)) : Captured :=
  fold_left hook evs (mkCaptured zeroPhases false).

(** [classifyError]: the [switch] is a first-match cascade. *)
Definition classifyError (err : error) : string :=
  let msg := Go.Error err in
  if IsTimeout err then "timeout"
  else if Contains msg "no such host" then "dns"
  else if Contains msg "connection refused" || Contains msg "connect"
       then "connect"
  else if Contains msg "tls" then "tls"
  else if Contains msg "EOF" || Contains msg "read" then "ttfb"
  else "other".

(** The part of [doRequest] before the error test: the result with the
    timestamp, the captured phases and reuse flag, and the total. *)
Definition traced (x : Exchange) : Result :=
  let c := runHooks (fired x) in
  mkResult (start x) 0 "" "" (reused c) (setTotal (phases c) (elapsed x)).

Definition doRequest (x : Exchange) : Result :=
  let res := traced x in
  match outcome x with
  | inl err =>
      let tag := classifyError err in
      mkResult (Timestamp res) (Code res) tag tag (Reused res) (Phases res)
  | inr resp =>
      mkResult (Timestamp res) (StatusCode resp) (Error res) (FailPhase res)
               (Reused res) (Phases res)
  end.

(** The six labels of the taxonomy. *)
Definition tags : list string :=
  ["timeout"; "dns"; "connect"; "tls"; "ttfb"; "other"].


(** The clock behind [time.Since(start)] is monotonic: successive
    readings are non-negative, never decrease, and fit a [Duration]. *)
Fixpoint readings_from (prev : Duration) (evs : list (TraceEvent * Duration))
  : Prop :=
  match evs with
  | [] => True
  | (_, t) :: rest => prev <= t <= int64_max /\ readings_from t rest
  end.

Definition monotonic_clock (x : Exchange) : Prop :=
  readings_from 0 (fired x) /\ 0 <= elapsed x.

(** The hooks that write a given phase. *)
Inductive Phase := PhDNS | PhConnect | PhTLS | PhTTFB.

Definition writes (ph : Phase) (e : TraceEvent) : bool :=
  match ph, e with
  | PhDNS, (DNSStart | DNSDone) => true
  | PhConnect, (ConnectStart | ConnectDone _) => true
  | PhTLS, (TLSHandshakeStart | TLSHandshakeDone) => true
  | PhTTFB, GotFirstResponseByte => true
  | _, _ => false
  end.

Definition fires (ph : Phase) (x : Exchange) : bool :=
  existsb (fun ev => writes ph (fst ev)) (fired x).

Definition phase (ph : Phase) (p : PhaseTimings) : Duration :=
  match ph with
  | PhDNS => DNS p
  | PhConnect => Connect p
  | PhTLS => TLS p
  | PhTTFB => TTFB p
  end.

(** *** The live statistics collector *)

Record StatsCollector := mkStats {
  sent : Z;
  success : Z;
  fail : Z;
  failMap : gmap string Z;
  totalLat : Z;
  twoXX : Z;
  threeXX : Z;
  fourXX : Z;
  fiveXX : Z
}.

(** [stats := &StatsCollector{}] *)
Definition newStats : StatsCollector := mkStats 0 0 0 ∅ 0 0 0 0 0.

(** [sync.Map.LoadOrStore]: keeps the stored value when the key is
    present. *)
Definition LoadOrStore (k : string) (v : Z) (m : gmap string Z)
  : gmap string Z :=
  match m !! k with
  | Some _ => m
  | None => <[k := v]> m
  end.

(** [Add]: every [atomic.AddInt64] is a wrapping 64-bit addition. *)
Definition Add (s : StatsCollector) (r : Result) : StatsCollector :=
  let sent' := add64 (sent s) 1 in
  if decide (Error r <> "") then
    let m := LoadOrStore (FailPhase r) 0 (failMap s) in
    mkStats sent' (success s) (add64 (fail s) 1)
            (alter (fun v => add64 v 1) (FailPhase r) m)
            (totalLat s) (twoXX s) (threeXX s) (fourXX s) (fiveXX s)
  else
    let success' := add64 (success s) 1 in
    let totalLat' := add64 (totalLat s) (Milliseconds (Total (Phases r))) in
    let bump (family : Z) (n : Z) : Z :=
      if decide (Code r > 0) then
        if decide (div64 (Code r) 100 = family) then add64 n 1 else n
      else n in
    mkStats sent' success' (fail s) (failMap s) totalLat'
            (bump 2 (twoXX s)) (bump 3 (threeXX s))
            (bump 4 (fourXX s)) (bump 5 (fiveXX s)).

Record StatsSnapshot := mkSnapshot {
  snap_sent : Z;
  snap_success : Z;
  snap_fail : Z;
  avgLat : float64;
  fails : gmap string Z;
  families : gmap string Z
}.

Definition Snapshot (s : StatsCollector) : StatsSnapshot :=
  mkSnapshot (sent s) (success s) (fail s)
    (if decide (success s > 0)
     then fdiv (float64_of_int (totalLat s)) (float64_of_int (success s))
     else fzero)
    (failMap s)
    (<["2xx" := twoXX s]> (<["3xx" := threeXX s]>
       (<["4xx" := fourXX s]> (<["5xx" := fiveXX s]> ∅)))).

(** The collector after a stream of results has been added, in order. *)
Definition addAll (rs : list Result) : StatsCollector :=
  fold_left Add rs newStats.

(** What the counters of the collector are compared with: the successful
    results of a stream, and their latencies in whole milliseconds. *)
Definition succeeded (r : Result) : bool :=
  if decide (Error r <> "") then false else true.

Definition latencySum (rs : list Result) : Z :=
  fold_left (fun acc r => acc + Milliseconds (Total (Phases r)))
            (filter (fun r => succeeded r = true) rs) 0.

Definition successCount (rs : list Result) : Z :=
  Z.of_nat (length (filter (fun r => succeeded r = true) rs)).

Definition failureCount (rs : list Result) : Z :=
  Z.of_nat (length (filter (fun r => succeeded r = false) rs)).

(** The average the way the specification words it: the sum of the
    [Total] latencies of the successful results divided by their number,
    expressed in milliseconds, the unit [printStats] prints it in. *)
Definition totalSum (rs : list Result) : Z :=
  fold_left (fun acc r => acc + Total (Phases r))
            (filter (fun r => succeeded r = true) rs) 0.

Definition meanOfTotals (rs : list Result) : float64 :=
  if decide (successCount rs > 0) then
    fdiv (fdiv (float64_of_int (totalSum rs))
               (float64_of_int (successCount rs)))
         (float64_of_int 1000000)
  else fzero.

End attack.

(** ** The earlier revision of the runner

    The repository also holds the previous version of the runner. Its
    tracer installs the same hooks, but its error branch sets only the
    error field, and its classifier knows four causes. *)
Module legacy.

Import Go attack.

Definition classifyError (err : error) : string :=
  if IsTimeout err then "timeout"
  else if Contains (Go.Error err) "no such host" then "dns"
  else if Contains (Go.Error err) "connection refused" then "connect"
  else if Contains (Go.Error err) "tls" then "tls"
  else "other".

Definition doRequest (x : Exchange) : Result :=
  let res := traced x in
  match outcome x with
  | inl err =>
      mkResult (Timestamp res) (Code res) (classifyError err) (FailPhase res)
               (Reused res) (Phases res)
  | inr resp =>
      mkResult (Timestamp res) (StatusCode resp) (Error res) (FailPhase res)
               (Reused res) (Phases res)
  end.

End legacy.

(** ** The lines of the result file

    [enc.Encode(res)] and [json.Unmarshal(line, &res)] belong to Go's
    [encoding/json]; the schema they follow is fixed by the field tags of
    [trace.go]. The encoder below writes a [Result] the way the library
    does for these tags; the decoder reads the record schema back. *)
Module json.

Import Go attack.
Local Open Scope Z_scope.

Definition quote : ascii := "034"%char.
Definition backslash : ascii := "092"%char.

Definition byte (c : ascii) : Z := Z.of_nat (nat_of_ascii c).
Definition char (b : Z) : ascii := ascii_of_nat (Z.to_nat b).

Definition between (lo hi : Z) (c : ascii) : bool :=
  (lo <=? byte c) && (byte c <=? hi).

Definition isDigit (c : ascii) : bool := between 48 57 c.

(** *** Integers *)

(** [strconv.AppendInt(dst, n, 10)] *)
Definition formatInt (n : Z) : string := NilZero.string_of_int (Z.to_int n).

(** The digits of [x], least significant first, prepended to [tail]:
    exactly [width] of them. *)
Fixpoint fixedWidth (width : nat) (x : Z) (tail : string) : string :=
  match width with
  | O => tail
  | S w => fixedWidth w (x / 10) (String (char (48 + x mod 10)) tail)
  end.

Fixpoint zeros (n : nat) : string :=
  match n with
  | O => EmptyString
  | S k => String "0" (zeros k)
  end.

(** [appendInt(b, x, width)] of package [time]: a sign for a negative
    number, then its digits padded with zeros to [width]. *)
Definition appendInt (x : Z) (width : nat) : string :=
  if (0 <=? x) && (x <? 10 ^ Z.of_nat width) then fixedWidth width x ""
  else
    let digits := formatInt (Z.abs x) in
    (if x <? 0 then "-" else "")
      ++ zeros (width - String.length digits)%nat ++ digits.

(** *** Strings *)

(** The length of the UTF-8 sequence a string starts with, as
    [utf8.DecodeRuneInString] finds it: 0 for an invalid one. *)
Definition cont (c : ascii) : bool := between 128 191 c.

Definition runeLen (s : string) : nat :=
  match s with
  | EmptyString => 0%nat
  | String c0 t0 =>
      if byte c0 <? 128 then 1%nat
      else
        match t0 with
        | EmptyString => 0%nat
        | String c1 t1 =>
            if between 194 223 c0 then (if cont c1 then 2%nat else 0%nat)
            else
              match t1 with
              | EmptyString => 0%nat
              | String c2 t2 =>
                  if byte c0 =? 224 then
                    (if between 160 191 c1 && cont c2 then 3%nat else 0%nat)
                  else if byte c0 =? 237 then
                    (if between 128 159 c1 && cont c2 then 3%nat else 0%nat)
                  else if between 225 239 c0 then
                    (if cont c1 && cont c2 then 3%nat else 0%nat)
                  else
                    match t2 with
                    | EmptyString => 0%nat
                    | String c3 _ =>
                        if byte c0 =? 240 then
                          (if between 144 191 c1 && cont c2 && cont c3
                           then 4%nat else 0%nat)
                        else if between 241 243 c0 then
                          (if cont c1 && cont c2 && cont c3 then 4%nat else 0%nat)
                        else if byte c0 =? 244 then
                          (if between 128 143 c1 && cont c2 && cont c3
                           then 4%nat else 0%nat)
                        else 0%nat
                    end
              end
        end
  end.

Definition hexChar (d : Z) : ascii :=
  if d <? 10 then char (48 + d) else char (87 + d).

(** The bytes below 0x80 that the encoder copies: the printable ones
    other than the quote, the backslash and the three that matter in
    HTML. *)
Definition htmlSafe (c : ascii) : bool :=
  (32 <=? byte c) && (byte c <? 128)
  && negb (Ascii.eqb c quote) && negb (Ascii.eqb c backslash)
  && negb (Ascii.eqb c "<") && negb (Ascii.eqb c ">")
  && negb (Ascii.eqb c "&").

Definition escapeAscii (c : ascii) : string :=
  if htmlSafe c then String c ""
  else if Ascii.eqb c backslash then String backslash (String backslash "")
  else if Ascii.eqb c quote then String backslash (String quote "")
  else if byte c =? 8 then String backslash "b"
  else if byte c =? 12 then String backslash "f"
  else if byte c =? 10 then String backslash "n"
  else if byte c =? 13 then String backslash "r"
  else if byte c =? 9 then String backslash "t"
  else String backslash "u00" ++ String (hexChar (byte c / 16))
                    (String (hexChar (byte c mod 16)) "").

(** The line and paragraph separators U+2028 and U+2029. *)
Definition lineSeparator (s : string) : option string :=
  match s with
  | String c0 (String c1 (String c2 _)) =>
      if (byte c0 =? 226) && (byte c1 =? 128) then
        if byte c2 =? 168 then Some (String backslash "u2028")
        else if byte c2 =? 169 then Some (String backslash "u2029")
        else None
      else None
  | _ => None
  end.

(** The body of a string literal. [copy] counts the bytes of a valid
    multi-byte sequence still to be copied, [skip] those of a separator
    already written as an escape. *)
Fixpoint escapeFrom (copy skip : nat) (s : string) : string :=
  match s with
  | EmptyString => EmptyString
  | String c t =>
      match copy, skip with
      | S k, _ => String c (escapeFrom k skip t)
      | O, S k => escapeFrom O k t
      | O, O =>
          if byte c <? 128 then escapeAscii c ++ escapeFrom O O t
          else
            match runeLen s with
            | O => String backslash "ufffd" ++ escapeFrom O O t
            | S n =>
                match lineSeparator s with
                | Some esc => esc ++ escapeFrom O n t
                | None => String c (escapeFrom n O t)
                end
            end
      end
  end.

Definition encodeString (s : string) : string :=
  String quote (escapeFrom 0%nat 0%nat s ++ String quote "").

(** *** Timestamps *)

Fixpoint trimZeros (s : string) : string :=
  match s with
  | EmptyString => EmptyString
  | String c t =>
      match trimZeros t with
      | EmptyString => if Ascii.eqb c "0" then EmptyString else String c ""
      | t' => String c t'
      end
  end.

(** [appendNano] for the layout [.999999999]. *)
Definition appendNano (nsec : Z) : string :=
  if nsec =? 0 then ""
  else String "." (trimZeros (appendInt nsec 9)).

(** The zone of [RFC3339]: [Z], or the offset in hours and minutes. *)
Definition formatZone (offset : Z) : string :=
  if offset =? 0 then "Z"
  else
    let zone := Z.quot offset 60 in
    (if zone <? 0 then "-" else "+")
      ++ appendInt (Z.abs zone / 60) 2 ++ ":" ++ appendInt (Z.abs zone mod 60) 2.

(** [Time.MarshalJSON]: the layout [RFC3339Nano]; a year outside
    [0, 9999] and a zone of 24 hours or more are errors ([None]). *)
Definition formatTime (t : Time) : option string :=
  if (0 <=? year t) && (year t <=? 9999)
     && (Z.abs (Z.quot (zoneOffset t) 60) / 60 <? 24) then
    Some (appendInt (year t) 4 ++ "-" ++ appendInt (month t) 2 ++ "-"
          ++ appendInt (day t) 2 ++ "T" ++ appendInt (hour t) 2 ++ ":"
          ++ appendInt (minute t) 2 ++ ":" ++ appendInt (second t) 2
          ++ appendNano (nanosecond t) ++ formatZone (zoneOffset t))
  else None.

(** *** A [Result] as one line *)

Definition key (name : string) : string :=
  String quote (name ++ String quote ":").

Definition formatBool (b : bool) : string := if b then "true" else "false".

Definition encodePhases (p : PhaseTimings) : string :=
  "{" ++ key "dns" ++ formatInt (DNS p)
      ++ "," ++ key "connect" ++ formatInt (Connect p)
      ++ "," ++ key "tls" ++ formatInt (TLS p)
      ++ "," ++ key "ttfb" ++ formatInt (TTFB p)
      ++ "," ++ key "total" ++ formatInt (Total p) ++ "}".

(** A member tagged [omitempty]. *)
Definition omitempty (name value : string) : string :=
  if decide (value = "") then ""
  else "," ++ key name ++ encodeString value.

Definition newline : ascii := "010"%char.

(** Modelled from the spec: [enc.Encode(res)]. The encoder of
    [encoding/json] is not part of the repository; the line has the
    members of the record schema (section 6) under the names the field
    tags of [trace.go] give them, the object is followed by a newline,
    and nothing is written when the timestamp cannot be. *)
Definition Encode (r : Result) : option string :=
  match formatTime (Timestamp r) with
  | None => None
  | Some ts =>
      Some ("{" ++ key "ts" ++ String quote (ts ++ String quote
              ("," ++ key "code" ++ formatInt (Code r)
               ++ omitempty "error" (Error r)
               ++ omitempty "fail_phase" (FailPhase r)
               ++ "," ++ key "reused" ++ formatBool (Reused r)
               ++ "," ++ key "phases" ++ encodePhases (Phases r)
               ++ "}" ++ String newline "")))
  end.

(** *** Reading a line back *)

Fixpoint strip (lit s : string) : option string :=
  match lit with
  | EmptyString => Some s
  | String a l =>
      match s with
      | EmptyString => None
      | String b t => if Ascii.eqb a b then strip l t else None
      end
  end.

Fixpoint span (p : ascii -> bool) (s : string) : string * string :=
  match s with
  | EmptyString => (EmptyString, EmptyString)
  | String c t =>
      if p c then let '(a, b) := span p t in (String c a, b)
      else (EmptyString, s)
  end.

Definition isNumChar (c : ascii) : bool := isDigit c || Ascii.eqb c "-".

(** An integer literal in the form [strconv] writes it, within the
    range of an [int64]. *)
Definition parseInt (s : string) : option (Z * string) :=
  let '(tok, rest) := span isNumChar s in
  match NilZero.int_of_string tok with
  | None => None
  | Some d =>
      let z := Z.of_int d in
      if decide (formatInt z = tok) then
        if decide (int64_min <= z /\ z <= int64_max) then Some (z, rest)
        else None
      else None
  end.

Definition parseBool (s : string) : option (bool * string) :=
  match strip "true" s with
  | Some rest => Some (true, rest)
  | None =>
      match strip "false" s with
      | Some rest => Some (false, rest)
      | None => None
      end
  end.

(** Exactly [k] digits. *)
Fixpoint parseDigits (k : nat) (acc : Z) (s : string) : option (Z * string) :=
  match k with
  | O => Some (acc, s)
  | S k' =>
      match s with
      | EmptyString => None
      | String c t =>
          if isDigit c then parseDigits k' (10 * acc + (byte c - 48)) t
          else None
      end
  end.

Definition hexVal (c : ascii) : option Z :=
  if isDigit c then Some (byte c - 48)
  else if between 97 102 c then Some (byte c - 87)
  else if between 65 70 c then Some (byte c - 55)
  else None.

Definition hex4 (h1 h2 h3 h4 : ascii) : option Z :=
  match hexVal h1, hexVal h2, hexVal h3, hexVal h4 with
  | Some a, Some b, Some c, Some d => Some (((a * 16 + b) * 16 + c) * 16 + d)
  | _, _, _, _ => None
  end.

(** U+FFFD in UTF-8. *)
Definition replacement : string :=
  String (char 239) (String (char 191) (String (char 189) "")).

(** [utf8.EncodeRune] *)
Definition encodeRune (r : Z) : string :=
  if r <? 128 then String (char r) ""
  else if r <? 2048 then
    String (char (192 + r / 64)) (String (char (128 + r mod 64)) "")
  else if (55296 <=? r) && (r <=? 57343) then replacement
  else if r <? 65536 then
    String (char (224 + r / 4096))
      (String (char (128 + (r / 64) mod 64))
         (String (char (128 + r mod 64)) ""))
  else if r <=? 1114111 then
    String (char (240 + r / 262144))
      (String (char (128 + (r / 4096) mod 64))
         (String (char (128 + (r / 64) mod 64))
            (String (char (128 + r mod 64)) "")))
  else replacement.

Definition simpleEscape (e : ascii) : option ascii :=
  if Ascii.eqb e quote then Some quote
  else if Ascii.eqb e backslash then Some backslash
  else if Ascii.eqb e "/" then Some "/"%char
  else if Ascii.eqb e "b" then Some (char 8)
  else if Ascii.eqb e "f" then Some (char 12)
  else if Ascii.eqb e "n" then Some (char 10)
  else if Ascii.eqb e "r" then Some (char 13)
  else if Ascii.eqb e "t" then Some (char 9)
  else None.

Definition prepend (a : string) (r : option (string * string))
  : option (string * string) :=
  match r with
  | Some (body, rest) => Some (a ++ body, rest)
  | None => None
  end.

(** The low surrogate escape a string may start with. *)
Definition lowSurrogate (s : string) : option Z :=
  match s with
  | String b (String u (String g1 (String g2 (String g3 (String g4 _))))) =>
      if Ascii.eqb b backslash && Ascii.eqb u "u" then
        match hex4 g1 g2 g3 g4 with
        | Some r2 => if (56320 <=? r2) && (r2 <=? 57343) then Some r2 else None
        | None => None
        end
      else None
  | _ => None
  end.

(** The body of a string literal up to its closing quote, and what
    follows it. [copy] counts the bytes of a valid multi-byte sequence
    still to be copied, [skip] those of a second escape already used. *)
Fixpoint parseBody (copy skip : nat) (s : string) : option (string * string) :=
  match s with
  | EmptyString => None
  | String c t =>
      match copy, skip with
      | S k, _ => prepend (String c "") (parseBody k skip t)
      | O, S k => parseBody O k t
      | O, O =>
          if Ascii.eqb c quote then Some (EmptyString, t)
          else if Ascii.eqb c backslash then
            match t with
            | EmptyString => None
            | String e t1 =>
                match simpleEscape e with
                | Some ch => prepend (String ch "") (parseBody O O t1)
                | None =>
                    if Ascii.eqb e "u" then
                      match t1 with
                      | String h1 (String h2 (String h3 (String h4 t5))) =>
                          match hex4 h1 h2 h3 h4 with
                          | None => None
                          | Some r =>
                              if (55296 <=? r) && (r <=? 56319) then
                                match lowSurrogate t5 with
                                | Some r2 =>
                                    prepend
                                      (encodeRune
                                         (65536 + (r - 55296) * 1024
                                          + (r2 - 56320)))
                                      (parseBody O 6 t5)
                                | None =>
                                    prepend replacement (parseBody O O t5)
                                end
                              else prepend (encodeRune r) (parseBody O O t5)
                          end
                      | _ => None
                      end
                    else None
                end
            end
          else if byte c <? 32 then None
          else if byte c <? 128 then prepend (String c "") (parseBody O O t)
          else
            match runeLen s with
            | O => prepend replacement (parseBody O O t)
            | S n => prepend (String c "") (parseBody n O t)
            end
      end
  end.

Definition parseString (s : string) : option (string * string) :=
  match s with
  | String c t => if Ascii.eqb c quote then parseBody 0 0 t else None
  | EmptyString => None
  end.

(** The fraction of a second: a dot and digits, of which nine count. *)
Definition parseNano (s : string) : option (Z * string) :=
  match s with
  | String c t =>
      if Ascii.eqb c "." then
        let '(ds, rest) := span isDigit t in
        match ds with
        | EmptyString => None
        | _ =>
            match parseDigits 9 0 (ds ++ zeros 9) with
            | Some (n, _) => Some (n, rest)
            | None => None
            end
        end
      else Some (0, s)
  | EmptyString => Some (0, s)
  end.

Definition parseZone (s : string) : option (Z * string) :=
  match s with
  | EmptyString => None
  | String c t =>
      if Ascii.eqb c "Z" then Some (0, t)
      else if Ascii.eqb c "+" || Ascii.eqb c "-" then
        match parseDigits 2 0 t with
        | None => None
        | Some (h, t1) =>
            match strip ":" t1 with
            | None => None
            | Some t2 =>
                match parseDigits 2 0 t2 with
                | None => None
                | Some (m, t3) =>
                    if (h <? 24) && (m <? 60) then
                      Some ((if Ascii.eqb c "-" then -1 else 1)
                            * (h * 3600 + m * 60), t3)
                    else None
                end
            end
        end
      else None
  end.

Definition isLeap (y : Z) : bool :=
  (y mod 4 =? 0) && (negb (y mod 100 =? 0) || (y mod 400 =? 0)).

Definition daysIn (m y : Z) : Z :=
  if m =? 2 then (if isLeap y then 29 else 28)
  else if (m =? 4) || (m =? 6) || (m =? 9) || (m =? 11) then 30
  else 31.

(** The fields of a [Time] that name a date and a time of day. *)
Definition validTime (t : Time) : Prop :=
  0 <= year t <= 9999 /\ 1 <= month t <= 12 /\
  1 <= day t <= daysIn (month t) (year t) /\
  0 <= hour t < 24 /\ 0 <= minute t < 60 /\ 0 <= second t < 60 /\
  0 <= nanosecond t < 1000000000 /\
  -86400 < zoneOffset t < 86400 /\ zoneOffset t mod 60 = 0.

Definition field (k : nat) (sep : string) (s : string)
  : option (Z * string) :=
  match parseDigits k 0 s with
  | None => None
  | Some (v, rest) =>
      match strip sep rest with
      | None => None
      | Some rest' => Some (v, rest')
      end
  end.

(** A timestamp in the strict form of RFC 3339. *)
Definition parseTime (s : string) : option (Time * string) :=
  '(y, s) ← field 4 "-" s;
  '(mo, s) ← field 2 "-" s;
  '(d, s) ← field 2 "T" s;
  '(h, s) ← field 2 ":" s;
  '(mi, s) ← field 2 ":" s;
  '(se, s) ← parseDigits 2 0 s;
  '(ns, s) ← parseNano s;
  '(off, s) ← parseZone s;
  if (1 <=? mo) && (mo <=? 12) && (1 <=? d) && (d <=? daysIn mo y)
     && (h <? 24) && (mi <? 60) && (se <? 60)
  then Some (mkTime y mo d h mi se ns off, s)
  else None.

(** A member that may be missing: absent, the field keeps the empty
    string of a fresh [Result]. *)
Definition optionalString (name : string) (s : string)
  : option (string * string) :=
  match strip ("," ++ key name) s with
  | Some rest => parseString rest
  | None => Some (EmptyString, s)
  end.

Definition member (prefix : string) (s : string) : option (Z * string) :=
  match strip prefix s with
  | Some rest => parseInt rest
  | None => None
  end.

Definition parsePhases (s : string) : option (PhaseTimings * string) :=
  '(dns, s) ← member ("{" ++ key "dns") s;
  '(connect, s) ← member ("," ++ key "connect") s;
  '(tls, s) ← member ("," ++ key "tls") s;
  '(ttfb, s) ← member ("," ++ key "ttfb") s;
  '(total, s) ← member ("," ++ key "total") s;
  s ← strip "}" s;
  Some (mkPhases dns connect tls ttfb total, s).

(** Modelled from the spec: [json.Unmarshal(line, &res)] on a line of the
    record schema (section 6). The decoder of [encoding/json] is not part
    of the repository; it accepts more than this reader (members in any
    order, blanks between tokens, unknown members), none of which the
    lines written by the encoder use. *)
Definition Unmarshal (line : string) : option Result :=
  s ← strip ("{" ++ key "ts" ++ String quote "") line;
  '(ts, s) ← parseTime s;
  '(code, s) ← member (String quote ("," ++ key "code")) s;
  '(err, s) ← optionalString "error" s;
  '(failPhase, s) ← optionalString "fail_phase" s;
  s ← strip ("," ++ key "reused") s;
  '(reused, s) ← parseBool s;
  s ← strip ("," ++ key "phases") s;
  '(phases, s) ← parsePhases s;
  s ← strip "}" s;
  if decide (s = String newline "" \/ s = "") then
    Some (mkResult ts code err failPhase reused phases)
  else None.

(** Text made of bytes below 0x80. *)
Fixpoint isAscii (s : string) : bool :=
  match s with
  | EmptyString => true
  | String c t => (byte c <? 128) && isAscii t
  end.

(** A result whose timestamp names a date and time, whose integers are
    Go integers, and whose two texts are ASCII. *)
Definition wellFormed (r : Result) : Prop :=
  validTime (Timestamp r) /\ in_int64 (Code r) /\
  isAscii (Error r) = true /\ isAscii (FailPhase r) = true /\
  in_int64 (DNS (Phases r)) /\ in_int64 (Connect (Phases r)) /\
  in_int64 (TLS (Phases r)) /\ in_int64 (TTFB (Phases r)) /\
  in_int64 (Total (Phases r)).


End json.


(** ** The runner

    [Run] starts goroutines that talk over two channels. The model is an
    interleaving transition system: one step is one action of the main
    goroutine, of a worker, of the writer goroutine, or the cancellation
    of the context. Timers are left open: the [stop] timer and the
    tickers may fire whenever their [select] is waiting. The writer
    goroutine receives a result, counts it and writes it in three
    steps, so that the other goroutines may run in between. Memory is
    taken to suffice for what passes the checks of the runtime. *)
Module Runner.

Import Go attack.

(** What [Run] reads from outside: the configuration, the queue size
    ([r.cfg.Load.QueueSize]; the field is read by the runner but is not
    among those [config.LoadConfig] declares, so it is kept apart), and
    the outcome of the calls that may fail before the run starts. *)
Record Setup := mkSetup {
  cfg : config.Config;
  QueueSize : Z;
  makeRequestErr : option string;
  createOutput : bool;
  createProgress : bool
}.

Definition rate (u : Setup) : Z := config.Rate (config.Load (cfg u)).
Definition concurrency (u : Setup) : Z :=
  config.Concurrency (config.Load (cfg u)).

(** [make(chan int, r.cfg.Load.QueueSize)] and
    [make(chan Result, concurrency*2)] *)
Definition workCap (u : Setup) : Z := QueueSize u.
Definition resultsCap (u : Setup) : Z := mul64 (concurrency u) 2.

(** The bytes one element of each channel takes: an [int] ticket, and a
    [Result] (a [time.Time] of 24 bytes, an [int], two [string]s of 16
    bytes each, a [bool] padded to 8, five [Duration]s). *)
Definition ticketSize : Z := 8.
Definition resultSize : Z := 112.

(** Both [make(chan ...)] calls get through. *)
Definition chansFit (u : Setup) : Prop :=
  makechan_ok ticketSize (workCap u) /\
  makechan_ok resultSize (resultsCap u).

(** [interval := time.Second / time.Duration(rate)] *)
Definition interval (rate : Z) : Duration := div64 Second rate.

Inductive RunError :=
| ErrMakeRequest
| ErrOpenOutput
| ErrOpenProgress.

(** Where the main goroutine stands in [Run]. *)
Inductive MainPc :=
| PcMakeRequest
| PcMakeChans
| PcSpawn (i : Z)
| PcOpenOutput
| PcOpenProgress
| PcSpawnSink
| PcNewTicker
| PcSelect (count : Z)
| PcSend (count : Z)
| PcCloseWork
| PcWait
| PcCloseResults
| PcReturn
| PcReturned (err : option RunError)
| PcPanicked.

(** A worker is waiting in [for range workCh], running [doRequest] for
    the ticket it received, waiting in the [select] that sends its
    result, or has returned. *)
Inductive Worker :=
| WRecv
| WBusy (ticket : Z)
| WSend (res : Result)
| WExited.

(** The writer goroutine has not been started, is waiting in its
    [select], holds a result it has received and not yet counted
    (before [stats.Add(res)]), has counted it and not yet written it
    (before [enc.Encode(res)]), or has returned. *)
Inductive Sink :=
| SNotStarted
| SRunning
| SHolds (res : Result)
| SCounted (res : Result)
| SDone.

Record Chan (A : Type) := mkChan {
  buf : list A;
  closed : bool
}.
Arguments mkChan {A}.
Arguments buf {A}.
Arguments closed {A}.

(** An [*os.File] opened by [os.Create]: what has been written, and
    whether [Close] has run. Writes to a closed file fail and the
    program ignores the error. *)
Record File (A : Type) := mkFile {
  isOpen : bool;
  written : list A
}.
Arguments mkFile {A}.
Arguments isOpen {A}.
Arguments written {A}.

Definition write {A} (f : option (File A)) (x : A) : option (File A) :=
  match f with
  | Some f' =>
      if isOpen f' then Some (mkFile true (written f' ++ [x])) else f
  | None => None
  end.

Definition close {A} (f : option (File A)) : option (File A) :=
  match f with
  | Some f' => Some (mkFile false (written f'))
  | None => None
  end.

(** A line of [progress.log]: the one [printStats] formats from a
    snapshot, or the closing line. *)
Inductive ProgressLine :=
| Progress (snap : StatsSnapshot)
| Completed.

Record State := mkState {
  pc : MainPc;
  workers : list Worker;
  workCh : Chan Z;
  results : Chan Result;
  sink : Sink;
  cancelled : bool;
  stats : StatsCollector;
  outFile : option (File string);
  progressFile : option (File ProgressLine);
  requests : list Result
}.

Definition initial : State :=
  mkState PcMakeRequest [] (mkChan [] false) (mkChan [] false)
          SNotStarted false newStats None None [].

Definition set_pc (s : State) (p : MainPc) : State :=
  mkState p (workers s) (workCh s) (results s) (sink s) (cancelled s)
          (stats s) (outFile s) (progressFile s) (requests s).
Definition set_workers (s : State) (ws : list Worker) : State :=
  mkState (pc s) ws (workCh s) (results s) (sink s) (cancelled s)
          (stats s) (outFile s) (progressFile s) (requests s).
Definition set_workCh (s : State) (c : Chan Z) : State :=
  mkState (pc s) (workers s) c (results s) (sink s) (cancelled s)
          (stats s) (outFile s) (progressFile s) (requests s).
Definition set_results (s : State) (c : Chan Result) : State :=
  mkState (pc s) (workers s) (workCh s) c (sink s) (cancelled s)
          (stats s) (outFile s) (progressFile s) (requests s).
Definition set_sink (s : State) (k : Sink) : State :=
  mkState (pc s) (workers s) (workCh s) (results s) k (cancelled s)
          (stats s) (outFile s) (progressFile s) (requests s).
Definition set_cancelled (s : State) : State :=
  mkState (pc s) (workers s) (workCh s) (results s) (sink s) true
          (stats s) (outFile s) (progressFile s) (requests s).
Definition set_stats (s : State) (c : StatsCollector) : State :=
  mkState (pc s) (workers s) (workCh s) (results s) (sink s) (cancelled s)
          c (outFile s) (progressFile s) (requests s).
Definition set_outFile (s : State) (f : option (File string)) : State :=
  mkState (pc s) (workers s) (workCh s) (results s) (sink s) (cancelled s)
          (stats s) f (progressFile s) (requests s).
Definition set_progressFile (s : State) (f : option (File ProgressLine))
  : State :=
  mkState (pc s) (workers s) (workCh s) (results s) (sink s) (cancelled s)
          (stats s) (outFile s) f (requests s).
Definition add_request (s : State) (r : Result) : State :=
  mkState (pc s) (workers s) (workCh s) (results s) (sink s) (cancelled s)
          (stats s) (outFile s) (progressFile s) (requests s ++ [r]).

(** The deferred [progressFile.Close()] and [outFile.Close()]. *)
Definition run_defers (s : State) : State :=
  set_outFile (set_progressFile s (close (progressFile s)))
              (close (outFile s)).

(** [_ = enc.Encode(res)]: the line of the result is written; a result
    that cannot be encoded writes nothing, and the error is dropped. *)
Definition encodeTo (f : option (File string)) (r : Result)
  : option (File string) :=
  match json.Encode r with
  | Some line => write f line
  | None => f
  end.

(** The writer goroutine with a result in its hands: [stats.Add(res)],
    and after it [_ = enc.Encode(res)]. *)
Definition sinkAdd (s : State) (r : Result) : State :=
  set_sink (set_stats s (Add (stats s) r)) (SCounted r).
Definition sinkEncode (s : State) (r : Result) : State :=
  set_sink (set_outFile s (encodeTo (outFile s) r)) SRunning.

(** [printStats(stats, start, progressFile)] *)
Definition printStats (s : State) : State :=
  set_progressFile s
    (write (progressFile s) (Progress (Snapshot (stats s)))).

Inductive Actor :=
| Main
| WorkerOf (i : nat)
| Writer
| Canceller.

Definition all_exited (ws : list Worker) : Prop :=
  Forall (fun w => w = WExited) ws.

Inductive step (u : Setup) : State -> Actor -> State -> Prop :=
(* req, err := r.makeRequest() *)
| step_makeRequest_err s msg :
    pc s = PcMakeRequest -> makeRequestErr u = Some msg ->
    step u s Main (set_pc s (PcReturned (Some ErrMakeRequest)))
| step_makeRequest s :
    pc s = PcMakeRequest -> makeRequestErr u = None ->
    step u s Main (set_pc s PcMakeChans)
(* the two make(chan ...): a size out of range panics *)
| step_makeChans_panic s :
    pc s = PcMakeChans -> ~ chansFit u ->
    step u s Main (set_pc s PcPanicked)
| step_makeChans s :
    pc s = PcMakeChans -> chansFit u ->
    step u s Main (set_pc s (PcSpawn 0))
(* for i := 0; i < concurrency; i++ { wg.Add(1); go func ... } *)
| step_spawn s i :
    pc s = PcSpawn i -> i < concurrency u ->
    step u s Main
         (set_pc (set_workers s (workers s ++ [WRecv])) (PcSpawn (add64 i 1)))
| step_spawn_done s i :
    pc s = PcSpawn i -> ~ i < concurrency u ->
    step u s Main (set_pc s PcOpenOutput)
(* outFile, err := os.Create(outPath) *)
| step_openOutput_err s :
    pc s = PcOpenOutput -> createOutput u = false ->
    step u s Main (set_pc s (PcReturned (Some ErrOpenOutput)))
| step_openOutput s :
    pc s = PcOpenOutput -> createOutput u = true ->
    step u s Main
         (set_pc (set_outFile s (Some (mkFile true []))) PcOpenProgress)
(* progressFile, err := os.Create("progress.log") *)
| step_openProgress_err s :
    pc s = PcOpenProgress -> createProgress u = false ->
    step u s Main
         (set_pc (set_outFile s (close (outFile s)))
                 (PcReturned (Some ErrOpenProgress)))
| step_openProgress s :
    pc s = PcOpenProgress -> createProgress u = true ->
    step u s Main
         (set_pc (set_progressFile s (Some (mkFile true []))) PcSpawnSink)
(* go func() { writer + live progress }() *)
| step_spawnSink s :
    pc s = PcSpawnSink ->
    step u s Main (set_pc (set_sink s SRunning) PcNewTicker)
(* interval := time.Second / time.Duration(rate); time.NewTicker(interval):
   the division panics for rate 0, NewTicker for an interval <= 0 *)
| step_newTicker_panic s :
    pc s = PcNewTicker -> rate u = 0 \/ interval (rate u) <= 0 ->
    step u s Main (set_pc (run_defers s) PcPanicked)
| step_newTicker s :
    pc s = PcNewTicker -> rate u <> 0 -> 0 < interval (rate u) ->
    step u s Main (set_pc s (PcSelect 0))
(* case <-stop: break loop *)
| step_stop s count :
    pc s = PcSelect count ->
    step u s Main (set_pc s PcCloseWork)
(* case <-ticker.C: *)
| step_tick s count :
    pc s = PcSelect count ->
    step u s Main (set_pc s (PcSend count))
(* case workCh <- count: count++   (room in the buffer) *)
| step_send s count :
    pc s = PcSend count -> closed (workCh s) = false ->
    Z.of_nat (length (buf (workCh s))) < workCap u ->
    step u s Main
         (set_pc (set_workCh s (mkChan (buf (workCh s) ++ [count]) false))
                 (PcSelect (add64 count 1)))
(* case workCh <- count: count++   (handed to a waiting worker) *)
| step_send_handoff s count i :
    pc s = PcSend count -> closed (workCh s) = false ->
    buf (workCh s) = [] -> workers s !! i = Some WRecv ->
    step u s Main
         (set_pc (set_workers s (<[i := WBusy count]> (workers s)))
                 (PcSelect (add64 count 1)))
(* case <-ctx.Done(): break loop *)
| step_send_cancelled s count :
    pc s = PcSend count -> cancelled s = true ->
    step u s Main (set_pc s PcCloseWork)
(* close(workCh) *)
| step_closeWork s :
    pc s = PcCloseWork ->
    step u s Main
         (set_pc (set_workCh s (mkChan (buf (workCh s)) true)) PcWait)
(* wg.Wait() *)
| step_wait s :
    pc s = PcWait -> all_exited (workers s) ->
    step u s Main (set_pc s PcCloseResults)
(* close(results) *)
| step_closeResults s :
    pc s = PcCloseResults ->
    step u s Main
         (set_pc (set_results s (mkChan (buf (results s)) true)) PcReturn)
(* return nil, which runs the deferred Close calls *)
| step_return s :
    pc s = PcReturn ->
    step u s Main (set_pc (run_defers s) (PcReturned None))
(* worker: for range workCh *)
| step_recv s i ticket rest :
    workers s !! i = Some WRecv -> buf (workCh s) = ticket :: rest ->
    step u s (WorkerOf i)
         (set_workers (set_workCh s (mkChan rest (closed (workCh s))))
                      (<[i := WBusy ticket]> (workers s)))
| step_recv_closed s i :
    workers s !! i = Some WRecv -> buf (workCh s) = [] ->
    closed (workCh s) = true ->
    step u s (WorkerOf i) (set_workers s (<[i := WExited]> (workers s)))
(* worker: res := r.doRequest(req) *)
| step_doRequest s i ticket x :
    workers s !! i = Some (WBusy ticket) ->
    step u s (WorkerOf i)
         (add_request
            (set_workers s (<[i := WSend (doRequest x)]> (workers s)))
            (doRequest x))
(* worker: case results <- res   (room in the buffer) *)
| step_result s i res :
    workers s !! i = Some (WSend res) -> closed (results s) = false ->
    Z.of_nat (length (buf (results s))) < resultsCap u ->
    step u s (WorkerOf i)
         (set_workers
            (set_results s (mkChan (buf (results s) ++ [res]) false))
            (<[i := WRecv]> (workers s)))
(* worker: case results <- res   (handed to the waiting writer) *)
| step_result_handoff s i res :
    workers s !! i = Some (WSend res) -> closed (results s) = false ->
    buf (results s) = [] -> sink s = SRunning ->
    step u s (WorkerOf i)
         (set_sink (set_workers s (<[i := WRecv]> (workers s))) (SHolds res))
(* worker: case <-ctx.Done(): return *)
| step_result_cancelled s i res :
    workers s !! i = Some (WSend res) -> cancelled s = true ->
    step u s (WorkerOf i) (set_workers s (<[i := WExited]> (workers s)))
(* writer: case res, ok := <-results with ok *)
| step_sink_recv s r rest :
    sink s = SRunning -> buf (results s) = r :: rest ->
    step u s Writer
         (set_sink (set_results s (mkChan rest (closed (results s))))
                   (SHolds r))
(* writer: stats.Add(res) *)
| step_sink_add s r :
    sink s = SHolds r ->
    step u s Writer (sinkAdd s r)
(* writer: _ = enc.Encode(res) *)
| step_sink_encode s r :
    sink s = SCounted r ->
    step u s Writer (sinkEncode s r)
(* writer: case res, ok := <-results with !ok *)
| step_sink_final s :
    sink s = SRunning -> buf (results s) = [] ->
    closed (results s) = true ->
    step u s Writer
         (set_sink
            (set_progressFile (printStats s)
               (write (progressFile (printStats s)) Completed))
            SDone)
(* writer: case <-ticker.C *)
| step_sink_tick s :
    sink s = SRunning ->
    step u s Writer (printStats s)
(* the context is cancelled *)
| step_cancel s :
    step u s Canceller (set_cancelled s).

(** The states a run can be in. *)
Inductive reachable (u : Setup) : State -> Prop :=
| reach_initial : reachable u initial
| reach_step s a s' : reachable u s -> step u s a s' -> reachable u s'.

(** Runs, with the actors of their steps. *)
Inductive steps (u : Setup) : State -> list Actor -> State -> Prop :=
| steps_nil s : steps u s [] s
| steps_cons s a s' acts s'' :
    step u s a s' -> steps u s' acts s'' -> steps u s (a :: acts) s''.

Definition returned (s : State) : Prop :=
  exists err, pc s = PcReturned err.

Definition final_flush_done (s : State) : Prop := sink s = SDone.

(** The error [Run] returns when a file cannot be created: that of the
    first [os.Create] that fails. *)
Definition openError (u : Setup) : RunError :=
  if createOutput u then ErrOpenProgress else ErrOpenOutput.

(** The main goroutine has reached the point where tickets are sent. *)
Definition scheduling (p : MainPc) : Prop :=
  match p with
  | PcSelect _ | PcSend _ => True
  | _ => False
  end.

(** The main goroutine has not reached the scheduler loop: it is still
    setting up, or it has given up. *)
Definition early (p : MainPc) : Prop :=
  match p with
  | PcMakeRequest | PcMakeChans | PcSpawn _ | PcOpenOutput | PcOpenProgress
  | PcSpawnSink | PcNewTicker | PcReturned (Some _) | PcPanicked => True
  | _ => False
  end.

(** The main goroutine is past [wg.Wait()]. *)
Definition joined (p : MainPc) : Prop :=
  match p with
  | PcCloseResults | PcReturn | PcReturned None => True
  | _ => False
  end.

(** Where the main goroutine can be, given how the calls that open the
    output files end. *)
Definition on_path (u : Setup) (p : MainPc) : Prop :=
  match p with
  | PcMakeRequest | PcMakeChans | PcSpawn _ | PcOpenOutput => True
  | PcPanicked =>
      ~ chansFit u \/ (createOutput u = true /\ createProgress u = true)
  | PcReturned (Some ErrMakeRequest) => makeRequestErr u <> None
  | PcReturned (Some ErrOpenOutput) => createOutput u = false
  | PcOpenProgress => createOutput u = true
  | PcReturned (Some ErrOpenProgress) =>
      createOutput u = true /\ createProgress u = false
  | _ => createOutput u = true /\ createProgress u = true
  end.

(** Nothing has happened yet on the channels. *)
Definition idle (s : State) : Prop :=
  requests s = [] /\
  buf (workCh s) = [] /\ closed (workCh s) = false /\
  buf (results s) = [] /\ closed (results s) = false /\
  Forall (fun w => w = WRecv) (workers s) /\
  stats s = newStats /\
  (sink s = SNotStarted \/ sink s = SRunning).

Record invariant (u : Setup) (s : State) : Prop := mkInvariant {
  inv_path : on_path u (pc s);
  inv_idle : early (pc s) -> idle s;
  inv_sink :
    sink s <> SNotStarted -> createOutput u = true /\ createProgress u = true;
  inv_joined : joined (pc s) -> all_exited (workers s);
  inv_workCh :
    closed (workCh s) = true <-> pc s = PcWait \/ joined (pc s);
  inv_results :
    closed (results s) = true <-> pc s = PcReturn \/ pc s = PcReturned None;
  inv_flush :
    sink s = SDone -> closed (results s) = true /\ buf (results s) = []
}.

(** The setup of a run whose configuration was read from a file: the
    integers are Go [int]s. *)
Definition int_fields (u : Setup) : Prop :=
  in_int64 (rate u) /\ in_int64 (concurrency u) /\ in_int64 (QueueSize u).

(** The workers the [for] loop has started when it is at index [i], and
    when it is over. *)
Definition started (u : Setup) (s : State) : Prop :=
  match pc s with
  | PcMakeRequest | PcMakeChans | PcReturned (Some ErrMakeRequest) =>
      Z.of_nat (length (workers s)) = 0
  | PcSpawn i =>
      0 <= i <= Z.max 0 (concurrency u) /\ Z.of_nat (length (workers s)) = i
  | PcPanicked => True
  | _ => Z.of_nat (length (workers s)) = Z.max 0 (concurrency u)
  end.

(** The steps the main goroutine still has to take before it is past the
    two [os.Create] calls. *)
Definition setup_steps (u : Setup) (p : MainPc) : nat :=
  match p with
  | PcMakeRequest => Z.to_nat (Z.max 0 (concurrency u)) + 5
  | PcMakeChans => Z.to_nat (Z.max 0 (concurrency u)) + 4
  | PcSpawn i => Z.to_nat (Z.max 0 (concurrency u) - i) + 3
  | PcOpenOutput => 2
  | PcOpenProgress => 1
  | _ => 0
  end.

End Runner.

(** ** Package stats: the offline aggregator *)
Module stats.

Import Go attack.

Definition PhaseNames : list string :=
  ["dns"; "connect"; "tls"; "ttfb"; "total"].

Record phaseStats := mkPhaseStats {
  Count : Z;
  Sum : float64;
  Min : float64;
  Max : float64
}.

Record Aggregator := mkAggregator {
  count : Z;
  status : gmap Z Z;
  errors : gmap string Z;
  stats : gmap string phaseStats;
  failByPhase : gmap string Z;
  statusFamily : gmap string Z
}.

(** [&phaseStats{Min: 1e9}] *)
Definition initialPhase : phaseStats :=
  mkPhaseStats 0 fzero (float64_of_int 1000000000) fzero.

Definition New : Aggregator :=
  mkAggregator 0 ∅ ∅
    (fold_left (fun m p => <[p := initialPhase]> m) PhaseNames ∅) ∅ ∅.

(** [m[k]++] on a map of counters: a missing key reads as zero. *)
Definition incr `{Countable K} (k : K) (m : gmap K Z) : gmap K Z :=
  <[k := add64 (default 0 (m !! k)) 1]> m.

(** [fmt.Sprintf("%dxx", fam)] for the one-digit families it is called
    with. *)
Definition familyKey (fam : Z) : string :=
  String (ascii_of_nat (48 + Z.to_nat fam)) "xx".

(** The closure [update]: [a.stats[phase]] is a pointer, and a missing
    entry is a nil pointer whose dereference panics ([None]). *)
Definition update (phase : string) (d : Duration)
           (m : gmap string phaseStats) : option (gmap string phaseStats) :=
  match m !! phase with
  | None => None
  | Some ps =>
      let ms := float64_of_int (Milliseconds d) in
      Some (<[phase :=
               mkPhaseStats (add64 (Count ps) 1)
                            (fadd (Sum ps) ms)
                            (if flt ms (Min ps) then ms else Min ps)
                            (if flt (Max ps) ms then ms else Max ps)]> m)
  end.

Definition Add (a : Aggregator) (r : Result) : option Aggregator :=
  let status' :=
    if decide (Code r > 0) then incr (Code r) (status a) else status a in
  let statusFamily' :=
    if decide (Code r > 0) then
      let fam := div64 (Code r) 100 in
      if decide (2 <= fam /\ fam <= 5)
      then incr (familyKey fam) (statusFamily a)
      else statusFamily a
    else statusFamily a in
  let errors' :=
    if decide (Error r <> "") then incr (Error r) (errors a)
    else errors a in
  let failByPhase' :=
    if decide (FailPhase r <> "") then incr (FailPhase r) (failByPhase a)
    else failByPhase a in
  m1 ← update "dns" (DNS (Phases r)) (stats a);
  m2 ← update "connect" (Connect (Phases r)) m1;
  m3 ← update "tls" (TLS (Phases r)) m2;
  m4 ← update "ttfb" (TTFB (Phases r)) m3;
  m5 ← update "total" (Total (Phases r)) m4;
  Some (mkAggregator (add64 (count a) 1) status' errors' m5
                     failByPhase' statusFamily').

(** *** Reading the result file *)

(** What [os.Open(path)] gives: an error, or a file with its bytes and
    the way reading it ends -- at the end of the file ([None], the
    reader then reports [io.EOF]) or with a read error after these
    bytes. *)
Inductive OpenResult :=
| OpenError (msg : string)
| Opened (content : string) (readErr : option string).

Definition newline : ascii := "010"%char.

(** [r.ReadBytes('\n')]: the bytes up to and including the first
    newline together with what is left to read, or all the remaining
    bytes when there is no newline before the reading ends. *)
Fixpoint ReadBytes (pending : string) : string * option string :=
  match pending with
  | EmptyString => (EmptyString, None)
  | String c rest =>
      if Ascii.eqb c newline then (String c EmptyString, Some rest)
      else let '(line, more) := ReadBytes rest in (String c line, more)
  end.

Inductive Outcome :=
| Returns (a : Aggregator) (err : option string)
| Panics
| OutOfFuel.

Section Loading.

(** [json.Unmarshal(line, &res)] into a fresh [attack.Result]:
    [Some res] when it returns no error. *)
Variable Unmarshal : string -> option Result.

(** The body of [if len(line) > 0 { ... }]. *)
Definition handleLine (a : Aggregator) (line : string)
  : option Aggregator :=
  if decide (0 < String.length line)%nat then
    match Unmarshal line with
    | Some res => Add a res
    | None => Some a
    end
  else Some a.

(** The [for] loop; [fuel] bounds the number of iterations. *)
Fixpoint readLoop (fuel : nat) (pending : string)
         (readErr : option string) (a : Aggregator) : Outcome :=
  match fuel with
  | O => OutOfFuel
  | S fuel' =>
      let '(line, more) := ReadBytes pending in
      match handleLine a line with
      | None => Panics
      | Some a' =>
          match more with
          | Some rest => readLoop fuel' rest readErr a'
          | None => Returns a' readErr
          end
      end
  end.

Definition LoadJSONL (opened : OpenResult) (a : Aggregator) : Outcome :=
  match opened with
  | OpenError msg => Returns a (Some msg)
  | Opened content readErr =>
      readLoop (S (String.length content)) content readErr a
  end.

(** The lines of a file: the complete ones, each with its newline,
    and the unterminated rest. *)
Fixpoint fileLines (content : string) : list string * string :=
  match content with
  | EmptyString => ([], EmptyString)
  | String c rest =>
      let '(ls, last) := fileLines rest in
      if Ascii.eqb c newline then (String c EmptyString :: ls, last)
      else match ls with
           | [] => ([], String c last)
           | l :: ls' => (String c l :: ls', last)
           end
  end.

(** Adding the results of the lines that parse, in order. *)
Fixpoint addParsed (a : Aggregator) (lines : list string)
  : option Aggregator :=
  match lines with
  | [] => Some a
  | l :: ls =>
      match handleLine a l with
      | None => None
      | Some a' => addParsed a' ls
      end
  end.

(** The results of the lines that parse: what the file contributes. *)
Definition parsedResults (lines : list string) : list Result :=
  omap (fun l => if decide (0 < String.length l)%nat then Unmarshal l
                 else None) lines.

End Loading.

(** Adding a list of results in order. *)
Fixpoint addResults (a : Aggregator) (rs : list Result) : option Aggregator :=
  match rs with
  | [] => Some a
  | r :: rs' =>
      match Add a r with
      | None => None
      | Some a' => addResults a' rs'
      end
  end.

(** All the lines of a file, the unterminated rest last. *)
Definition allLines (content : string) : list string :=
  fst (fileLines content) ++ [snd (fileLines content)].

(** A complete line: bytes other than a newline, then a newline. *)
Fixpoint noNewline (s : string) : bool :=
  match s with
  | EmptyString => true
  | String c rest => negb (Ascii.eqb c newline) && noNewline rest
  end.

Definition completeLine (l : string) : Prop :=
  exists body, noNewline body = true /\ l = body ++ String newline "".

(** The bytes of a sequence of lines. *)
Fixpoint joinLines (ls : list string) : string :=
  match ls with
  | [] => EmptyString
  | l :: ls' => l ++ joinLines ls'
  end.

(** An aggregator whose five phase entries exist, as [New] makes it. *)
Definition has_phases (a : Aggregator) : Prop :=
  Forall (fun p => is_Some (stats a !! p)) PhaseNames.

End stats.


(** ** Package stats: the report

    [Report] writes its tables with [fmt.Fprintf] and [fmt.Fprintln];
    what it writes is kept as the sequence of those calls, each with its
    format and its arguments. The order in which Go visits the keys of a
    map is not fixed: it is an argument of the functions that range over
    one. *)
Module Report.

Import Go attack stats.

(** Go compares strings byte by byte; a proper prefix comes first. *)
Fixpoint lessEq (a b : string) : bool :=
  match a, b with
  | EmptyString, _ => true
  | String _ _, EmptyString => false
  | String x a', String y b' =>
      if Nat.ltb (nat_of_ascii x) (nat_of_ascii y) then true
      else if Nat.eqb (nat_of_ascii x) (nat_of_ascii y) then lessEq a' b'
      else false
  end.

Definition strLe (a b : string) : Prop := lessEq a b = true.

#[export] Instance strLe_dec : RelDecision strLe.
Proof. intros a b. unfold strLe. apply _. Defined.

(** [sortedKeysInt] and [sortedKeysStr]: the keys in the order the
    [range] visited them, then [sort.Ints] or [sort.Strings]. *)
Definition sortedKeysInt (visited : list Z) : list Z :=
  merge_sort Z.le visited.

Definition sortedKeysStr (visited : list string) : list string :=
  merge_sort strLe visited.

Inductive Arg :=
| AInt (n : Z)
| AText (s : string)
| AFloat (x : float64).

Inductive Print :=
| Fprintf (format : string) (args : list Arg)
| Fprintln (text : string).

Definition nl : string := String stats.newline "".

(** [m[k]] on a map of counters. *)
Definition at_ `{Countable K} (m : gmap K Z) (k : K) : Z :=
  default 0 (m !! k).

Definition familyRows (a : Aggregator) : list Print :=
  omap (fun fam =>
          match statusFamily a !! fam with
          | Some v => Some (Fprintf ("  %-3s : %d" ++ nl) [AText fam; AInt v])
          | None => None
          end)
       ["2xx"; "3xx"; "4xx"; "5xx"].

Definition statusRows (a : Aggregator) (visited : list Z) : list Print :=
  map (fun code =>
         Fprintf ("  %3d : %d" ++ nl) [AInt code; AInt (at_ (status a) code)])
      (sortedKeysInt visited).

(** A table keyed by strings, and the line that stands for an empty
    one. *)
Definition textRows (m : gmap string Z) (visited : list string)
  : list Print :=
  (map (fun key =>
          Fprintf ("  %-10s : %d" ++ nl) [AText key; AInt (at_ m key)])
       (sortedKeysStr visited)
   ++ (if decide (size m = 0%nat) then [Fprintln "  none"] else []))%list.

(** [Report] ends by returning, or by the panic of a nil pointer: the
    entry of a phase that is missing from [a.stats]. *)
Inductive Ending := Returned | Panicked.

(** The rows of the phases that have seen a record, up to the first
    phase without an entry. *)
Fixpoint timingRows (m : gmap string phaseStats) (names : list string)
  : list Print * Ending :=
  match names with
  | [] => ([], Returned)
  | name :: rest =>
      match m !! name with
      | None => ([], Panicked)
      | Some s =>
          let '(rows, ending) := timingRows m rest in
          if decide (Count s = 0) then (rows, ending)
          else
            let avg := fdiv (Sum s) (float64_of_int (Count s)) in
            (Fprintf ("  %-8s %-10.2f %-10.2f %-10.2f %-10.2f" ++ nl)
                     [AText name; AFloat avg; AFloat (Min s);
                      AFloat (Max s); AFloat (Sum s)]
             :: rows, ending)
      end
  end.

(** What [Report] writes, and how it ends. *)
Definition Report (a : Aggregator)
           (codes : list Z) (causes phases : list string)
  : list Print * Ending :=
  let '(timings, ending) := timingRows (stats.stats a) PhaseNames in
  ([Fprintf (nl ++ "=== Summary (%d requests) ===" ++ nl)
            [AInt (count a)];
    Fprintln (nl ++ "Status families:")]
   ++ familyRows a
   ++ [Fprintln (nl ++ "Status codes:")]
   ++ statusRows a codes
   ++ [Fprintln (nl ++ "Errors:")]
   ++ textRows (errors a) causes
   ++ [Fprintln (nl ++ "Failures by phase:")]
   ++ textRows (failByPhase a) phases
   ++ [Fprintln (nl ++ "Phase timings (ms):");
       Fprintf ("  %-8s %-10s %-10s %-10s %-10s" ++ nl)
               [AText "Phase"; AText "Avg"; AText "Min";
                AText "Max"; AText "Total"]]
   ++ timings, ending)%list.

(** The phase a row of the timings is about. *)
Definition rowName (p : Print) : option string :=
  match p with
  | Fprintf _ (AText name :: _) => Some name
  | _ => None
  end.

(** The keys of a map, in some order. *)
Definition keys `{Countable K} (m : gmap K Z) : list K :=
  (map_to_list m).*1.

End Report.

(** ** Observations on the tracer's hooks

    The hook that opens a phase and the hook that closes it, and the
    hooks that leave a phase or the reuse flag alone. *)
Module hooks.

Import Go attack.

Definition startHook (ph : Phase) : TraceEvent :=
  match ph with
  | PhDNS => DNSStart
  | PhConnect => ConnectStart
  | PhTLS => TLSHandshakeStart
  | PhTTFB => GotFirstResponseByte
  end.

(** The hook that closes a phase; [ttfb] has none, its one hook stores
    the reading as it is. A dial closes the phase only when it
    succeeds. *)
Definition doneHook (ph : Phase) : option TraceEvent :=
  match ph with
  | PhDNS => Some DNSDone
  | PhConnect => Some (ConnectDone false)
  | PhTLS => Some TLSHandshakeDone
  | PhTTFB => None
  end.

(** No hook of the list writes the phase. *)
Definition quiet (ph : Phase) (evs : list (TraceEvent * Duration)) : Prop :=
  existsb (fun ev => writes ph (fst ev)) evs = false.

Definition setsReused (e : TraceEvent) : bool :=
  match e with
  | GotConn _ => true
  | _ => false
  end.

(** No hook of the list is [GotConn]. *)
Definition sameConn (evs : list (TraceEvent * Duration)) : Prop :=
  existsb (fun ev => setsReused (fst ev)) evs = false.

End hooks.

(** ** What the counters are compared with

    Counts over a stream of results: the failures tallied under a tag,
    and the successes answered with a status of a given family. *)
Module tally.

Import Go attack.

Definition failedWith (k : string) (rs : list Result) : Z :=
  Z.of_nat (length (filter (fun r => succeeded r = false /\ FailPhase r = k)
                           rs)).

(** The statuses [100 * n] to [100 * n + 99]. *)
Definition inFamily (n : Z) (r : Result) : Prop :=
  succeeded r = true /\ 100 * n <= Code r < 100 * n + 100.

Definition familyCount (n : Z) (rs : list Result) : Z :=
  Z.of_nat (length (filter (inFamily n) rs)).

(** The results of a stream with a given property. *)
Definition countIf (P : Result -> Prop) `{forall r, Decision (P r)}
           (rs : list Result) : Z :=
  Z.of_nat (length (filter P rs)).

(** The key each counter map of the offline aggregator is bumped at for
    a result, if it is bumped at all: the conditions of [Aggregator.Add]. *)
Definition statusKey (r : Result) : option Z :=
  if decide (Code r > 0) then Some (Code r) else None.

Definition familyOf (r : Result) : option string :=
  if decide (Code r > 0) then
    let fam := div64 (Code r) 100 in
    if decide (2 <= fam /\ fam <= 5) then Some (stats.familyKey fam)
    else None
  else None.

Definition errorKey (r : Result) : option string :=
  if decide (Error r <> "") then Some (Error r) else None.

Definition phaseKey (r : Result) : option string :=
  if decide (FailPhase r <> "") then Some (FailPhase r) else None.

(** A map of counters bumped along a stream. *)
Definition bumpBy `{Countable K} (key : Result -> option K)
           (m : gmap K Z) (r : Result) : gmap K Z :=
  match key r with
  | Some k => stats.incr k m
  | None => m
  end.

(** The number of records each phase entry has seen. *)
Definition seen (m : gmap string stats.phaseStats) (p : string) : option Z :=
  stats.Count <$> m !! p.

End tally.

(** ** Views of a state of the run

    What is on its way in a state: the results the workers are waiting
    to send, the tickets they are working on, the lines the encoder
    writes for a list of results. *)
Module ledger.

Import Go attack Runner.

Definition toSend (w : Worker) : option Result :=
  match w with
  | WSend r => Some r
  | _ => None
  end.

Definition sending (ws : list Worker) : list Result := omap toSend ws.

Definition inFlight (w : Worker) : option Z :=
  match w with
  | WBusy t => Some t
  | _ => None
  end.

Definition busy (ws : list Worker) : list Z := omap inFlight ws.

Definition encoded (rs : list Result) : list string := omap json.Encode rs.

(** The result in the hands of the writer goroutine: the one it has
    received and not counted yet, and the one it has counted and not
    written yet. *)
Definition held (k : Sink) : list Result :=
  match k with
  | SHolds r => [r]
  | _ => []
  end.

Definition unwritten (k : Sink) : list Result :=
  match k with
  | SCounted r => [r]
  | _ => []
  end.

(** The main goroutine has not yet started the writer goroutine. *)
Definition before_sink (p : MainPc) : Prop :=
  match p with
  | PcMakeRequest | PcMakeChans | PcSpawn _ | PcOpenOutput | PcOpenProgress
  | PcSpawnSink | PcReturned (Some _) => True
  | _ => False
  end.

(** The books of a state: [rs] are the results the writer goroutine has
    counted, in order, and [dropped] those that workers gave up sending
    after the cancellation. The encoder has been called for all of [rs]
    but the one still [unwritten]. *)
Record Ledger (s : State) (rs dropped : list Result) : Prop := mkLedger {
  led_stats : stats s = addAll rs;
  led_requests :
    requests s ≡ₚ
      rs ++ held (sink s) ++ buf (results s) ++ sending (workers s)
         ++ dropped;
  led_dropped : cancelled s = false -> dropped = [];
  led_fresh : sink s = SNotStarted -> rs = [];
  led_file :
    exists ws : list Result,
      rs = (ws ++ unwritten (sink s))%list /\
      forall f, outFile s = Some f ->
                written f `prefix_of` encoded ws /\
                (isOpen f = true -> written f = encoded ws);
  led_traced : Forall (fun r => exists x, r = doRequest x) (requests s)
}.

(** The tickets that have left the scheduler: queued, in the hands of a
    worker, or already turned into a request. *)
Definition ticketsOut (s : State) : Z :=
  Z.of_nat (length (buf (workCh s)) + length (busy (workers s))
            + length (requests s)).

(** The ticket counter of the scheduler loop. *)
Definition counter (p : MainPc) : option Z :=
  match p with
  | PcSelect c | PcSend c => Some c
  | _ => None
  end.

(** A setup with which [Run] gets through its preparations: the request
    can be built, both channels can be made, both files can be created,
    and there is at least one worker. *)
Definition prepared (u : Setup) : Prop :=
  makeRequestErr u = None /\ createOutput u = true /\
  createProgress u = true /\ 1 <= concurrency u < 2 ^ 62 /\
  chansFit u.

(** A prepared setup whose rate is at most one request per nanosecond. *)
Definition ready (u : Setup) : Prop :=
  prepared u /\ 0 < rate u <= Second.

End ledger.

(** ** Result files used by the examples of the loader *)
Module samples.

Import Go attack.

(** A line without the newline that ends it. *)
Fixpoint chomp (s : string) : string :=
  match s with
  | EmptyString => EmptyString
  | String c EmptyString =>
      if Ascii.eqb c stats.newline then EmptyString else s
  | String c t => String c (chomp t)
  end.

(** The record of a refused connection, cut off before its newline. *)
Definition cutOff : string :=
  match json.Encode (doRequest (mkExchange
          (mkTime 2024 5 17 12 0 0 0 0)
          [(ConnectStart, 20000); (ConnectDone true, 300000)]
          (inl (mkError false
                  "dial tcp 127.0.0.1:1: connect: connection refused"))
          310000)) with
  | Some line => chomp line
  | None => EmptyString
  end.

(** An aggregator with two status codes and one cause of failure. *)
Definition twoCodes : stats.Aggregator :=
  stats.mkAggregator 3 {[ 200 := 1; 404 := 1 ]} {[ "connect" := 1 ]}
                     (stats.stats stats.New) {[ "connect" := 1 ]}
                     {[ "2xx" := 1; "4xx" := 1 ]}.

End samples.

(** ** Concrete inputs used by the examples and counterexamples below *)
Module inputs.

Import Go attack Runner.

Definition noon : Time := mkTime 2024 5 17 12 0 0 0 0.

(** A request to a port nobody listens on: the dial starts after 20
    microseconds and fails after 300. *)
Definition refused : Exchange :=
  mkExchange noon
    [(ConnectStart, 20000); (ConnectDone true, 300000)]
    (inl (mkError false
            "dial tcp 127.0.0.1:1: connect: connection refused"))
    310000.

(** A connection the server closes before it answers. *)
Definition hangup : Exchange :=
  mkExchange noon
    [(GotConn true, 15000)]
    (inl (mkError false "unexpected EOF"))
    2000000.

(** A first request over TLS that is answered with 200 after 5.4 ms. *)
Definition fresh200 : Exchange :=
  mkExchange noon
    [(DNSStart, 10000); (DNSDone, 1200000);
     (ConnectStart, 1250000); (ConnectDone false, 2250000);
     (TLSHandshakeStart, 2300000); (TLSHandshakeDone, 4300000);
     (GotConn false, 4310000); (GotFirstResponseByte, 5300000)]
    (inr (mkResponse 200))
    5400000.

(** A request on a kept-alive connection: no DNS, dial or handshake. *)
Definition reused200 : Exchange :=
  mkExchange noon
    [(GotConn true, 5000); (GotFirstResponseByte, 900000)]
    (inr (mkResponse 200))
    950000.

(** A request answered with 200 after one and a half milliseconds. *)
Definition quick200 : Exchange :=
  mkExchange noon
    [(GotConn true, 4000); (GotFirstResponseByte, 1400000)]
    (inr (mkResponse 200))
    1500000.

(** The default configuration with a rate of two billion requests per
    second. *)
Definition tooFast : config.Config :=
  config.withRate config.DefaultConfig 2000000000.

(** A stand-in for [time.ParseDuration] that reads the two durations of
    the default configuration. *)
Definition parseTenSeconds (s : string) : Go.Duration + string :=
  if decide (s = "10s") then inl 10000000000
  else inr "time: invalid duration".

(** One worker, one request per second, a queue of four tickets. *)
Definition oneWorker : config.Config :=
  config.mkConfig
    (config.target config.DefaultConfig)
    (config.mkLoadConfig 1 "10s" 1 "10s" false false true)
    (config.output config.DefaultConfig).

(** A run that finds everything in place. *)
Definition plainRun : Setup := mkSetup oneWorker 4 None true true.

(** A run at two billion requests per second that finds everything in
    place. *)
Definition fastRun : Setup := mkSetup tooFast 4 None true true.

(** The scheduler loop of [plainRun] after its first tick: ticket 0 is
    in the queue and the counter stands at 1. *)
Definition oneQueued : State :=
  mkState (PcSelect 1) [WRecv]
          (mkChan [0] false) (mkChan [] false) SRunning false newStats
          (Some (mkFile true [])) (Some (mkFile true [])) [].

(** Runs whose result file, or whose progress log, cannot be created. *)
Definition noOutput : Setup := mkSetup oneWorker 4 None false true.
Definition noProgress : Setup := mkSetup oneWorker 4 None true false.

(** The state in which [Run] has just returned the error of the first
    [os.Create]: its one worker has been started and waits for a ticket. *)
Definition abortedWithWorker : State :=
  mkState (PcReturned (Some ErrOpenOutput)) [WRecv]
          (mkChan [] false) (mkChan [] false) SNotStarted false newStats
          None None [].

(** The state in which [Run] has returned [nil] after a run without
    tickets: the worker has exited, both channels are closed, the deferred
    calls have closed both files -- and the writer goroutine has not yet
    seen the closed channel. *)
Definition returnedBeforeFlush : State :=
  mkState (PcReturned None) [WExited]
          (mkChan [] true) (mkChan [] true) SRunning false newStats
          (Some (mkFile false [])) (Some (mkFile false [])) [].

(** The same run after the writer goroutine has taken its last step: the
    progress log was closed before the closing line could be written. *)
Definition flushedTooLate : State :=
  mkState (PcReturned None) [WExited]
          (mkChan [] true) (mkChan [] true) SDone false newStats
          (Some (mkFile false [])) (Some (mkFile false [])) [].

(** The line the encoder writes for a result. *)
Definition lineOf (r : Result) : string :=
  match json.Encode r with
  | Some line => line
  | None => EmptyString
  end.


(** The same request in a run that returns while the result is still in
    the buffer: both files are closed and empty, and the writer
    goroutine, in the state [k], has counted the result. *)
Definition oneLost (k : Sink) : State :=
  mkState (PcReturned None) [WExited]
          (mkChan [] true) (mkChan [] true) k false
          (Add newStats (doRequest refused))
          (Some (mkFile false [])) (Some (mkFile false []))
          [doRequest refused].

(** A result file with a line that does not parse between two that do. *)
Definition garbled : string :=
  String.append (lineOf (doRequest fresh200))
    (String.append "{oops"
       (String stats.newline (lineOf (doRequest refused)))).

(** A result whose error text is the single byte 0xFF, which is not
    UTF-8. *)
Definition badText : Result :=
  mkResult noon 0 (String (ascii_of_nat 255) "") "other" false zeroPhases.

End inputs.


(* ================================================================== *)
(** * Part II: checked properties                                      *)
(* ================================================================== *)

(** ** 64-bit arithmetic and strings *)
Module GoFacts.

Import Go.

Lemma wrap64_range z : in_int64 (wrap64 z).
Proof.
  unfold in_int64, wrap64, int64_min, int64_max.
  pose proof (Z.mod_pos_bound (z + 2 ^ 63) (2 ^ 64) ltac:(lia)). lia.
Qed.

Lemma wrap64_id z : in_int64 z -> wrap64 z = z.
Proof.
  unfold in_int64, wrap64, int64_min, int64_max. intros H.
  rewrite Z.mod_small; lia.
Qed.

Lemma wrap64_add_l a b : wrap64 (wrap64 a + b) = wrap64 (a + b).
Proof.
  unfold wrap64. f_equal.
  replace ((a + 2 ^ 63) mod 2 ^ 64 - 2 ^ 63 + b + 2 ^ 63)
    with ((a + 2 ^ 63) mod 2 ^ 64 + b) by lia.
  rewrite Zplus_mod_idemp_l. f_equal. lia.
Qed.

Lemma wrap64_add_r a b : wrap64 (a + wrap64 b) = wrap64 (a + b).
Proof. rewrite (Z.add_comm a), wrap64_add_l. f_equal. lia. Qed.

Lemma add64_wrap a b n m :
  a = wrap64 n -> b = wrap64 m -> add64 a b = wrap64 (n + m).
Proof.
  intros -> ->. unfold add64. now rewrite wrap64_add_l, wrap64_add_r.
Qed.

Lemma sub64_exact t v : 0 <= v <= t -> t <= int64_max -> sub64 t v = t - v.
Proof.
  intros Hv Ht. unfold sub64. apply wrap64_id.
  unfold in_int64, int64_min, int64_max in *. lia.
Qed.

(** [String.prefix] and [Contains] in terms of concatenation. *)
Lemma prefix_app p s : String.prefix p s = true <-> exists t, s = p ++ t.
Proof.
  revert s. induction p as [|c p IH]; intros s; simpl.
  - split; [intros _; now exists s | now destruct s].
  - destruct s as [|d s]; [split; [discriminate | intros [t Ht]; discriminate]|].
    simpl. destruct (Ascii.ascii_dec c d) as [->|Hne].
    + rewrite IH. split; intros [t Ht]; exists t; [now subst | now inversion Ht].
    + split; [discriminate | intros [t Ht]; inversion Ht; congruence].
Qed.

Lemma Contains_app s sub :
  Contains s sub = true <-> exists a b, s = a ++ sub ++ b.
Proof.
  induction s as [|c s IH]; cbn [Contains].
  - destruct (String.prefix sub "") eqn:E.
    + apply prefix_app in E as [t Ht]. split; [|done].
      intros _. now exists "", t.
    + split; [discriminate|]. intros (a & b & H).
      destruct a; simpl in H.
      * assert (String.prefix sub "" = true) by (apply prefix_app; eauto).
        congruence.
      * discriminate.
  - destruct (String.prefix sub (String c s)) eqn:E.
    + apply prefix_app in E as [t Ht]. split; [|done].
      intros _. now exists "", t.
    + rewrite IH. split.
      * intros (a & b & ->). now exists (String c a), b.
      * intros (a & b & H). destruct a as [|d a]; simpl in H.
        -- assert (String.prefix sub (String c s) = true)
             by (apply prefix_app; eauto).
           congruence.
        -- inversion H; subst. now exists a, b.
Qed.

Lemma append_assoc (a b c : string) : (a ++ b) ++ c = a ++ (b ++ c).
Proof.
  induction a as [|x a IH]; [reflexivity|].
  change (String x ((a ++ b) ++ c) = String x (a ++ (b ++ c))).
  now f_equal.
Qed.

Lemma append_nil_r (a : string) : a ++ "" = a.
Proof.
  induction a as [|x a IH]; [reflexivity|].
  change (String x (a ++ "") = String x a). now f_equal.
Qed.

Lemma length_append (a b : string) :
  String.length (a ++ b) = (String.length a + String.length b)%nat.
Proof.
  induction a as [|x a IH]; [reflexivity|].
  change (S (String.length (a ++ b))
          = S (String.length a + String.length b)). now f_equal.
Qed.

End GoFacts.


(** ** The request tracer *)
Module TracerFacts.

Import Go attack GoFacts.

(** *** Error classification *)

Lemma classifyError_in_tags err : In (classifyError err) tags.
Proof.
  unfold classifyError, tags.
  repeat match goal with
         | |- context [if ?b then _ else _] => destruct b
         end; simpl; tauto.
Qed.

(** X2. The current classifier is a first-match cascade over the six tags,
    in the order timeout, dns, connect, tls, ttfb, other. *)
Lemma classifyError_first_match err :
  let msg := Go.Error err in
  let timeout := IsTimeout err in
  let dns := Contains msg "no such host" in
  let connect := Contains msg "connection refused" || Contains msg "connect" in
  let tls := Contains msg "tls" in
  let ttfb := Contains msg "EOF" || Contains msg "read" in
  In (classifyError err) tags /\
  (classifyError err = "timeout" <-> timeout = true) /\
  (classifyError err = "dns" <-> timeout = false /\ dns = true) /\
  (classifyError err = "connect" <->
     timeout = false /\ dns = false /\ connect = true) /\
  (classifyError err = "tls" <->
     timeout = false /\ dns = false /\ connect = false /\ tls = true) /\
  (classifyError err = "ttfb" <->
     timeout = false /\ dns = false /\ connect = false /\ tls = false /\
     ttfb = true) /\
  (classifyError err = "other" <->
     timeout = false /\ dns = false /\ connect = false /\ tls = false /\
     ttfb = false).
Proof.
  intros msg timeout dns connect tls ttfb.
  split; [apply classifyError_in_tags|].
  unfold classifyError. fold msg. fold timeout dns connect tls ttfb.
  destruct timeout, dns, connect, tls, ttfb; simpl;
    repeat split; intros; try discriminate; try tauto;
    repeat match goal with H : _ /\ _ |- _ => destruct H end;
    try discriminate.
Qed.

Lemma classifyError_nonempty err : classifyError err <> "".
Proof.
  pose proof (classifyError_in_tags err) as H. unfold tags in H. simpl in H.
  intros E. rewrite E in H.
  repeat destruct H as [H|H]; try discriminate; contradiction.
Qed.

(** *** Error field and failing phase of the current tracer *)

Lemma doRequest_failure x err :
  outcome x = inl err ->
  Error (doRequest x) = classifyError err /\
  FailPhase (doRequest x) = classifyError err /\
  Code (doRequest x) = 0.
Proof. intros H. unfold doRequest. rewrite H. simpl. auto. Qed.

Lemma doRequest_success x resp :
  outcome x = inr resp ->
  Error (doRequest x) = "" /\ FailPhase (doRequest x) = "" /\
  Code (doRequest x) = StatusCode resp.
Proof. intros H. unfold doRequest. rewrite H. simpl. auto. Qed.

(** X1. For every result of the current tracer exactly one of the two cases
    holds: the error field is empty (and so is the failing phase), or the
    error field is one of the six tags and the failing phase equals it. *)
Lemma doRequest_error_xor_phase x :
  let r := doRequest x in
  (Error r = "" /\ FailPhase r = "" /\ exists resp, outcome x = inr resp) \/
  (Error r <> "" /\ FailPhase r <> "" /\ FailPhase r = Error r /\
   In (Error r) tags /\ exists err, outcome x = inl err).
Proof.
  intros r. subst r. destruct (outcome x) as [err|resp] eqn:E.
  - right. destruct (doRequest_failure x err E) as (He & Hp & _).
    rewrite He, Hp. repeat split; try apply classifyError_nonempty.
    + apply classifyError_in_tags.
    + now exists err.
  - left. destruct (doRequest_success x resp E) as (He & Hp & _).
    repeat split; try assumption. now exists resp.
Qed.

(** C1. The earlier revision of the tracer sets the error field of a
    failed request and leaves its failing-phase tag empty: for a refused
    connection it yields error [connect] with an empty [fail_phase],
    where the current revision yields [connect] for both. *)
Theorem legacy_doRequest_leaves_fail_phase_empty :
  Error (legacy.doRequest inputs.refused) = "connect" /\
  FailPhase (legacy.doRequest inputs.refused) = "" /\
  Error (doRequest inputs.refused) = "connect" /\
  FailPhase (doRequest inputs.refused) = "connect".
Proof. repeat split; reflexivity. Qed.

(** No failed request of the earlier revision carries a failing phase. *)
Lemma legacy_doRequest_never_sets_fail_phase x :
  FailPhase (legacy.doRequest x) = "".
Proof. unfold legacy.doRequest. now destruct (outcome x). Qed.

(** C6. The earlier revision of the classifier has no [ttfb] case and
    matches only the literal text of a refused connection: an unexpected
    end of stream and an unreachable network both fall through to
    [other], where the current revision answers [ttfb] and [connect]. *)
Theorem legacy_classifyError_misses_cases :
  legacy.classifyError (mkError false "unexpected EOF") = "other" /\
  classifyError (mkError false "unexpected EOF") = "ttfb" /\
  legacy.classifyError
    (mkError false "dial tcp 10.0.0.1:80: connect: network is unreachable")
    = "other" /\
  classifyError
    (mkError false "dial tcp 10.0.0.1:80: connect: network is unreachable")
    = "connect".
Proof. repeat split; reflexivity. Qed.

Lemma legacy_classifyError_never_ttfb err :
  legacy.classifyError err <> "ttfb".
Proof.
  unfold legacy.classifyError.
  repeat match goal with
         | |- context [if ?b then _ else _] => destruct b
         end; discriminate.
Qed.

(** *** Phase durations *)

(** While the hooks run, every captured phase lies between zero and the
    latest clock reading. *)
Definition bounded (t : Duration) (p : PhaseTimings) : Prop :=
  0 <= DNS p <= t /\ 0 <= Connect p <= t /\ 0 <= TLS p <= t /\
  0 <= TTFB p <= t.

Lemma hook_bounded c e t prev :
  bounded prev (phases c) -> prev <= t <= int64_max ->
  bounded t (phases (hook c (e, t))).
Proof.
  unfold bounded. intros (Hd & Hc & Hl & Hf) Ht.
  destruct e as [r| | | |failed| | |]; cbn -[sub64];
    try destruct failed; cbn -[sub64];
    (rewrite ?sub64_exact by lia); lia.
Qed.

Lemma hooks_bounded evs c prev :
  bounded prev (phases c) -> prev <= int64_max -> readings_from prev evs ->
  exists t, t <= int64_max /\ bounded t (phases (fold_left hook evs c)).
Proof.
  revert c prev. induction evs as [|[e t] evs IH]; intros c prev Hb Hp Hr.
  - now exists prev.
  - simpl in Hr. destruct Hr as [Ht Hr]. simpl.
    eapply IH; [|apply Ht|exact Hr]. now apply hook_bounded with (prev := prev).
Qed.

(** A hook that does not write a phase leaves it as it is. *)
Lemma hook_other ph c ev :
  writes ph (fst ev) = false ->
  phase ph (phases (hook c ev)) = phase ph (phases c).
Proof.
  destruct ev as [e t]. simpl.
  destruct ph, e as [r| | | |failed| | |]; simpl;
    try discriminate; try reflexivity; now destruct failed.
Qed.

Lemma hooks_other ph evs c :
  existsb (fun ev => writes ph (fst ev)) evs = false ->
  phase ph (phases (fold_left hook evs c)) = phase ph (phases c).
Proof.
  revert c. induction evs as [|ev evs IH]; intros c H; [reflexivity|].
  simpl in H. apply orb_false_iff in H as [H1 H2].
  simpl. rewrite IH by assumption. now apply hook_other.
Qed.

Lemma phase_setTotal ph p d : phase ph (setTotal p d) = phase ph p.
Proof. now destruct ph. Qed.

Lemma doRequest_Phases x :
  Phases (doRequest x) = setTotal (phases (runHooks (fired x))) (elapsed x).
Proof. unfold doRequest. now destruct (outcome x). Qed.

Lemma legacy_doRequest_Phases x :
  Phases (legacy.doRequest x) = Phases (doRequest x).
Proof. unfold legacy.doRequest, doRequest. now destruct (outcome x). Qed.

(** C9. With a monotonic clock, the five phase durations of every result
    of the tracer are non-negative, and a phase none of whose hooks fired
    is exactly zero. *)
Theorem doRequest_phases_nonnegative x :
  monotonic_clock x ->
  let p := Phases (doRequest x) in
  (0 <= DNS p /\ 0 <= Connect p /\ 0 <= TLS p /\ 0 <= TTFB p /\
   0 <= Total p) /\
  (forall ph, fires ph x = false -> phase ph p = 0).
Proof.
  intros [Hr He] p. subst p. rewrite doRequest_Phases. split.
  - destruct (hooks_bounded (fired x) (mkCaptured zeroPhases false) 0)
      as (t & _ & Hd & Hc & Hl & Hf);
      [unfold bounded; simpl; lia | unfold int64_max; lia | exact Hr |].
    unfold runHooks. simpl. lia.
  - intros ph Hph. rewrite phase_setTotal. unfold runHooks.
    rewrite hooks_other by exact Hph. now destruct ph.
Qed.

(** The phases of a result fit a [Duration]. *)
Lemma doRequest_phases_in_int64 x :
  monotonic_clock x -> elapsed x <= int64_max ->
  let p := Phases (doRequest x) in
  in_int64 (DNS p) /\ in_int64 (Connect p) /\ in_int64 (TLS p) /\
  in_int64 (TTFB p) /\ in_int64 (Total p).
Proof.
  intros [Hr He] Hmax p. subst p. rewrite doRequest_Phases.
  destruct (hooks_bounded (fired x) (mkCaptured zeroPhases false) 0)
    as (t & Ht & Hd & Hc & Hl & Hf);
    [unfold bounded; simpl; lia | unfold int64_max; lia | exact Hr |].
  unfold runHooks, in_int64, int64_min, int64_max in *. simpl. lia.
Qed.

Lemma reused200_clock : monotonic_clock inputs.reused200.
Proof. unfold monotonic_clock; cbn; unfold int64_max; lia. Defined.

(** On a kept-alive connection no DNS, dial or handshake hook fires, and
    the three phases are zero. *)
Lemma doRequest_phases_nonnegative_witness :
  monotonic_clock inputs.reused200 /\
  0 <= Total (Phases (doRequest inputs.reused200)) /\
  DNS (Phases (doRequest inputs.reused200)) = 0 /\
  Connect (Phases (doRequest inputs.reused200)) = 0 /\
  TLS (Phases (doRequest inputs.reused200)) = 0.
Proof.
  split; [exact reused200_clock|].
  destruct (doRequest_phases_nonnegative inputs.reused200 reused200_clock)
    as [(_ & _ & _ & _ & Ht) Hz].
  split; [exact Ht|].
  split; [exact (Hz PhDNS eq_refl)|].
  split; [exact (Hz PhConnect eq_refl) | exact (Hz PhTLS eq_refl)].
Defined.

End TracerFacts.


(** ** The live statistics collector *)
Module CollectorFacts.

Import Go attack GoFacts.

Lemma addAll_snoc rs r : addAll (rs ++ [r]) = Add (addAll rs) r.
Proof. unfold addAll. now rewrite fold_left_app. Qed.

Lemma succeeded_true r : succeeded r = true <-> Error r = "".
Proof.
  unfold succeeded. destruct (decide (Error r <> "")) as [H|H].
  - split; [discriminate | contradiction].
  - split; [intros _|reflexivity].
    destruct (decide (Error r = "")); [assumption | contradiction].
Qed.

Lemma succeeded_false r : succeeded r = false <-> Error r <> "".
Proof.
  unfold succeeded. destruct (decide (Error r <> "")) as [H|H].
  - tauto.
  - split; [discriminate | contradiction].
Qed.

(** One [Add]: [sent] goes up by one, and so does exactly one of
    [success] and [fail]; a failed result leaves the latency sum alone. *)
Lemma Add_failed s r :
  Error r <> "" ->
  sent (Add s r) = add64 (sent s) 1 /\
  fail (Add s r) = add64 (fail s) 1 /\
  success (Add s r) = success s /\
  totalLat (Add s r) = totalLat s.
Proof.
  intros H. unfold Add. destruct (decide (Error r <> "")); [|contradiction].
  simpl. auto.
Qed.

Lemma Add_succeeded s r :
  Error r = "" ->
  sent (Add s r) = add64 (sent s) 1 /\
  success (Add s r) = add64 (success s) 1 /\
  fail (Add s r) = fail s /\
  totalLat (Add s r) = add64 (totalLat s) (Milliseconds (Total (Phases r))).
Proof.
  intros H. unfold Add. destruct (decide (Error r <> "")); [contradiction|].
  simpl. auto.
Qed.

Lemma counts_snoc_succeeded rs r :
  Error r = "" ->
  successCount (rs ++ [r]) = successCount rs + 1 /\
  failureCount (rs ++ [r]) = failureCount rs /\
  latencySum (rs ++ [r]) = latencySum rs + Milliseconds (Total (Phases r)).
Proof.
  intros H. unfold successCount, failureCount, latencySum.
  rewrite !filter_app.
  rewrite (filter_cons_True (fun r => succeeded r = true))
    by now apply succeeded_true.
  rewrite (filter_cons_False (fun r => succeeded r = false))
    by (rewrite succeeded_false; tauto).
  rewrite !filter_nil, app_nil_r, fold_left_app, length_app. simpl.
  repeat split; lia.
Qed.

Lemma counts_snoc_failed rs r :
  Error r <> "" ->
  successCount (rs ++ [r]) = successCount rs /\
  failureCount (rs ++ [r]) = failureCount rs + 1 /\
  latencySum (rs ++ [r]) = latencySum rs.
Proof.
  intros H. unfold successCount, failureCount, latencySum.
  rewrite !filter_app.
  rewrite (filter_cons_False (fun r => succeeded r = true))
    by (rewrite succeeded_true; tauto).
  rewrite (filter_cons_True (fun r => succeeded r = false))
    by now apply succeeded_false.
  rewrite !filter_nil, app_nil_r, length_app. simpl.
  repeat split; lia.
Qed.

Lemma counts_total rs :
  successCount rs + failureCount rs = Z.of_nat (length rs).
Proof.
  induction rs as [|r rs IH] using rev_ind; [reflexivity|].
  rewrite length_app. simpl.
  destruct (decide (Error r = "")) as [H|H].
  - destruct (counts_snoc_succeeded rs r H) as (-> & -> & _). lia.
  - destruct (counts_snoc_failed rs r H) as (-> & -> & _). lia.
Qed.

(** The counters of the collector are the counts of the stream, in
    64-bit arithmetic. *)
Lemma addAll_counters rs :
  sent (addAll rs) = wrap64 (Z.of_nat (length rs)) /\
  success (addAll rs) = wrap64 (successCount rs) /\
  fail (addAll rs) = wrap64 (failureCount rs) /\
  totalLat (addAll rs) = wrap64 (latencySum rs).
Proof.
  induction rs as [|r rs (Hs & Hk & Hf & Hl)] using rev_ind.
  - repeat split; reflexivity.
  - rewrite addAll_snoc, length_app. simpl.
    destruct (decide (Error r = "")) as [H|H].
    + destruct (Add_succeeded (addAll rs) r H) as (-> & -> & -> & ->).
      destruct (counts_snoc_succeeded rs r H) as (-> & -> & ->).
      unfold add64. rewrite Hs, Hk, Hf, Hl, !wrap64_add_l.
      repeat split; f_equal; lia.
    + destruct (Add_failed (addAll rs) r H) as (-> & -> & -> & ->).
      destruct (counts_snoc_failed rs r H) as (-> & -> & ->).
      unfold add64. rewrite Hs, Hk, Hf, Hl, !wrap64_add_l.
      repeat split; f_equal; lia.
Qed.

Lemma counts_nonneg rs : 0 <= successCount rs /\ 0 <= failureCount rs.
Proof. unfold successCount, failureCount. lia. Qed.

Lemma Add_sent_eq rs :
  sent (addAll rs) = add64 (success (addAll rs)) (fail (addAll rs)).
Proof.
  destruct (addAll_counters rs) as (Hs & Hk & Hf & _).
  pose proof (counts_total rs) as Ht.
  rewrite (add64_wrap _ _ _ _ Hk Hf), Hs. f_equal. lia.
Qed.

(** C5. After every [Add] the counters satisfy [sent == success + fail]
    (in Go's 64-bit arithmetic, and as plain integers as long as fewer
    than 2^63 results were added); each [Add] raises [sent] by one and
    exactly one of [success] and [fail] by one. *)
Theorem Add_keeps_sent_eq_success_plus_fail rs :
  let s := addAll rs in
  sent s = add64 (success s) (fail s) /\
  (Z.of_nat (length rs) <= int64_max ->
   sent s = success s + fail s /\ sent s = Z.of_nat (length rs)) /\
  (forall r,
     sent (Add s r) = add64 (sent s) 1 /\
     ((success (Add s r) = add64 (success s) 1 /\ fail (Add s r) = fail s /\
       Error r = "") \/
      (fail (Add s r) = add64 (fail s) 1 /\ success (Add s r) = success s /\
       Error r <> ""))).
Proof.
  intros s. subst s.
  destruct (addAll_counters rs) as (Hs & Hk & Hf & _).
  pose proof (counts_total rs) as Ht.
  pose proof (counts_nonneg rs) as [Hk0 Hf0].
  split; [|split].
  - apply Add_sent_eq.
  - intros Hlen.
    assert (Hin : forall z, 0 <= z <= Z.of_nat (length rs) -> wrap64 z = z).
    { intros z Hz. apply wrap64_id. unfold in_int64, int64_min. lia. }
    rewrite Hs, Hk, Hf, !Hin by lia. lia.
  - intros r. destruct (decide (Error r = "")) as [H|H].
    + destruct (Add_succeeded (addAll rs) r H) as (-> & -> & -> & _). auto.
    + destruct (Add_failed (addAll rs) r H) as (-> & -> & -> & _). auto.
Qed.

(** C7, as stated, fails: one request answered after 1.5 ms
    gives an average of 1.0, not of 1.5 -- [Add] sums whole
    milliseconds. *)
Lemma Snapshot_average_is_not_mean_of_totals :
  avgLat (Snapshot (addAll [doRequest inputs.quick200]))
    = float64_of_int 1 /\
  meanOfTotals [doRequest inputs.quick200]
    = fdiv (float64_of_int 3) (float64_of_int 2) /\
  avgLat (Snapshot (addAll [doRequest inputs.quick200]))
    <> meanOfTotals [doRequest inputs.quick200].
Proof. repeat split; vm_compute; congruence. Qed.

(** C7, amended. The average latency of a snapshot is the sum of the
    [Total] latencies of the successful results, each taken in whole
    milliseconds, divided by their number (as [float64] values, the sums
    in 64-bit arithmetic); a failed result changes neither the sum nor
    the average; without a success the average is zero. *)
Theorem Snapshot_average_over_successes rs :
  let s := addAll rs in
  avgLat (Snapshot s) =
    (if decide (wrap64 (successCount rs) > 0)
     then fdiv (float64_of_int (wrap64 (latencySum rs)))
               (float64_of_int (wrap64 (successCount rs)))
     else fzero) /\
  (forall r, Error r <> "" ->
     totalLat (Add s r) = totalLat s /\
     avgLat (Snapshot (Add s r)) = avgLat (Snapshot s)) /\
  (successCount rs = 0 -> avgLat (Snapshot s) = fzero).
Proof.
  intros s. subst s.
  destruct (addAll_counters rs) as (_ & Hk & _ & Hl).
  split; [|split].
  - unfold Snapshot. simpl. now rewrite Hk, Hl.
  - intros r H.
    destruct (Add_failed (addAll rs) r H) as (_ & _ & Hs & Ht).
    split; [exact Ht|]. unfold Snapshot. simpl. now rewrite Hs, Ht.
  - intros H0. unfold Snapshot. simpl. rewrite Hk, H0. reflexivity.
Qed.

(** Three requests, one of them refused: the average is (5 + 0) / 2. *)
Example Snapshot_average_example :
  avgLat (Snapshot (addAll [doRequest inputs.fresh200;
                            doRequest inputs.refused;
                            doRequest inputs.reused200]))
  = fdiv (float64_of_int 5) (float64_of_int 2).
Proof. vm_compute. reflexivity. Qed.

End CollectorFacts.


(** ** Configuration validation and the scheduler interval *)
Module ConfigFacts.

Import Go config GoFacts.

Lemma interval_zero_iff rate :
  0 < rate -> (Runner.interval rate = 0 <-> Second < rate).
Proof.
  intros Hr. unfold Runner.interval, div64, Second.
  assert (Hq : 0 <= 1000000000 ÷ rate <= 1000000000).
  { split; [apply Z.quot_pos; lia|].
    apply Z.quot_le_upper_bound; nia. }
  rewrite wrap64_id by (unfold in_int64, int64_min, int64_max; lia).
  split.
  - intros H0. destruct (Z_lt_le_dec 1000000000 rate) as [|Hle]; [assumption|].
    assert (1 <= 1000000000 ÷ rate)
      by (apply Z.quot_le_lower_bound; lia).
    lia.
  - intros Hlt. apply Z.quot_small. lia.
Qed.

Lemma interval_positive rate :
  0 < rate <= Second -> 1 <= Runner.interval rate.
Proof.
  intros Hr. unfold Runner.interval, div64, Second in *.
  assert (Hq : 1 <= 1000000000 ÷ rate <= 1000000000).
  { split; [apply Z.quot_le_lower_bound; lia|].
    apply Z.quot_le_upper_bound; nia. }
  rewrite wrap64_id by (unfold in_int64, int64_min, int64_max; lia). lia.
Qed.

Section Validation.

Variable ParseDuration : string -> Go.Duration + string.

Lemma Validate_accepts_iff c :
  Validate ParseDuration c = None <->
  URL (target c) <> "" /\ 0 < Rate (Load c) /\ 0 < Concurrency (Load c) /\
  (exists d, ParseDuration (Duration (Load c)) = inl d) /\
  (exists d, ParseDuration (Timeout (Load c)) = inl d).
Proof.
  unfold Validate.
  destruct (decide (URL (target c) = "")) as [Hu|Hu];
    [split; [discriminate | tauto]|].
  destruct (decide (Rate (Load c) <= 0)) as [Hr|Hr];
    [split; [discriminate | lia]|].
  destruct (decide (Concurrency (Load c) <= 0)) as [Hc|Hc];
    [split; [discriminate | lia]|].
  destruct (ParseDuration (Duration (Load c))) as [d|e];
    [|split; [discriminate | intros (_ & _ & _ & [d Hd] & _); discriminate]].
  destruct (ParseDuration (Timeout (Load c))) as [t|e];
    [|split; [discriminate | intros (_ & _ & _ & _ & [t Ht]); discriminate]].
  split; [|reflexivity]. intros _. repeat split; try lia; eauto.
Qed.

(** C4, amended. [Validate] rejects every rate that is zero or negative;
    a configuration it accepts has a positive rate, and its scheduler
    interval is zero exactly when the rate exceeds 10^9 -- such rates are
    not rejected; up to 10^9 the interval is at least one nanosecond. *)
Theorem Validate_rejects_nonpositive_rate c :
  (Rate (Load c) <= 0 -> Validate ParseDuration c <> None) /\
  (Validate ParseDuration c = None ->
   0 < Rate (Load c) /\
   (Runner.interval (Rate (Load c)) = 0 <-> Second < Rate (Load c)) /\
   (Rate (Load c) <= Second -> 1 <= Runner.interval (Rate (Load c)))).
Proof.
  split.
  - intros Hr Hv. apply Validate_accepts_iff in Hv. lia.
  - intros Hv. apply Validate_accepts_iff in Hv as (_ & Hr & _).
    split; [assumption|]. split.
    + now apply interval_zero_iff.
    + intros Hle. apply interval_positive. lia.
Qed.

End Validation.

(** C4, as stated, fails: the default configuration with a rate of
    2 * 10^9 has a zero interval, and [Validate] accepts it whenever the
    duration parser reads its two durations. *)
Lemma Validate_accepts_zero_interval :
  Runner.interval (Rate (Load inputs.tooFast)) = 0 /\
  (forall ParseDuration : string -> Go.Duration + string,
     ParseDuration "10s" = inl 10000000000 ->
     Validate ParseDuration inputs.tooFast = None) /\
  Validate inputs.parseTenSeconds inputs.tooFast = None.
Proof.
  split; [reflexivity|]. split; [|reflexivity].
  intros pd Hpd. unfold Validate. simpl. now rewrite Hpd.
Qed.

End ConfigFacts.


(** ** The runner *)
Module RunnerFacts.

Import Go attack Runner GoFacts.

(** *** The invariant of the transition system *)

Lemma invariant_initial u : invariant u initial.
Proof.
  constructor; simpl; try tauto; try discriminate.
  - intros _. unfold idle. simpl.
    repeat split; first [now left | constructor].
  - split; [discriminate | intros [H|H]; [discriminate | contradiction]].
  - split; [discriminate | intros [H|H]; discriminate].
Qed.

Lemma worker_is ws i w (P : Worker -> Prop) :
  Forall P ws -> ws !! i = Some w -> P w.
Proof. intros H Hi. exact (Forall_lookup_1 P ws i w H Hi). Qed.

Lemma no_worker_exited ws i w :
  all_exited ws -> ws !! i = Some w -> w = WExited.
Proof. exact (worker_is ws i w (fun w => w = WExited)). Qed.

Lemma no_worker_busy ws i w :
  Forall (fun w => w = WRecv) ws -> ws !! i = Some w -> w = WRecv.
Proof. exact (worker_is ws i w (fun w => w = WRecv)). Qed.

Lemma all_exited_insert ws i : all_exited ws -> all_exited (<[i := WExited]> ws).
Proof. intros H. now apply Forall_insert. Qed.

Ltac worker_clash :=
  match goal with
  | Hall : all_exited ?ws, Hi : ?ws !! _ = Some ?w |- _ =>
      let E := fresh in
      pose proof (no_worker_exited ws _ w Hall Hi) as E; discriminate E
  | Hall : Forall (fun w => w = WRecv) ?ws, Hi : ?ws !! _ = Some ?w |- _ =>
      let E := fresh in
      pose proof (no_worker_busy ws _ w Hall Hi) as E; discriminate E
  end.

Ltac use_pc :=
  match goal with
  | H : pc ?s = _ |- _ => rewrite H in *
  end.

Lemma invariant_step u s a s' :
  invariant u s -> step u s a s' -> invariant u s'.
Proof.
  intros [Hp Hi Hs Hj Hw Hr Hf] Hstep.
  inversion Hstep; subst; try use_pc; simpl in *;
    try specialize (Hi I); try specialize (Hj I);
    unfold idle in *; simpl in *;
    constructor; simpl; unfold idle; simpl;
    try solve [ intuition (try discriminate; try congruence; eauto)
              | intuition worker_clash
              | worker_clash ].
  - intros _. destruct Hi as (? & ? & ? & ? & ? & Hall & ? & ?).
    repeat split; try assumption.
    apply Forall_app. split; [assumption | now constructor].
  - intros Hx. specialize (Hj Hx). worker_clash.
  - intros Hx. now apply all_exited_insert, Hj.
  - intros Hx. destruct (Hi Hx) as (_ & _ & _ & _ & _ & Hall & _).
    worker_clash.
  - intros Hx. specialize (Hj Hx). worker_clash.
  - intros Hx. destruct (Hi Hx) as (_ & _ & _ & _ & _ & Hall & _).
    worker_clash.
  - intros Hx. specialize (Hj Hx). worker_clash.
  - intros Hx. destruct (Hi Hx) as (_ & _ & _ & _ & _ & Hall & _).
    worker_clash.
  - intros Hx. specialize (Hj Hx). worker_clash.
  - intros Hx. destruct (Hi Hx) as (_ & _ & _ & _ & _ & Hall & _).
    worker_clash.
  - intros Hx. now apply all_exited_insert, Hj.
Qed.

Lemma reachable_invariant u s : reachable u s -> invariant u s.
Proof.
  induction 1 as [|s a s' _ IH Hstep].
  - apply invariant_initial.
  - exact (invariant_step u s a s' IH Hstep).
Qed.

Lemma steps_reachable u s acts s' :
  reachable u s -> steps u s acts s' -> reachable u s'.
Proof.
  intros Hs Hrun. induction Hrun as [|s a s' acts s'' Hstep _ IH].
  - assumption.
  - apply IH. exact (reach_step u s a s' Hs Hstep).
Qed.

(** Only the main goroutine moves its own program counter. *)
Lemma others_keep_pc u s a s' : step u s a s' -> a <> Main -> pc s' = pc s.
Proof. intros Hstep Ha. inversion Hstep; subst; simpl; congruence. Qed.

(** *** The collector during a run *)

(** The collector holds the results the writer goroutine has passed to
    [stats.Add], in that order. *)
Lemma reachable_stats u s :
  reachable u s -> exists rs, stats s = addAll rs.
Proof.
  induction 1 as [|s a s' _ [rs IH] Hstep].
  - now exists [].
  - inversion Hstep; subst; simpl; try (now exists rs).
    exists (rs ++ [r])%list.
    now rewrite CollectorFacts.addAll_snoc, IH.
Qed.

(** X4. In every state of every run the counters of the collector satisfy
    [sent == success + fail]. *)
Lemma run_keeps_sent_eq_success_plus_fail u s :
  reachable u s ->
  sent (stats s) = add64 (success (stats s)) (fail (stats s)).
Proof.
  intros Hr. destruct (reachable_stats u s Hr) as [rs ->].
  apply (CollectorFacts.Add_sent_eq rs).
Qed.

(** *** The workers are started first *)

Lemma started_initial u : started u initial.
Proof. reflexivity. Qed.

Lemma started_step u s a s' :
  in_int64 (concurrency u) -> started u s -> step u s a s' -> started u s'.
Proof.
  unfold in_int64, int64_min, int64_max. intros Hc Hs Hstep.
  inversion Hstep; subst; unfold started in *; try use_pc; simpl in *;
    rewrite ?length_insert; try assumption; try tauto;
    try (destruct (pc s) as [| | | | | | | | | | | | |[[]|]|]; assumption).
  - lia.
  - destruct Hs as [Hi Hl]. rewrite length_app. simpl.
    assert (add64 i 1 = i + 1) as ->
      by (apply wrap64_id; unfold in_int64, int64_min, int64_max; lia).
    lia.
  - lia.
Qed.

Lemma reachable_started u s :
  in_int64 (concurrency u) -> reachable u s -> started u s.
Proof.
  intros Hc. induction 1 as [|s a s' _ IH Hstep].
  - apply started_initial.
  - exact (started_step u s a s' Hc IH Hstep).
Qed.

(** *** When a file cannot be created *)

Definition open_fails (u : Setup) : Prop :=
  createOutput u = false \/ createProgress u = false.

(** The main goroutine stays in the setup part of [Run]. *)
Lemma open_fails_early u s : open_fails u -> reachable u s -> early (pc s).
Proof.
  intros Hfails Hr.
  pose proof (inv_path u s (reachable_invariant u s Hr)) as Hp.
  destruct (pc s) as [| | | | | | | | | | | | |[[]|]|]; simpl in *;
    try exact I; destruct Hfails; intuition congruence.
Qed.

Lemma open_fails_return u s e :
  open_fails u -> makeRequestErr u = None ->
  reachable u s -> pc s = PcReturned e -> e = Some (openError u).
Proof.
  intros Hfails Hreq Hr He.
  pose proof (inv_path u s (reachable_invariant u s Hr)) as Hp.
  rewrite He in Hp. unfold openError.
  destruct e as [[]|]; simpl in Hp; try tauto.
  - now rewrite Hp.
  - destruct Hp as [-> _]. reflexivity.
  - destruct Hfails; intuition congruence.
Qed.

(** It is never blocked there: until it has returned it has a step. *)
Lemma open_fails_progress u s :
  open_fails u -> chansFit u ->
  reachable u s -> returned s \/ exists s', step u s Main s'.
Proof.
  intros Hfails Hfit Hr. pose proof (open_fails_early u s Hfails Hr) as He.
  pose proof (inv_path u s (reachable_invariant u s Hr)) as Hp.
  destruct (pc s) as [| |i| | | | | | | | | | |e|] eqn:E;
    simpl in He; try contradiction.
  - right. destruct (makeRequestErr u) eqn:Em.
    + eexists. eapply step_makeRequest_err; eauto.
    + eexists. now apply step_makeRequest.
  - right. eexists. now apply step_makeChans.
  - right. destruct (Z_lt_dec i (concurrency u)).
    + eexists. now apply step_spawn with (i := i).
    + eexists. now apply step_spawn_done with (i := i).
  - right. destruct (createOutput u) eqn:Eo.
    + eexists. now apply step_openOutput.
    + eexists. now apply step_openOutput_err.
  - right. destruct (createProgress u) eqn:Eo.
    + eexists. now apply step_openProgress.
    + eexists. now apply step_openProgress_err.
  - simpl in Hp. destruct Hfails; intuition congruence.
  - simpl in Hp. destruct Hfails; intuition congruence.
  - left. now exists e.
  - simpl in Hp. destruct Hfails; intuition congruence.
Qed.

(** And each of its steps brings the return closer. *)
Lemma open_fails_measure u s s' :
  open_fails u -> in_int64 (concurrency u) ->
  reachable u s -> step u s Main s' ->
  (setup_steps u (pc s') < setup_steps u (pc s))%nat.
Proof.
  intros Hfails Hc Hr Hstep.
  pose proof (open_fails_early u s' Hfails
                (reach_step u s Main s' Hr Hstep)) as He.
  pose proof (reachable_started u s Hc Hr) as Hs.
  unfold in_int64, int64_min, int64_max in Hc.
  pose proof (inv_path u s (reachable_invariant u s Hr)) as Hp.
  inversion Hstep; subst; unfold started in Hs; try use_pc; simpl in *;
    try contradiction; try lia;
    try (destruct Hfails; intuition congruence).
  destruct Hs as [Hi _].
  assert (add64 i 1 = i + 1) as ->
    by (apply wrap64_id; unfold in_int64, int64_min, int64_max; lia).
  lia.
Qed.

(** *** Three runs *)

Lemma steps_end u s s' : s = s' -> steps u s [] s'.
Proof. intros ->. constructor. Qed.

Ltac side :=
  first [ reflexivity | cbv; congruence | cbv; reflexivity
        | repeat split; cbv; intro; discriminate ].
Ltac take rule := eapply steps_cons; [eapply rule; side|].

(** The result file cannot be created: five steps of the main goroutine
    lead to the returned error, with the worker started on the way. *)
Lemma noOutput_run :
  steps inputs.noOutput initial [Main; Main; Main; Main; Main]
        inputs.abortedWithWorker.
Proof.
  take step_makeRequest. take step_makeChans.
  take step_spawn. take step_spawn_done. take step_openOutput_err.
  apply steps_end. reflexivity.
Qed.

(** A run in which the stop timer fires before the first tick. *)
Lemma plainRun_run :
  steps inputs.plainRun initial
        [Main; Main; Main; Main; Main; Main; Main; Main; Main; Main;
         WorkerOf 0; Main; Main; Main]
        inputs.returnedBeforeFlush.
Proof.
  take step_makeRequest. take step_makeChans.
  take step_spawn. take step_spawn_done.
  take step_openOutput. take step_openProgress.
  take step_spawnSink. take step_newTicker.
  take step_stop. take step_closeWork.
  take step_recv_closed.
  eapply steps_cons;
    [eapply step_wait; [reflexivity | repeat constructor]|].
  take step_closeResults. take step_return.
  apply steps_end. reflexivity.
Qed.

Lemma late_flush_step :
  step inputs.plainRun inputs.returnedBeforeFlush Writer inputs.flushedTooLate.
Proof.
  change inputs.flushedTooLate
    with (set_sink
            (set_progressFile (printStats inputs.returnedBeforeFlush)
               (write (progressFile (printStats inputs.returnedBeforeFlush))
                      Completed))
            SDone).
  apply step_sink_final; reflexivity.
Qed.

Lemma noOutput_reaches : reachable inputs.noOutput inputs.abortedWithWorker.
Proof.
  exact (steps_reachable _ _ _ _ (reach_initial _) noOutput_run).
Defined.

Lemma plainRun_reaches :
  reachable inputs.plainRun inputs.returnedBeforeFlush.
Proof.
  exact (steps_reachable _ _ _ _ (reach_initial _) plainRun_run).
Defined.

(** *** How a run starts and ends *)

(** C2, as stated, fails: when the result file cannot be created, [Run]
    returns the error with its worker already started. *)
Lemma worker_started_before_open_failure :
  createOutput inputs.noOutput = false /\
  reachable inputs.noOutput inputs.abortedWithWorker /\
  pc inputs.abortedWithWorker = PcReturned (Some ErrOpenOutput) /\
  workers inputs.abortedWithWorker = [WRecv].
Proof. repeat split. exact noOutput_reaches. Qed.

(** C2, amended. When the request has been built and the two channels
    made, and one of the two files cannot be created, [Run] returns the
    error of that call before the scheduler loop: in every state of such
    a run no ticket has been sent, no request executed and the writer
    goroutine not started; the main goroutine always has a step until it
    has returned, every one of its steps brings the return closer, and
    what it returns is the error of the first [os.Create] that fails. By
    then the workers have been started; they wait for a ticket. *)
Theorem open_failure_aborts_before_scheduling u s :
  int_fields u -> makeRequestErr u = None ->
  chansFit u ->
  createOutput u = false \/ createProgress u = false ->
  reachable u s ->
  (requests s = [] /\ buf (workCh s) = [] /\
   Forall (fun w => w = WRecv) (workers s) /\ sink s = SNotStarted) /\
  ~ scheduling (pc s) /\
  (returned s \/ exists s', step u s Main s') /\
  (forall s', step u s Main s' ->
              (setup_steps u (pc s') < setup_steps u (pc s))%nat) /\
  (forall e, pc s = PcReturned e ->
             e = Some (openError u) /\
             Z.of_nat (length (workers s)) = Z.max 0 (concurrency u)).
Proof.
  intros (_ & Hc & _) Hreq Hcaps Hfails Hr.
  pose proof (reachable_invariant u s Hr) as Hinv.
  pose proof (open_fails_early u s Hfails Hr) as He.
  destruct (inv_idle u s Hinv He) as (Hq & Hw & _ & _ & _ & Hall & _).
  split; [|split; [|split; [|split]]].
  - repeat split; try assumption.
    destruct (sink s) eqn:Es; [reflexivity| | | |];
      destruct (inv_sink u s Hinv) as [Ho Hp];
      try (rewrite Es; discriminate);
      destruct Hfails; congruence.
  - destruct (pc s); simpl in *; tauto.
  - exact (open_fails_progress u s Hfails Hcaps Hr).
  - intros s' Hstep.
    exact (open_fails_measure u s s' Hfails Hc Hr Hstep).
  - intros e H.
    pose proof (open_fails_return u s e Hfails Hreq Hr H) as Hoe.
    split; [exact Hoe|].
    pose proof (reachable_started u s Hc Hr) as Hs.
    unfold started in Hs. rewrite H in Hs.
    rewrite Hoe in Hs. unfold openError in Hs.
    destruct (createOutput u); exact Hs.
Qed.

Lemma noOutput_int_fields : int_fields inputs.noOutput.
Proof. unfold int_fields, in_int64; cbv; intuition congruence. Defined.

Lemma noOutput_caps : chansFit inputs.noOutput.
Proof. repeat split; cbv; intro; discriminate. Defined.

Lemma open_failure_aborts_before_scheduling_witness :
  requests inputs.abortedWithWorker = [] /\
  Some ErrOpenOutput = Some (openError inputs.noOutput) /\
  Z.of_nat (length (workers inputs.abortedWithWorker)) = 1.
Proof.
  destruct (open_failure_aborts_before_scheduling
              inputs.noOutput inputs.abortedWithWorker
              noOutput_int_fields eq_refl
              noOutput_caps
              (or_introl eq_refl) noOutput_reaches)
    as ((Hq & _) & _ & _ & _ & Hret).
  destruct (Hret (Some ErrOpenOutput) eq_refl) as [Hoe Hlen].
  repeat split; assumption.
Defined.

(** C3. The writer goroutine's last branch is written to print the last
    statistics and the closing line, but [Run] does not wait for it: in
    the run where the stop timer fires first, [Run] returns [nil] while
    the writer goroutine has not yet taken that branch; the deferred
    calls have closed the progress log by then, so the branch, when it
    runs, writes neither the last statistics nor the closing line. *)
Lemma Run_returns_before_final_flush :
  reachable inputs.plainRun inputs.returnedBeforeFlush /\
  pc inputs.returnedBeforeFlush = PcReturned None /\
  ~ final_flush_done inputs.returnedBeforeFlush /\
  step inputs.plainRun inputs.returnedBeforeFlush Writer
       inputs.flushedTooLate /\
  progressFile inputs.flushedTooLate = Some (mkFile false []).
Proof.
  repeat split.
  - exact plainRun_reaches.
  - unfold final_flush_done. discriminate.
  - exact late_flush_step.
Qed.

(** The half of the ordering that the code does keep: [Run] returns
    [nil] only after every worker has exited and both channels are
    closed; the results channel is closed only after the pool join; and
    the writer goroutine takes its last branch only once the results
    channel is closed and drained. *)
Theorem Run_returns_after_join u s :
  reachable u s ->
  (pc s = PcReturned None ->
   all_exited (workers s) /\ closed (workCh s) = true /\
   closed (results s) = true) /\
  (closed (results s) = true -> all_exited (workers s)) /\
  (final_flush_done s ->
   closed (results s) = true /\ buf (results s) = [] /\
   all_exited (workers s)).
Proof.
  intros Hr. destruct (reachable_invariant u s Hr) as [_ _ _ Hj Hw Hres Hf].
  assert (Hclosed : closed (results s) = true -> all_exited (workers s)).
  { intros Hc. apply Hj. apply Hres in Hc as [-> | ->]; exact I. }
  split; [|split].
  - intros Hpc. rewrite Hpc in *. simpl in *.
    repeat split; [now apply Hj | apply Hw | apply Hres]; auto.
  - exact Hclosed.
  - intros Hd. destruct (Hf Hd) as [Hc Hb]. auto.
Qed.

Lemma Run_returns_after_join_witness :
  all_exited (workers inputs.returnedBeforeFlush) /\
  closed (results inputs.returnedBeforeFlush) = true.
Proof.
  destruct (Run_returns_after_join inputs.plainRun inputs.returnedBeforeFlush
              plainRun_reaches) as [Hret _].
  destruct (Hret eq_refl) as (Hall & _ & Hc).
  split; assumption.
Defined.

End RunnerFacts.


(** ** The offline aggregator *)
Module LoaderFacts.

Import Go attack stats GoFacts.

(** *** [Add] on an aggregator made by [New] *)

Lemma update_present phase d m :
  is_Some (m !! phase) ->
  exists m', update phase d m = Some m' /\
             forall k, is_Some (m !! k) -> is_Some (m' !! k).
Proof.
  intros [ps Hps]. unfold update. rewrite Hps. eexists. split; [reflexivity|].
  intros k Hk. destruct (decide (phase = k)) as [->|Hne].
  - rewrite lookup_insert_eq. eauto.
  - now rewrite lookup_insert_ne.
Qed.

Lemma has_phases_New : has_phases New.
Proof. unfold has_phases, PhaseNames. repeat constructor; vm_compute; eauto. Qed.

Lemma Add_has_phases a r :
  has_phases a -> exists a', Add a r = Some a' /\ has_phases a'.
Proof.
  unfold has_phases. intros H.
  assert (H5 : forall p, p ∈ PhaseNames -> is_Some (stats.stats a !! p))
    by (apply Forall_forall; exact H).
  assert (Hin : forall p, In p PhaseNames -> p ∈ PhaseNames)
    by (intros p Hp; now apply list_elem_of_In).
  unfold Add.
  destruct (update_present "dns" (DNS (Phases r)) (stats.stats a))
    as (m1 & -> & K1); [apply H5, Hin; simpl; tauto|]. simpl.
  destruct (update_present "connect" (Connect (Phases r)) m1)
    as (m2 & -> & K2); [apply K1, H5, Hin; simpl; tauto|]. simpl.
  destruct (update_present "tls" (TLS (Phases r)) m2)
    as (m3 & -> & K3); [apply K2, K1, H5, Hin; simpl; tauto|]. simpl.
  destruct (update_present "ttfb" (TTFB (Phases r)) m3)
    as (m4 & -> & K4); [apply K3, K2, K1, H5, Hin; simpl; tauto|]. simpl.
  destruct (update_present "total" (Total (Phases r)) m4)
    as (m5 & -> & K5); [apply K4, K3, K2, K1, H5, Hin; simpl; tauto|]. simpl.
  eexists. split; [reflexivity|]. simpl.
  apply Forall_forall. intros p Hp. apply K5, K4, K3, K2, K1, H5, Hp.
Qed.

Lemma addResults_has_phases rs a :
  has_phases a -> exists a', addResults a rs = Some a' /\ has_phases a'.
Proof.
  revert a. induction rs as [|r rs IH]; intros a H; simpl.
  - eauto.
  - destruct (Add_has_phases a r H) as (a1 & -> & H1). now apply IH.
Qed.

(** *** Reading lines *)

Lemma ReadBytes_fileLines p :
  match ReadBytes p with
  | (line, Some rest) =>
      fileLines p = (line :: fst (fileLines rest), snd (fileLines rest)) /\
      (String.length rest < String.length p)%nat /\
      (0 < String.length line)%nat
  | (line, None) => fileLines p = ([], p) /\ line = p
  end.
Proof.
  induction p as [|c p IH]; simpl; [auto|].
  destruct (Ascii.eqb c newline) eqn:Ec.
  - destruct (fileLines p) as [ls last]. simpl. repeat split; lia.
  - destruct (ReadBytes p) as [line [rest|]].
    + destruct IH as (-> & Hlen & Hpos). simpl. repeat split; lia.
    + destruct IH as (-> & ->). auto.
Qed.

Section Loading.

Variable Unmarshal : string -> option Result.

(** A line that does not parse leaves the aggregator as it is. *)
Lemma handleLine_malformed a line :
  Unmarshal line = None -> handleLine Unmarshal a line = Some a.
Proof.
  intros H. unfold handleLine. rewrite H. now destruct (decide _).
Qed.

Lemma handleLine_addResults a line :
  handleLine Unmarshal a line
  = addResults a (parsedResults Unmarshal [line]).
Proof.
  unfold handleLine, parsedResults. simpl.
  destruct (decide (0 < String.length line)%nat); [|reflexivity].
  destruct (Unmarshal line) as [r|]; simpl; [|reflexivity].
  now destruct (Add a r).
Qed.

Lemma addResults_app a rs1 rs2 :
  addResults a (rs1 ++ rs2)%list
  = match addResults a rs1 with
    | Some a' => addResults a' rs2
    | None => None
    end.
Proof.
  revert a. induction rs1 as [|r rs1 IH]; intros a; simpl; [reflexivity|].
  destruct (Add a r); [apply IH | reflexivity].
Qed.

Lemma parsedResults_app ls1 ls2 :
  parsedResults Unmarshal (ls1 ++ ls2)%list
  = (parsedResults Unmarshal ls1 ++ parsedResults Unmarshal ls2)%list.
Proof. unfold parsedResults. apply omap_app. Qed.

(** With fuel for every byte the loop ends, and it has added the results
    of the lines that parse. *)
Lemma allLines_ReadBytes p :
  match ReadBytes p with
  | (line, Some rest) =>
      allLines p = ([line] ++ allLines rest)%list /\
      (String.length rest < String.length p)%nat
  | (line, None) => allLines p = [p] /\ line = p
  end.
Proof.
  pose proof (ReadBytes_fileLines p) as H. unfold allLines.
  destruct (ReadBytes p) as [line [rest|]].
  - destruct H as (-> & Hlt & _). split; [reflexivity | exact Hlt].
  - destruct H as (-> & ->). split; reflexivity.
Qed.

Lemma readLoop_spec fuel p e a :
  (String.length p < fuel)%nat ->
  readLoop Unmarshal fuel p e a
  = match addResults a (parsedResults Unmarshal (allLines p)) with
    | Some a' => Returns a' e
    | None => Panics
    end.
Proof.
  revert p a. induction fuel as [|fuel IH]; intros p a Hlen; [lia|].
  cbn [readLoop]. pose proof (allLines_ReadBytes p) as Hrb.
  destruct (ReadBytes p) as [line [rest|]].
  - destruct Hrb as (-> & Hlt).
    rewrite parsedResults_app, addResults_app, <- handleLine_addResults.
    destruct (handleLine Unmarshal a line) as [a'|]; [|reflexivity].
    apply IH. lia.
  - destruct Hrb as (-> & ->).
    rewrite <- handleLine_addResults.
    now destruct (handleLine Unmarshal a p).
Qed.

(** *** Deleting a malformed line *)

Lemma ReadBytes_complete body rest :
  noNewline body = true ->
  ReadBytes ((body ++ String newline "") ++ rest)
  = (body ++ String newline "", Some rest).
Proof.
  induction body as [|c body IH]; simpl; intros H.
  - reflexivity.
  - apply andb_true_iff in H as [Hc Hb]. apply negb_true_iff in Hc.
    rewrite Hc, (IH Hb). reflexivity.
Qed.

Lemma allLines_complete l rest :
  completeLine l -> allLines (l ++ rest) = l :: allLines rest.
Proof.
  intros (body & Hb & ->). unfold allLines.
  pose proof (ReadBytes_fileLines ((body ++ String newline "") ++ rest)) as H.
  rewrite (ReadBytes_complete body rest Hb) in H.
  destruct H as (-> & _). reflexivity.
Qed.

Lemma allLines_join ls rest :
  Forall completeLine ls ->
  allLines (joinLines ls ++ rest) = (ls ++ allLines rest)%list.
Proof.
  induction 1 as [|l ls Hl _ IH]; simpl; [reflexivity|].
  rewrite append_assoc, (allLines_complete l _ Hl), IH.
  reflexivity.
Qed.

Lemma completeLine_length l : completeLine l -> (0 < String.length l)%nat.
Proof.
  intros (body & _ & ->). rewrite length_append. simpl. lia.
Qed.

(** C10. Loading a result file adds exactly the results of the lines
    that parse: a line that does not parse leaves the aggregator as it
    is, and deleting such a line from the file changes nothing. The error
    [LoadJSONL] returns is the error of opening the file or of reading
    it, whatever the lines hold. *)
Theorem LoadJSONL_skips_malformed_lines opened a :
  has_phases a ->
  match opened with
  | OpenError msg => LoadJSONL Unmarshal opened a = Returns a (Some msg)
  | Opened content readErr =>
      exists a',
        LoadJSONL Unmarshal opened a = Returns a' readErr /\
        addResults a (parsedResults Unmarshal (allLines content)) = Some a'
  end /\
  (forall line,
     Unmarshal line = None -> handleLine Unmarshal a line = Some a) /\
  (forall before bad after readErr,
     Forall completeLine before -> completeLine bad ->
     Unmarshal bad = None ->
     LoadJSONL Unmarshal
               (Opened (joinLines before ++ bad ++ after) readErr) a
     = LoadJSONL Unmarshal (Opened (joinLines before ++ after) readErr) a).
Proof.
  intros Ha. split; [|split].
  - destruct opened as [msg|content readErr]; [reflexivity|].
    destruct (addResults_has_phases
                (parsedResults Unmarshal (allLines content)) a Ha)
      as (a' & Hadd & _).
    exists a'. split; [|exact Hadd].
    unfold LoadJSONL. rewrite readLoop_spec by lia. now rewrite Hadd.
  - intros line. apply handleLine_malformed.
  - intros before bad after readErr Hb Hbad Hnone.
    unfold LoadJSONL. rewrite !readLoop_spec by lia.
    rewrite !allLines_join by assumption.
    rewrite (allLines_complete bad after Hbad).
    change (bad :: allLines after) with ([bad] ++ allLines after)%list.
    rewrite !parsedResults_app.
    assert (parsedResults Unmarshal [bad] = []) as ->; [|reflexivity].
    unfold parsedResults. simpl. rewrite Hnone. now destruct (decide _).
Qed.

End Loading.

Lemma garbled_results :
  parsedResults json.Unmarshal (allLines inputs.garbled)
  = [doRequest inputs.fresh200; doRequest inputs.refused].
Proof. vm_compute. reflexivity. Qed.

(** The middle line of the garbled file is skipped: the two results
    around it are counted, and no error is returned. *)
Lemma LoadJSONL_skips_malformed_lines_witness :
  has_phases New /\
  exists a',
    LoadJSONL json.Unmarshal (Opened inputs.garbled None) New
    = Returns a' None /\
    addResults New [doRequest inputs.fresh200; doRequest inputs.refused]
    = Some a'.
Proof.
  split; [exact has_phases_New|].
  destruct (LoadJSONL_skips_malformed_lines json.Unmarshal
              (Opened inputs.garbled None) New has_phases_New)
    as [(a' & Hload & Hadd) _].
  exists a'. split; [exact Hload|].
  rewrite garbled_results in Hadd. exact Hadd.
Defined.

End LoaderFacts.


(** ** The lines of the result file *)
Module JsonFacts.

Import Go attack json GoFacts.
Local Open Scope Z_scope.

(** *** Literals and tokens *)

Lemma strip_app lit rest : strip lit (lit ++ rest) = Some rest.
Proof.
  induction lit as [|a l IH]; [reflexivity|].
  simpl. now rewrite Ascii.eqb_refl.
Qed.

(** A string on which a span ends: it is empty or starts with a
    character outside the class. *)
Definition stops (p : ascii -> bool) (s : string) : Prop :=
  match s with
  | EmptyString => True
  | String c _ => p c = false
  end.

Fixpoint all (p : ascii -> bool) (s : string) : bool :=
  match s with
  | EmptyString => true
  | String c t => p c && all p t
  end.

Lemma span_app p tok rest :
  all p tok = true -> stops p rest -> span p (tok ++ rest) = (tok, rest).
Proof.
  intros Htok Hrest. induction tok as [|c tok IH].
  - change ("" ++ rest) with rest.
    destruct rest as [|c rest]; [reflexivity|].
    simpl in Hrest. cbn [span]. now rewrite Hrest.
  - change (String c tok ++ rest) with (String c (tok ++ rest)).
    cbn [all] in Htok. apply andb_true_iff in Htok as [Hc Htok].
    cbn [span]. now rewrite Hc, (IH Htok).
Qed.

Lemma all_app p a b : all p (a ++ b) = all p a && all p b.
Proof.
  induction a as [|c a IH]; [reflexivity|].
  simpl. now rewrite IH, andb_assoc.
Qed.

(** *** Integers *)

Lemma digits_are_digits d : all isDigit (NilEmpty.string_of_uint d) = true.
Proof. induction d; simpl; auto. Qed.

Lemma formatInt_chars z : all isNumChar (formatInt z) = true.
Proof.
  assert (Hd : forall d, all isNumChar (NilEmpty.string_of_uint d) = true).
  { induction d; simpl; auto. }
  assert (Hz : forall d, all isNumChar (NilZero.string_of_uint d) = true).
  { intros d. destruct d; try apply Hd. reflexivity. }
  unfold formatInt. destruct z; cbn [Z.to_int NilZero.string_of_int].
  - reflexivity.
  - apply Hz.
  - cbn [all]. now rewrite Hz.
Qed.

Lemma int_of_formatInt z :
  NilZero.int_of_string (formatInt z) = Some (Z.to_int z).
Proof.
  unfold formatInt. apply NilZero.isi.
  - destruct z; cbn [Z.to_int]; try discriminate.
    intros [= H]. now apply Unsigned.to_uint_nonnil in H.
  - destruct z; cbn [Z.to_int]; try discriminate.
    intros [= H]. now apply Unsigned.to_uint_nonnil in H.
Qed.

Lemma parseInt_formatInt z rest :
  in_int64 z -> stops isNumChar rest ->
  parseInt (formatInt z ++ rest) = Some (z, rest).
Proof.
  intros Hz Hrest. unfold parseInt.
  rewrite (span_app _ _ _ (formatInt_chars z) Hrest), int_of_formatInt.
  rewrite DecimalZ.of_to.
  destruct (decide (formatInt z = formatInt z)); [|contradiction].
  destruct (decide (int64_min <= z /\ z <= int64_max)) as [|Hn];
    [reflexivity|].
  now destruct Hn.
Qed.

Lemma member_formatInt prefix z rest :
  in_int64 z -> stops isNumChar rest ->
  member prefix (prefix ++ formatInt z ++ rest) = Some (z, rest).
Proof.
  intros Hz Hrest. unfold member.
  now rewrite strip_app, parseInt_formatInt.
Qed.

(** *** Fields of fixed width *)

Lemma digit_char d :
  0 <= d < 10 ->
  isDigit (char (48 + d)) = true /\ byte (char (48 + d)) - 48 = d.
Proof.
  intros H.
  assert (d = 0 \/ d = 1 \/ d = 2 \/ d = 3 \/ d = 4 \/ d = 5 \/ d = 6 \/
          d = 7 \/ d = 8 \/ d = 9) as Hd by lia.
  destruct Hd as [->|[->|[->|[->|[->|[->|[->|[->|[->| ->]]]]]]]]];
    split; reflexivity.
Qed.

Lemma fixedWidth_app w x tail rest :
  fixedWidth w x tail ++ rest = fixedWidth w x (tail ++ rest).
Proof.
  revert x tail. induction w as [|w IH]; intros x tail; [reflexivity|].
  cbn [fixedWidth]. now rewrite IH.
Qed.

Lemma parseDigits_fixedWidth w : forall j acc x tail,
  parseDigits (w + j) acc (fixedWidth w x tail)
  = parseDigits j (acc * 10 ^ Z.of_nat w + x mod 10 ^ Z.of_nat w) tail.
Proof.
  induction w as [|w IH]; intros j acc x tail.
  - cbn [fixedWidth Nat.add]. f_equal. rewrite Z.mod_1_r. simpl. lia.
  - cbn [fixedWidth]. replace (S w + j)%nat with (w + S j)%nat by lia.
    rewrite IH. cbn [parseDigits].
    destruct (digit_char (x mod 10)) as [-> ->];
      [apply Z.mod_pos_bound; lia|].
    f_equal. rewrite Nat2Z.inj_succ, Z.pow_succ_r by lia.
    rewrite (Z.rem_mul_r x 10 (10 ^ Z.of_nat w)) by lia. lia.
Qed.

Lemma appendInt_small x w :
  0 <= x < 10 ^ Z.of_nat w -> appendInt x w = fixedWidth w x "".
Proof.
  intros H. unfold appendInt.
  replace (0 <=? x) with true by (symmetry; apply Z.leb_le; lia).
  replace (x <? 10 ^ Z.of_nat w) with true by (symmetry; apply Z.ltb_lt; lia).
  reflexivity.
Qed.

Lemma parseDigits_appendInt w x rest :
  0 <= x < 10 ^ Z.of_nat w ->
  parseDigits w 0 (appendInt x w ++ rest) = Some (x, rest).
Proof.
  intros H. rewrite (appendInt_small x w H), fixedWidth_app.
  replace w with (w + 0)%nat at 1 by lia.
  rewrite parseDigits_fixedWidth. cbn [parseDigits].
  change ("" ++ rest) with rest.
  rewrite Z.mod_small by lia.
  now replace (0 * 10 ^ Z.of_nat w + x) with x by lia.
Qed.

Lemma field_appendInt w sep x rest :
  0 <= x < 10 ^ Z.of_nat w ->
  field w sep (appendInt x w ++ sep ++ rest) = Some (x, rest).
Proof.
  intros H. unfold field.
  now rewrite (parseDigits_appendInt w x _ H), strip_app.
Qed.

(** *** The fraction of a second *)

Lemma fixedWidth_digits w x tail :
  all isDigit (fixedWidth w x tail) = all isDigit tail.
Proof.
  revert x tail. induction w as [|w IH]; intros x tail; [reflexivity|].
  cbn [fixedWidth]. rewrite IH. cbn [all].
  destruct (digit_char (x mod 10)) as [-> _];
    [apply Z.mod_pos_bound; lia | reflexivity].
Qed.

Lemma fixedWidth_length w x tail :
  String.length (fixedWidth w x tail) = (w + String.length tail)%nat.
Proof.
  revert x tail. induction w as [|w IH]; intros x tail; [reflexivity|].
  cbn [fixedWidth]. rewrite IH. simpl. lia.
Qed.

Lemma zeros_app j k : zeros j ++ zeros k = zeros (j + k).
Proof.
  induction j as [|j IH]; [reflexivity|].
  change (String "0" (zeros j ++ zeros k) = String "0" (zeros (j + k))).
  now rewrite IH.
Qed.

Lemma zeros_length j : String.length (zeros j) = j.
Proof. induction j as [|j IH]; simpl; [reflexivity | now rewrite IH]. Qed.

Lemma trimZeros_split f :
  exists j, f = trimZeros f ++ zeros j.
Proof.
  induction f as [|c f [j Hj]]; [now exists 0%nat|].
  cbn [trimZeros]. destruct (trimZeros f) as [|d t] eqn:Et.
  - destruct (Ascii.eqb_spec c "0") as [->|Hc].
    + exists (S j). simpl in *. now rewrite Hj at 1.
    + exists j. simpl in *. now rewrite Hj at 1.
  - exists j. rewrite Hj at 1. reflexivity.
Qed.

Lemma trimZeros_digits f : all isDigit f = true -> all isDigit (trimZeros f) = true.
Proof.
  intros H. destruct (trimZeros_split f) as [j Hj].
  rewrite Hj, all_app in H. now apply andb_true_iff in H as [H _].
Qed.

Lemma parseDigits_zeros w : parseDigits w 0 (zeros w) = Some (0, "").
Proof.
  induction w as [|w IH]; [reflexivity|].
  cbn [zeros parseDigits]. exact IH.
Qed.

(** What follows the seconds of a timestamp when the fraction is over:
    the zone, which starts with a character that is neither a digit nor
    a dot. *)
Definition zoneStart (s : string) : Prop :=
  match s with
  | EmptyString => False
  | String c _ => isDigit c = false /\ Ascii.eqb c "." = false
  end.

Lemma parseNano_appendNano x rest :
  0 <= x < 1000000000 -> zoneStart rest ->
  parseNano (appendNano x ++ rest) = Some (x, rest).
Proof.
  intros Hx Hrest. unfold appendNano.
  destruct (Z.eqb_spec x 0) as [->|Hnz].
  - change ("" ++ rest) with rest. destruct rest as [|c rest]; [contradiction|].
    destruct Hrest as [_ Hdot]. unfold parseNano. now rewrite Hdot.
  - rewrite (appendInt_small x 9) by (simpl; lia).
    set (f := fixedWidth 9 x "").
    assert (Hf : all isDigit f = true) by (unfold f; now rewrite fixedWidth_digits).
    assert (Hlen : String.length f = 9%nat)
      by (unfold f; rewrite fixedWidth_length; reflexivity).
    assert (Hval : forall tail, parseDigits 9 0 (f ++ tail) = Some (x, tail)).
    { intros tail. unfold f. rewrite <- (appendInt_small x 9) by (simpl; lia).
      apply parseDigits_appendInt. simpl. lia. }
    destruct (trimZeros_split f) as [j Hj].
    assert (Hj9 : (String.length (trimZeros f) + j = 9)%nat).
    { pose proof (f_equal String.length Hj) as Hl.
      rewrite length_append, zeros_length in Hl. lia. }
    change (String "." (trimZeros f) ++ rest)
      with (String "."%char (trimZeros f ++ rest)).
    unfold parseNano. cbn [Ascii.eqb Bool.eqb]. simpl (Ascii.eqb _ _).
    rewrite (span_app isDigit (trimZeros f) rest (trimZeros_digits f Hf)).
    2:{ destruct rest as [|c rest]; [exact I | now destruct Hrest]. }
    destruct (trimZeros f) as [|d t] eqn:Et.
    + exfalso. simpl in Hj, Hj9. subst j.
      specialize (Hval ""). rewrite append_nil_r, Hj in Hval.
      rewrite parseDigits_zeros in Hval. congruence.
    + rewrite <- Et.
      replace (trimZeros f ++ zeros 9) with (f ++ zeros (9 - j)).
      * now rewrite Hval.
      * rewrite Hj at 1. rewrite append_assoc, zeros_app, Et.
        simpl in Hj9. do 2 f_equal. lia.
Qed.

(** *** The zone *)

Lemma formatZone_start off rest : zoneStart (formatZone off ++ rest).
Proof.
  unfold formatZone. destruct (off =? 0); [now split|].
  destruct (off ÷ 60 <? 0); now split.
Qed.

Lemma parseZone_formatZone off rest :
  -86400 < off < 86400 -> off mod 60 = 0 ->
  parseZone (formatZone off ++ rest) = Some (off, rest).
Proof.
  intros Hoff Hmod.
  apply Z.mod_divide in Hmod as [k Hk]; [|lia]. subst off.
  unfold formatZone. rewrite Z.quot_mul by lia.
  destruct (Z.eqb_spec (k * 60) 0) as [E|E].
  - now rewrite E.
  - assert (Hh : 0 <= Z.abs k / 60 < 24)
      by (split; [apply Z.div_pos | apply Z.div_lt_upper_bound]; lia).
    assert (Hm : 0 <= Z.abs k mod 60 < 60) by (apply Z.mod_pos_bound; lia).
    pose proof (Z.div_mod (Z.abs k) 60 ltac:(lia)) as Hdm.
    destruct (Z.ltb_spec k 0) as [Hneg|Hpos].
    + change (("-" ++ appendInt (Z.abs k / 60) 2 ++ ":"
               ++ appendInt (Z.abs k mod 60) 2) ++ rest)
        with (String "-"%char
                ((appendInt (Z.abs k / 60) 2 ++ ":"
                  ++ appendInt (Z.abs k mod 60) 2) ++ rest)).
      rewrite !append_assoc. unfold parseZone. simpl (Ascii.eqb _ _).
      cbn [orb].
      rewrite (parseDigits_appendInt 2) by (simpl; lia).
      rewrite strip_app.
      rewrite (parseDigits_appendInt 2) by (simpl; lia).
      replace (Z.abs k / 60 <? 24) with true by (symmetry; apply Z.ltb_lt; lia).
      replace (Z.abs k mod 60 <? 60) with true
        by (symmetry; apply Z.ltb_lt; lia).
      cbn [andb]. do 2 f_equal. lia.
    + change (("+" ++ appendInt (Z.abs k / 60) 2 ++ ":"
               ++ appendInt (Z.abs k mod 60) 2) ++ rest)
        with (String "+"%char
                ((appendInt (Z.abs k / 60) 2 ++ ":"
                  ++ appendInt (Z.abs k mod 60) 2) ++ rest)).
      rewrite !append_assoc. unfold parseZone. simpl (Ascii.eqb _ _).
      cbn [orb].
      rewrite (parseDigits_appendInt 2) by (simpl; lia).
      rewrite strip_app.
      rewrite (parseDigits_appendInt 2) by (simpl; lia).
      replace (Z.abs k / 60 <? 24) with true by (symmetry; apply Z.ltb_lt; lia).
      replace (Z.abs k mod 60 <? 60) with true
        by (symmetry; apply Z.ltb_lt; lia).
      cbn [andb]. do 2 f_equal. lia.
Qed.

(** *** Timestamps *)

Lemma formatTime_valid t :
  validTime t ->
  formatTime t =
  Some (appendInt (year t) 4 ++ "-" ++ appendInt (month t) 2 ++ "-"
        ++ appendInt (day t) 2 ++ "T" ++ appendInt (hour t) 2 ++ ":"
        ++ appendInt (minute t) 2 ++ ":" ++ appendInt (second t) 2
        ++ appendNano (nanosecond t) ++ formatZone (zoneOffset t)).
Proof.
  intros (Hy & _ & _ & _ & _ & _ & _ & Hz & Hm). unfold formatTime.
  replace (0 <=? year t) with true by (symmetry; apply Z.leb_le; lia).
  replace (year t <=? 9999) with true by (symmetry; apply Z.leb_le; lia).
  replace (Z.abs (zoneOffset t ÷ 60) / 60 <? 24) with true; [reflexivity|].
  symmetry. apply Z.ltb_lt.
  apply Z.mod_divide in Hm as [k Hk]; [|lia]. rewrite Hk in *.
  rewrite Z.quot_mul by lia. apply Z.div_lt_upper_bound; lia.
Qed.

Lemma daysIn_le m y : daysIn m y <= 31.
Proof.
  unfold daysIn. destruct (m =? 2); [destruct (isLeap y); lia|].
  destruct ((m =? 4) || (m =? 6) || (m =? 9) || (m =? 11)); lia.
Qed.

Lemma parseTime_formatTime t ts rest :
  validTime t -> formatTime t = Some ts ->
  parseTime (ts ++ rest) = Some (t, rest).
Proof.
  intros Hv Hts. rewrite (formatTime_valid t Hv) in Hts.
  injection Hts as <-.
  destruct Hv as (Hy & Hmo & Hd & Hh & Hmi & Hs & Hn & Hz & Hzm).
  pose proof (daysIn_le (month t) (year t)) as Hd31.
  rewrite !append_assoc. unfold parseTime.
  rewrite (field_appendInt 4) by (simpl; lia). cbn [mbind option_bind].
  rewrite (field_appendInt 2) by (simpl; lia). cbn [mbind option_bind].
  rewrite (field_appendInt 2) by (simpl; lia). cbn [mbind option_bind].
  rewrite (field_appendInt 2) by (simpl; lia). cbn [mbind option_bind].
  rewrite (field_appendInt 2) by (simpl; lia). cbn [mbind option_bind].
  rewrite (parseDigits_appendInt 2) by (simpl; lia). cbn [mbind option_bind].
  rewrite parseNano_appendNano by (try apply formatZone_start; lia).
  cbn [mbind option_bind].
  rewrite parseZone_formatZone by lia. cbn [mbind option_bind].
  replace (1 <=? month t) with true by (symmetry; apply Z.leb_le; lia).
  replace (month t <=? 12) with true by (symmetry; apply Z.leb_le; lia).
  replace (1 <=? day t) with true by (symmetry; apply Z.leb_le; lia).
  replace (day t <=? daysIn (month t) (year t)) with true
    by (symmetry; apply Z.leb_le; lia).
  replace (hour t <? 24) with true by (symmetry; apply Z.ltb_lt; lia).
  replace (minute t <? 60) with true by (symmetry; apply Z.ltb_lt; lia).
  replace (second t <? 60) with true by (symmetry; apply Z.ltb_lt; lia).
  cbn [andb]. now destruct t.
Qed.

(** *** Strings *)

Lemma parseBody_escapeAscii c rest :
  (byte c <? 128) = true ->
  parseBody 0 0 (escapeAscii c ++ rest)
  = prepend (String c "") (parseBody 0 0 rest).
Proof.
  destruct c as [[] [] [] [] [] [] [] []]; intros H;
    try discriminate H; reflexivity.
Qed.

Lemma parseBody_escapeFrom s rest :
  isAscii s = true ->
  parseBody 0 0 (escapeFrom 0 0 s ++ String quote rest) = Some (s, rest).
Proof.
  induction s as [|c s IH]; intros H.
  - reflexivity.
  - cbn [isAscii] in H. apply andb_true_iff in H as [Hc Hs].
    cbn [escapeFrom]. rewrite Hc, append_assoc.
    rewrite (parseBody_escapeAscii c _ Hc), (IH Hs). reflexivity.
Qed.

Lemma parseString_encodeString s rest :
  isAscii s = true -> parseString (encodeString s ++ rest) = Some (s, rest).
Proof.
  intros H. unfold encodeString.
  change (String quote (escapeFrom 0 0 s ++ String quote "") ++ rest)
    with (String quote ((escapeFrom 0 0 s ++ String quote "") ++ rest)).
  rewrite append_assoc. unfold parseString. rewrite Ascii.eqb_refl.
  now apply parseBody_escapeFrom.
Qed.

Lemma optionalString_omitempty name v rest :
  isAscii v = true -> strip ("," ++ key name) rest = None ->
  optionalString name (omitempty name v ++ rest) = Some (v, rest).
Proof.
  intros Hv Hrest. unfold omitempty, optionalString.
  destruct (decide (v = "")) as [->|Hne].
  - change ("" ++ rest) with rest. now rewrite Hrest.
  - replace (("," ++ key name ++ encodeString v) ++ rest)
      with (("," ++ key name) ++ encodeString v ++ rest)
      by now rewrite !append_assoc.
    rewrite strip_app. now apply parseString_encodeString.
Qed.

(** *** A whole line *)

Lemma stops_after_int e f rest :
  stops isNumChar
    (omitempty "error" e ++ omitempty "fail_phase" f ++ "," ++ rest).
Proof.
  unfold omitempty. destruct (decide (e = "")), (decide (f = "")); reflexivity.
Qed.

Lemma error_absent f rest :
  strip ("," ++ key "error")
        (omitempty "fail_phase" f ++ "," ++ key "reused" ++ rest) = None.
Proof. unfold omitempty. destruct (decide (f = "")); reflexivity. Qed.

Lemma fail_phase_absent rest :
  strip ("," ++ key "fail_phase") ("," ++ key "reused" ++ rest) = None.
Proof. reflexivity. Qed.

Lemma parseBool_formatBool b rest :
  parseBool (formatBool b ++ rest) = Some (b, rest).
Proof. destruct b; reflexivity. Qed.

Lemma parsePhases_encodePhases p rest :
  in_int64 (DNS p) -> in_int64 (Connect p) -> in_int64 (TLS p) ->
  in_int64 (TTFB p) -> in_int64 (Total p) ->
  parsePhases (encodePhases p ++ rest) = Some (p, rest).
Proof.
  intros H1 H2 H3 H4 H5. unfold encodePhases, parsePhases.
  rewrite !append_assoc.
  change ("{" ++ key "dns" ++ ?x) with (("{" ++ key "dns") ++ x).
  rewrite member_formatInt by (assumption || reflexivity).
  cbn [mbind option_bind].
  change ("," ++ key "connect" ++ ?x) with (("," ++ key "connect") ++ x).
  rewrite member_formatInt by (assumption || reflexivity).
  cbn [mbind option_bind].
  change ("," ++ key "tls" ++ ?x) with (("," ++ key "tls") ++ x).
  rewrite member_formatInt by (assumption || reflexivity).
  cbn [mbind option_bind].
  change ("," ++ key "ttfb" ++ ?x) with (("," ++ key "ttfb") ++ x).
  rewrite member_formatInt by (assumption || reflexivity).
  cbn [mbind option_bind].
  change ("," ++ key "total" ++ ?x) with (("," ++ key "total") ++ x).
  rewrite member_formatInt by (assumption || reflexivity).
  cbn [mbind option_bind]. rewrite strip_app. cbn [mbind option_bind].
  now destruct p.
Qed.

(** Text that is not UTF-8 does not come back: a result whose error text
    is the byte 0xFF is written with the escape of U+FFFD in its place,
    and read back with the three bytes of U+FFFD as its error text. The
    tracer never produces such a text. *)
Lemma Encode_replaces_invalid_text :
  exists line r',
    Encode inputs.badText = Some line /\
    Unmarshal line = Some r' /\
    Error r' = replacement /\
    r' <> inputs.badText.
Proof.
  eexists. eexists. split; [vm_compute; reflexivity|].
  split; [vm_compute; reflexivity|]. split; [reflexivity|].
  intros H. discriminate (f_equal Error H).
Qed.

(** A well-formed result is written as one line, and the line reads back
    as the result. *)
Lemma line_reads_back r :
  wellFormed r ->
  exists line, Encode r = Some line /\ Unmarshal line = Some r.
Proof.
  intros (Hv & Hc & He & Hf & H1 & H2 & H3 & H4 & H5).
  unfold Encode.
  destruct (formatTime (Timestamp r)) as [ts|] eqn:Ets;
    [|rewrite (formatTime_valid _ Hv) in Ets; discriminate].
  eexists. split; [reflexivity|].
  unfold Unmarshal.
  change ("{" ++ key "ts" ++ String quote (ts ++ ?x))
    with (("{" ++ key "ts" ++ String quote "") ++ ts ++ x).
  rewrite strip_app. cbn [mbind option_bind].
  rewrite (parseTime_formatTime _ _ _ Hv Ets). cbn [mbind option_bind].
  change (String quote ("," ++ key "code" ++ formatInt (Code r) ++ ?x))
    with (String quote ("," ++ key "code") ++ formatInt (Code r) ++ x).
  rewrite member_formatInt by (assumption || apply stops_after_int).
  cbn [mbind option_bind].
  rewrite optionalString_omitempty by (assumption || apply error_absent).
  cbn [mbind option_bind].
  rewrite optionalString_omitempty
    by (assumption || apply fail_phase_absent).
  cbn [mbind option_bind].
  change ("," ++ key "reused" ++ formatBool (Reused r) ++ ?x)
    with (("," ++ key "reused") ++ formatBool (Reused r) ++ x).
  rewrite strip_app. cbn [mbind option_bind].
  rewrite parseBool_formatBool. cbn [mbind option_bind].
  change ("," ++ key "phases" ++ encodePhases (Phases r) ++ ?x)
    with (("," ++ key "phases") ++ encodePhases (Phases r) ++ x).
  rewrite strip_app. cbn [mbind option_bind].
  rewrite parsePhases_encodePhases by assumption.
  cbn [mbind option_bind].
  rewrite strip_app. cbn [mbind option_bind].
  destruct (decide (String newline "" = String newline "" \/
                    String newline "" = "")) as [_|Hn];
    [now destruct r | exfalso; apply Hn; now left].
Qed.

(** Field by field: a result whose timestamp names a date and a time of
    day (year 0 to 9999, zone offset of whole minutes), whose integers
    are Go integers and whose error and failing-phase texts are ASCII is
    written as one line, and reading that line back gives a result with
    the same timestamp, code, error, failing phase, reuse flag and five
    phase durations. *)
Theorem Unmarshal_Encode r :
  wellFormed r ->
  exists line r',
    Encode r = Some line /\ Unmarshal line = Some r' /\
    Timestamp r' = Timestamp r /\ Code r' = Code r /\
    Error r' = Error r /\ FailPhase r' = FailPhase r /\
    Reused r' = Reused r /\
    DNS (Phases r') = DNS (Phases r) /\
    Connect (Phases r') = Connect (Phases r) /\
    TLS (Phases r') = TLS (Phases r) /\
    TTFB (Phases r') = TTFB (Phases r) /\
    Total (Phases r') = Total (Phases r).
Proof.
  intros Hr. destruct (line_reads_back r Hr) as (line & Henc & Hdec).
  exists line, r. split; [exact Henc|]. split; [exact Hdec|].
  repeat split.
Qed.

(** *** The results the tracer writes *)

Lemma tags_are_ascii tag : In tag tags -> isAscii tag = true.
Proof.
  unfold tags. simpl.
  intros [<-|[<-|[<-|[<-|[<-|[<-|[]]]]]]]; reflexivity.
Qed.

Lemma doRequest_wellFormed x :
  validTime (start x) -> monotonic_clock x -> elapsed x <= int64_max ->
  (forall resp, outcome x = inr resp -> in_int64 (StatusCode resp)) ->
  wellFormed (doRequest x).
Proof.
  intros Hv Hclock Hmax Hcode.
  pose proof (TracerFacts.doRequest_phases_in_int64 x Hclock Hmax) as Hp.
  unfold wellFormed. split; [|split; [|split; [|split]]]; try exact Hp.
  - unfold doRequest. now destruct (outcome x).
  - unfold doRequest. destruct (outcome x) as [err|resp] eqn:E; simpl.
    + unfold in_int64, int64_min, int64_max. lia.
    + now apply Hcode.
  - unfold doRequest. destruct (outcome x) as [err|resp]; simpl;
      [apply tags_are_ascii, TracerFacts.classifyError_in_tags | reflexivity].
  - unfold doRequest. destruct (outcome x) as [err|resp]; simpl;
      [apply tags_are_ascii, TracerFacts.classifyError_in_tags | reflexivity].
Qed.


(** X3. Every result of the tracer is written as a line that reads back as
    the same result. *)
Lemma doRequest_round_trip x :
  validTime (start x) -> monotonic_clock x -> elapsed x <= int64_max ->
  (forall resp, outcome x = inr resp -> in_int64 (StatusCode resp)) ->
  exists line,
    Encode (doRequest x) = Some line /\
    Unmarshal line = Some (doRequest x).
Proof.
  intros Hv Hclock Hmax Hcode.
  apply line_reads_back. now apply doRequest_wellFormed.
Qed.

Lemma refused_wellFormed : wellFormed (doRequest inputs.refused).
Proof.
  unfold wellFormed, validTime, in_int64, int64_min, int64_max.
  cbn. repeat split; lia.
Defined.

Lemma Unmarshal_Encode_witness :
  wellFormed (doRequest inputs.refused) /\
  exists line r',
    Encode (doRequest inputs.refused) = Some line /\
    Unmarshal line = Some r' /\
    Error r' = "connect" /\ FailPhase r' = "connect" /\
    Total (Phases r') = 310000.
Proof.
  split; [exact refused_wellFormed|].
  destruct (Unmarshal_Encode (doRequest inputs.refused) refused_wellFormed)
    as (line & r' & Henc & Hdec & _ & _ & He & Hf & _ & _ & _ & _ & _ & Ht).
  exists line, r'. repeat split; assumption.
Defined.

Lemma refused_clock : monotonic_clock inputs.refused.
Proof. unfold monotonic_clock; cbn; unfold int64_max; lia. Defined.

Lemma noon_valid : validTime (start inputs.refused).
Proof. unfold validTime. cbn. repeat split; lia. Defined.

Lemma doRequest_round_trip_witness :
  exists line,
    Encode (doRequest inputs.refused) = Some line /\
    Unmarshal line = Some (doRequest inputs.refused).
Proof.
  apply (doRequest_round_trip inputs.refused noon_valid refused_clock).
  - unfold int64_max; cbn; lia.
  - intros resp H. discriminate H.
Defined.

End JsonFacts.



(** ** What the hooks record *)
Module HookFacts.

Import Go attack hooks GoFacts TracerFacts.

Lemma bounded_weaken t T p : bounded t p -> t <= T -> bounded T p.
Proof. unfold bounded. lia. Qed.

Lemma hooks_bounded_by T evs c prev :
  bounded prev (phases c) -> prev <= T ->
  readings_from prev evs -> Forall (fun ev => snd ev <= T) evs ->
  bounded T (phases (fold_left hook evs c)).
Proof.
  revert c prev. induction evs as [|[e t] evs IH]; intros c prev Hb Hp Hr Hall.
  - now apply bounded_weaken with (t := prev).
  - simpl in Hr. destruct Hr as [Ht Hr].
    apply Forall_cons in Hall as [Hle Hall]. simpl in Hle. simpl.
    apply IH with (prev := t); try assumption.
    now apply hook_bounded with (prev := prev).
Qed.

(** X5. With a monotonic clock whose readings during the call do not
    exceed the reading taken after it, no phase is longer than the
    total, and the total is that last reading. *)
Theorem doRequest_phases_le_total x :
  monotonic_clock x ->
  Forall (fun ev => snd ev <= elapsed x) (fired x) ->
  let p := Phases (doRequest x) in
  Total p = elapsed x /\
  DNS p <= Total p /\ Connect p <= Total p /\ TLS p <= Total p /\
  TTFB p <= Total p.
Proof.
  intros [Hr He] Hall p. subst p. rewrite doRequest_Phases.
  destruct (hooks_bounded_by (elapsed x) (fired x)
              (mkCaptured zeroPhases false) 0)
    as (Hd & Hc & Hl & Hf); try assumption.
  { unfold bounded. simpl. lia. }
  unfold runHooks. simpl. lia.
Qed.

Lemma fresh200_clock : monotonic_clock inputs.fresh200.
Proof. unfold monotonic_clock; cbn; unfold int64_max; lia. Defined.

Lemma fresh200_readings :
  Forall (fun ev => snd ev <= elapsed inputs.fresh200)
         (fired inputs.fresh200).
Proof. unfold inputs.fresh200. simpl. repeat constructor; simpl; lia. Defined.

Lemma doRequest_phases_le_total_witness :
  TTFB (Phases (doRequest inputs.fresh200))
  <= Total (Phases (doRequest inputs.fresh200)).
Proof.
  exact (proj2 (proj2 (proj2 (proj2
           (doRequest_phases_le_total inputs.fresh200
              fresh200_clock fresh200_readings))))).
Defined.

(** *** Start and done hooks *)

Lemma hook_start c ph t :
  phase ph (phases (hook c (startHook ph, t))) = t.
Proof. now destruct ph. Qed.

Lemma hook_done c ph e t :
  doneHook ph = Some e ->
  phase ph (phases (hook c (e, t))) = sub64 t (phase ph (phases c)).
Proof. destruct ph; simpl; intros H; inversion H; reflexivity. Qed.

Lemma fold_quiet ph evs c :
  quiet ph evs ->
  phase ph (phases (fold_left hook evs c)) = phase ph (phases c).
Proof. apply hooks_other. Qed.

Lemma doRequest_phase ph x :
  phase ph (Phases (doRequest x)) = phase ph (phases (runHooks (fired x))).
Proof. now rewrite doRequest_Phases, phase_setTotal. Qed.

(** X6. A phase opened by its start hook at [t1] and closed by its done
    hook at [t2], with no other hook of that phase in between or after,
    is recorded as the difference [t2 - t1], whatever fired before. *)
Theorem doRequest_phase_is_difference x ph e pre t1 mid t2 post :
  doneHook ph = Some e ->
  fired x = (pre ++ (startHook ph, t1) :: mid ++ (e, t2) :: post)%list ->
  quiet ph mid -> quiet ph post ->
  0 <= t1 <= t2 -> t2 <= int64_max ->
  phase ph (Phases (doRequest x)) = t2 - t1.
Proof.
  intros He Hf Hmid Hpost Ht Hmax.
  rewrite doRequest_phase. unfold runHooks. rewrite Hf.
  rewrite fold_left_app. cbn [fold_left]. rewrite fold_left_app.
  cbn [fold_left].
  rewrite (fold_quiet ph post) by exact Hpost.
  rewrite (hook_done _ ph e t2 He).
  rewrite (fold_quiet ph mid) by exact Hmid.
  rewrite hook_start. now apply sub64_exact.
Qed.

Lemma doRequest_phase_is_difference_witness :
  DNS (Phases (doRequest inputs.fresh200)) = 1200000 - 10000.
Proof.
  apply (doRequest_phase_is_difference inputs.fresh200 PhDNS DNSDone
           [] 10000 [] 1200000
           [(ConnectStart, 1250000); (ConnectDone false, 2250000);
            (TLSHandshakeStart, 2300000); (TLSHandshakeDone, 4300000);
            (GotConn false, 4310000); (GotFirstResponseByte, 5300000)]);
    try reflexivity; unfold int64_max; lia.
Defined.

Lemma reused_hook_other c ev :
  setsReused (fst ev) = false -> reused (hook c ev) = reused c.
Proof.
  destruct ev as [e t]. destruct e as [r| | | |failed| | |]; simpl;
    try discriminate; try reflexivity. now destruct failed.
Qed.

Lemma fold_sameConn evs c :
  sameConn evs -> reused (fold_left hook evs c) = reused c.
Proof.
  unfold sameConn. revert c.
  induction evs as [|ev evs IH]; intros c H; [reflexivity|].
  simpl in H. apply orb_false_iff in H as [H1 H2].
  simpl. rewrite IH by assumption. now apply reused_hook_other.
Qed.

Lemma doRequest_Reused x : Reused (doRequest x) = reused (runHooks (fired x)).
Proof. unfold doRequest. now destruct (outcome x). Qed.

(** X7. The last hook wins. A dial that fails leaves the offset of its
    start as the connect phase; the time to first byte is the reading of
    the last first-byte hook, an offset from the start of the request;
    the reuse flag is the one of the last connection obtained, and
    [false] when none was. *)
Theorem doRequest_last_hook_wins x :
  (forall pre t1 mid t2 post,
     fired x = (pre ++ (ConnectStart, t1) :: mid
                    ++ (ConnectDone true, t2) :: post)%list ->
     quiet PhConnect mid -> quiet PhConnect post ->
     Connect (Phases (doRequest x)) = t1) /\
  (forall pre t post,
     fired x = (pre ++ (GotFirstResponseByte, t) :: post)%list ->
     quiet PhTTFB post -> TTFB (Phases (doRequest x)) = t) /\
  (forall pre b t post,
     fired x = (pre ++ (GotConn b, t) :: post)%list ->
     sameConn post -> Reused (doRequest x) = b) /\
  (sameConn (fired x) -> Reused (doRequest x) = false).
Proof.
  split; [|split; [|split]].
  - intros pre t1 mid t2 post Hf Hmid Hpost.
    change (phase PhConnect (Phases (doRequest x)) = t1).
    rewrite doRequest_phase. unfold runHooks. rewrite Hf.
    rewrite fold_left_app. cbn [fold_left]. rewrite fold_left_app.
  cbn [fold_left].
    rewrite (fold_quiet PhConnect post) by exact Hpost.
    change (hook ?c (ConnectDone true, t2)) with c.
    rewrite (fold_quiet PhConnect mid) by exact Hmid.
    apply (hook_start _ PhConnect).
  - intros pre t post Hf Hpost.
    change (phase PhTTFB (Phases (doRequest x)) = t).
    rewrite doRequest_phase. unfold runHooks. rewrite Hf.
    rewrite fold_left_app. cbn [fold_left].
    rewrite (fold_quiet PhTTFB post) by exact Hpost.
    apply (hook_start _ PhTTFB).
  - intros pre b t post Hf Hpost.
    rewrite doRequest_Reused. unfold runHooks. rewrite Hf.
    rewrite fold_left_app. cbn [fold_left].
    now rewrite fold_sameConn by exact Hpost.
  - intros Hq. rewrite doRequest_Reused. unfold runHooks.
    now rewrite fold_sameConn by exact Hq.
Qed.

(** *** The classifier *)

Lemma Contains_trans s a b :
  Contains s a = true -> Contains a b = true -> Contains s b = true.
Proof.
  rewrite !Contains_app. intros (p & q & ->) (p' & q' & ->).
  exists (p ++ p'), (q' ++ q). now rewrite !append_assoc.
Qed.

(** X8. The test for a refused connection is subsumed by the test for
    [connect] that follows it in the same case: an error is classified
    [connect] exactly when it is no timeout, does not mention
    [no such host], and mentions [connect] anywhere in its text. *)
Theorem classifyError_connect_iff err :
  (Contains (Go.Error err) "connection refused" = true ->
   Contains (Go.Error err) "connect" = true) /\
  (classifyError err = "connect" <->
   IsTimeout err = false /\
   Contains (Go.Error err) "no such host" = false /\
   Contains (Go.Error err) "connect" = true).
Proof.
  assert (Hsub : Contains (Go.Error err) "connection refused" = true ->
                 Contains (Go.Error err) "connect" = true).
  { intros H. now apply Contains_trans with (a := "connection refused"). }
  split; [exact Hsub|].
  unfold classifyError.
  destruct (IsTimeout err); [split; [discriminate | intros (H & _); discriminate]|].
  destruct (Contains (Go.Error err) "no such host");
    [split; [discriminate | intros (_ & H & _); discriminate]|].
  destruct (Contains (Go.Error err) "connection refused") eqn:Er.
  - simpl. rewrite (Hsub eq_refl). tauto.
  - simpl. destruct (Contains (Go.Error err) "connect") eqn:Ec.
    + tauto.
    + split; [|intros (_ & _ & H); discriminate].
      destruct (Contains (Go.Error err) "tls"); [discriminate|].
      destruct (Contains (Go.Error err) "EOF" || Contains (Go.Error err) "read");
        discriminate.
Qed.

End HookFacts.


(** ** The breakdowns of the live collector *)
Module TallyFacts.

Import Go attack tally GoFacts CollectorFacts.

Lemma Add_failMap s r :
  failMap (Add s r) =
    if decide (Error r <> "")
    then alter (fun v => add64 v 1) (FailPhase r)
               (LoadOrStore (FailPhase r) 0 (failMap s))
    else failMap s.
Proof. unfold Add. now destruct (decide (Error r <> "")). Qed.

Lemma bump_lookup (m : gmap string Z) k :
  alter (fun v => add64 v 1) k (LoadOrStore k 0 m) !! k
  = Some (add64 (default 0 (m !! k)) 1).
Proof.
  rewrite lookup_alter_eq. unfold LoadOrStore.
  destruct (m !! k) as [v|] eqn:E.
  - now rewrite E.
  - now rewrite lookup_insert_eq.
Qed.

Lemma bump_lookup_ne (m : gmap string Z) k k' :
  k <> k' ->
  alter (fun v => add64 v 1) k (LoadOrStore k 0 m) !! k' = m !! k'.
Proof.
  intros Hne. rewrite lookup_alter_ne by exact Hne. unfold LoadOrStore.
  destruct (m !! k); [reflexivity|]. now rewrite lookup_insert_ne.
Qed.

Lemma failedWith_snoc k rs r :
  failedWith k (rs ++ [r]) =
    failedWith k rs
    + (if decide (succeeded r = false /\ FailPhase r = k) then 1 else 0).
Proof.
  unfold failedWith. rewrite filter_app, length_app.
  destruct (decide (succeeded r = false /\ FailPhase r = k)) as [H|H].
  - rewrite filter_cons_True by exact H. simpl. lia.
  - rewrite filter_cons_False by exact H. simpl. lia.
Qed.

Lemma failedWith_nonneg k rs : 0 <= failedWith k rs.
Proof. unfold failedWith. lia. Qed.

Lemma failMap_lookup rs k :
  failMap (addAll rs) !! k =
    if decide (failedWith k rs = 0) then None
    else Some (wrap64 (failedWith k rs)).
Proof.
  induction rs as [|r rs IH] using rev_ind; [reflexivity|].
  rewrite addAll_snoc, Add_failMap, failedWith_snoc.
  pose proof (failedWith_nonneg k rs) as Hn.
  destruct (decide (Error r <> "")) as [He|He].
  - destruct (decide (FailPhase r = k)) as [Hk|Hk].
    + subst k. rewrite bump_lookup, IH.
      destruct (decide (succeeded r = false /\ FailPhase r = FailPhase r))
        as [_|Hx]; [|exfalso; apply Hx; split; [now apply succeeded_false | reflexivity]].
      destruct (decide (failedWith (FailPhase r) rs + 1 = 0)); [lia|].
      f_equal. destruct (decide (failedWith (FailPhase r) rs = 0)) as [E|E].
      * rewrite E. reflexivity.
      * simpl. unfold add64. now rewrite wrap64_add_l.
    + rewrite bump_lookup_ne by exact Hk. rewrite IH.
      destruct (decide (succeeded r = false /\ FailPhase r = k)) as [[_ Hx]|_];
        [contradiction|].
      now rewrite Z.add_0_r.
  - rewrite IH.
    destruct (decide (succeeded r = false /\ FailPhase r = k)) as [[Hx _]|_].
    + apply succeeded_false in Hx. contradiction.
    + now rewrite Z.add_0_r.
Qed.

(** X9. The failure breakdown of the collector has an entry for a tag
    exactly when some failed result carried it as its failing phase, and
    the entry is the number of those results (in 64-bit arithmetic);
    successful results never touch it. *)
Theorem failMap_tallies rs k :
  failMap (addAll rs) !! k =
    (if decide (failedWith k rs = 0) then None
     else Some (wrap64 (failedWith k rs))) /\
  (forall r, Error r = "" -> failMap (Add (addAll rs) r) = failMap (addAll rs)).
Proof.
  split; [apply failMap_lookup|].
  intros r He. rewrite Add_failMap.
  destruct (decide (Error r <> "")); [contradiction | reflexivity].
Qed.

(** *** Status families *)

(** Go's [code / 100] names the family of a positive status. *)
Lemma family_of_code c n :
  in_int64 c -> 0 < n ->
  (c > 0 /\ div64 c 100 = n) <-> 100 * n <= c < 100 * n + 100.
Proof.
  unfold in_int64, int64_min, int64_max. intros Hc Hn.
  destruct (Z_le_gt_dec c 0) as [Hle|Hgt]; [lia|].
  assert (Hq : c ÷ 100 = c / 100) by (apply Z.quot_div_nonneg; lia).
  pose proof (Z.div_mod c 100 ltac:(lia)) as Hdm.
  pose proof (Z.mod_pos_bound c 100 ltac:(lia)) as Hmod.
  unfold div64. rewrite Hq.
  rewrite wrap64_id by (unfold in_int64, int64_min, int64_max; lia).
  lia.
Qed.

Definition bump (r : Result) (family n : Z) : Z :=
  if decide (Code r > 0) then
    if decide (div64 (Code r) 100 = family) then add64 n 1 else n
  else n.

Lemma Add_families s r :
  Error r = "" ->
  twoXX (Add s r) = bump r 2 (twoXX s) /\
  threeXX (Add s r) = bump r 3 (threeXX s) /\
  fourXX (Add s r) = bump r 4 (fourXX s) /\
  fiveXX (Add s r) = bump r 5 (fiveXX s).
Proof.
  intros H. unfold Add. destruct (decide (Error r <> "")); [contradiction|].
  simpl. auto.
Qed.

Lemma Add_families_failed s r :
  Error r <> "" ->
  twoXX (Add s r) = twoXX s /\ threeXX (Add s r) = threeXX s /\
  fourXX (Add s r) = fourXX s /\ fiveXX (Add s r) = fiveXX s.
Proof.
  intros H. unfold Add. destruct (decide (Error r <> "")); [|contradiction].
  simpl. auto.
Qed.

Lemma familyCount_snoc n rs r :
  familyCount n (rs ++ [r]) =
    familyCount n rs + (if decide (inFamily n r) then 1 else 0).
Proof.
  unfold familyCount. rewrite filter_app, length_app.
  destruct (decide (inFamily n r)) as [H|H].
  - rewrite filter_cons_True by exact H. simpl. lia.
  - rewrite filter_cons_False by exact H. simpl. lia.
Qed.

Lemma bump_family r n v c :
  in_int64 (Code r) -> 0 < n -> Error r = "" -> v = wrap64 c ->
  bump r n v = wrap64 (c + (if decide (inFamily n r) then 1 else 0)).
Proof.
  intros Hc Hn He ->. unfold bump, inFamily.
  pose proof (family_of_code (Code r) n Hc Hn) as Hf.
  apply succeeded_true in He.
  destruct (decide (Code r > 0)) as [Hp|Hp].
  - destruct (decide (div64 (Code r) 100 = n)) as [Hd|Hd].
    + destruct (decide (succeeded r = true /\
                        100 * n <= Code r < 100 * n + 100)) as [_|Hx].
      * unfold add64. now rewrite wrap64_add_l.
      * exfalso. apply Hx. split; [exact He | now apply Hf].
    + destruct (decide (succeeded r = true /\
                        100 * n <= Code r < 100 * n + 100)) as [[_ Hx]|_].
      * apply Hf in Hx. tauto.
      * now rewrite Z.add_0_r.
  - destruct (decide (succeeded r = true /\
                      100 * n <= Code r < 100 * n + 100)) as [[_ Hx]|_].
    + apply Hf in Hx. tauto.
    + now rewrite Z.add_0_r.
Qed.

Lemma not_inFamily_failed n r : Error r <> "" -> ~ inFamily n r.
Proof.
  intros He [Hs _]. apply succeeded_true in Hs. contradiction.
Qed.

Lemma families_lookup rs :
  Forall (fun r => in_int64 (Code r)) rs ->
  twoXX (addAll rs) = wrap64 (familyCount 2 rs) /\
  threeXX (addAll rs) = wrap64 (familyCount 3 rs) /\
  fourXX (addAll rs) = wrap64 (familyCount 4 rs) /\
  fiveXX (addAll rs) = wrap64 (familyCount 5 rs).
Proof.
  induction rs as [|r rs IH] using rev_ind; intros Hall.
  - repeat split; reflexivity.
  - apply Forall_app in Hall as [Hrs Hr].
    apply Forall_cons in Hr as [Hr _].
    destruct (IH Hrs) as (H2 & H3 & H4 & H5).
    rewrite addAll_snoc, !familyCount_snoc.
    destruct (decide (Error r = "")) as [He|He].
    + destruct (Add_families (addAll rs) r He) as (-> & -> & -> & ->).
      repeat split; apply bump_family; try assumption; lia.
    + destruct (Add_families_failed (addAll rs) r He) as (-> & -> & -> & ->).
      rewrite !decide_False by (now apply not_inFamily_failed).
      rewrite !Z.add_0_r. auto.
Qed.

Lemma families_le_successes rs :
  familyCount 2 rs + familyCount 3 rs + familyCount 4 rs + familyCount 5 rs
  <= successCount rs.
Proof.
  induction rs as [|r rs IH] using rev_ind; [reflexivity|].
  rewrite !familyCount_snoc.
  destruct (decide (Error r = "")) as [He|He].
  - destruct (counts_snoc_succeeded rs r He) as (-> & _ & _).
    unfold inFamily.
    repeat match goal with
           | |- context [decide ?P] => destruct (decide P)
           end; lia.
  - destruct (counts_snoc_failed rs r He) as (-> & _ & _).
    rewrite !decide_False by (now apply not_inFamily_failed). lia.
Qed.

(** X10. For results whose status codes are Go integers, each family
    counter of the collector is the number of successful results with a
    status of that hundred (200 to 299 for [2xx], and so on, in 64-bit
    arithmetic). The four families together never count more than the
    successes: a success with a status below 200 or above 599 is in
    none of them, and a failed result changes no family. *)
Theorem families_count_successes rs :
  Forall (fun r => in_int64 (Code r)) rs ->
  (twoXX (addAll rs) = wrap64 (familyCount 2 rs) /\
   threeXX (addAll rs) = wrap64 (familyCount 3 rs) /\
   fourXX (addAll rs) = wrap64 (familyCount 4 rs) /\
   fiveXX (addAll rs) = wrap64 (familyCount 5 rs)) /\
  familyCount 2 rs + familyCount 3 rs + familyCount 4 rs + familyCount 5 rs
  <= successCount rs /\
  (forall r, Error r <> "" ->
     twoXX (Add (addAll rs) r) = twoXX (addAll rs) /\
     threeXX (Add (addAll rs) r) = threeXX (addAll rs) /\
     fourXX (Add (addAll rs) r) = fourXX (addAll rs) /\
     fiveXX (Add (addAll rs) r) = fiveXX (addAll rs)).
Proof.
  intros Hall. split; [now apply families_lookup|].
  split; [apply families_le_successes|].
  intros r He. now apply Add_families_failed.
Qed.

Lemma fresh_refused_codes :
  Forall (fun r => in_int64 (Code r))
         [doRequest inputs.fresh200; doRequest inputs.refused].
Proof.
  repeat constructor; unfold in_int64, int64_min, int64_max; simpl; lia.
Defined.

Lemma families_count_successes_witness :
  twoXX (addAll [doRequest inputs.fresh200; doRequest inputs.refused])
  = wrap64
      (familyCount 2 [doRequest inputs.fresh200; doRequest inputs.refused]).
Proof.
  exact (proj1 (proj1 (families_count_successes _ fresh_refused_codes))).
Defined.

End TallyFacts.


(** ** The counters of the offline aggregator *)
Module AggregatorFacts.

Import Go attack stats tally GoFacts LoaderFacts.

(** *** A map of counters along a stream *)

Section Tally.

Context `{Countable K}.
Variable key : Result -> option K.

Lemma incr_lookup (m : gmap K Z) k :
  incr k m !! k = Some (add64 (default 0 (m !! k)) 1).
Proof. unfold incr. now rewrite lookup_insert_eq. Qed.

Lemma incr_lookup_ne (m : gmap K Z) k k' :
  k <> k' -> incr k m !! k' = m !! k'.
Proof. intros Hne. unfold incr. now rewrite lookup_insert_ne. Qed.

Lemma countIf_snoc_True (P : Result -> Prop) `{forall r, Decision (P r)} rs r :
  P r -> countIf P (rs ++ [r]) = countIf P rs + 1.
Proof.
  intros Hp. unfold countIf. rewrite filter_app, length_app.
  rewrite filter_cons_True by exact Hp. simpl. lia.
Qed.

Lemma countIf_snoc_False (P : Result -> Prop) `{forall r, Decision (P r)} rs r :
  ~ P r -> countIf P (rs ++ [r]) = countIf P rs.
Proof.
  intros Hp. unfold countIf. rewrite filter_app, length_app.
  rewrite filter_cons_False by exact Hp. simpl. lia.
Qed.

Lemma countIf_nonneg (P : Result -> Prop) `{forall r, Decision (P r)} rs :
  0 <= countIf P rs.
Proof. unfold countIf. lia. Qed.

Lemma tally_lookup rs k :
  fold_left (bumpBy key) rs ∅ !! k =
    if decide (countIf (fun r => key r = Some k) rs = 0) then None
    else Some (wrap64 (countIf (fun r => key r = Some k) rs)).
Proof.
  induction rs as [|r rs IH] using rev_ind; [reflexivity|].
  rewrite fold_left_app. cbn [fold_left].
  pose proof (countIf_nonneg (fun r => key r = Some k) rs) as Hn.
  unfold bumpBy at 1.
  destruct (decide (key r = Some k)) as [Hk|Hk].
  - rewrite (countIf_snoc_True (fun r => key r = Some k)) by exact Hk.
    rewrite Hk, incr_lookup, IH.
    destruct (decide (countIf (fun r => key r = Some k) rs + 1 = 0)); [lia|].
    f_equal.
    destruct (decide (countIf (fun r => key r = Some k) rs = 0)) as [E|E].
    + rewrite E. reflexivity.
    + simpl. unfold add64. now rewrite wrap64_add_l.
  - rewrite (countIf_snoc_False (fun r => key r = Some k)) by exact Hk.
    destruct (key r) as [k'|] eqn:Ek; [|exact IH].
    rewrite incr_lookup_ne by congruence. exact IH.
Qed.

End Tally.

(** Two keys that agree on every result of a stream give the same map. *)
Lemma tally_ext `{Countable K} (key1 key2 : Result -> option K) rs m :
  Forall (fun r => key1 r = key2 r) rs ->
  fold_left (bumpBy key1) rs m = fold_left (bumpBy key2) rs m.
Proof.
  intros Hall. revert m. induction Hall as [|r rs Hr _ IH]; intros m.
  - reflexivity.
  - simpl. unfold bumpBy at 2 4. rewrite Hr. apply IH.
Qed.

Lemma tally_none `{Countable K} (key : Result -> option K) rs m :
  Forall (fun r => key r = None) rs -> fold_left (bumpBy key) rs m = m.
Proof.
  intros Hall. revert m. induction Hall as [|r rs Hr _ IH]; intros m.
  - reflexivity.
  - simpl. unfold bumpBy at 2. rewrite Hr. apply IH.
Qed.

(** *** One [Add] *)

Lemma update_seen phase d m m' :
  update phase d m = Some m' ->
  forall p, seen m' p =
            if decide (p = phase) then (fun c => add64 c 1) <$> seen m p
            else seen m p.
Proof.
  unfold update, seen. destruct (m !! phase) as [ps|] eqn:E; [|discriminate].
  intros Hm p. inversion Hm; subst m'. clear Hm.
  destruct (decide (p = phase)) as [->|Hne].
  - rewrite lookup_insert_eq, E. reflexivity.
  - now rewrite lookup_insert_ne by congruence.
Qed.

Lemma phase_cases p :
  p ∈ PhaseNames <->
  p = "dns" \/ p = "connect" \/ p = "tls" \/ p = "ttfb" \/ p = "total".
Proof. unfold PhaseNames. rewrite !elem_of_cons, elem_of_nil. tauto. Qed.

Lemma Add_fields a r a' :
  Add a r = Some a' ->
  count a' = add64 (count a) 1 /\
  status a' = bumpBy statusKey (status a) r /\
  statusFamily a' = bumpBy familyOf (statusFamily a) r /\
  errors a' = bumpBy errorKey (errors a) r /\
  failByPhase a' = bumpBy phaseKey (failByPhase a) r /\
  (forall p, seen (stats.stats a') p =
             if decide (p ∈ PhaseNames)
             then (fun c => add64 c 1) <$> seen (stats.stats a) p
             else seen (stats.stats a) p).
Proof.
  unfold Add.
  destruct (update "dns" _ _) as [m1|] eqn:E1; [|discriminate]. simpl.
  destruct (update "connect" _ _) as [m2|] eqn:E2; [|discriminate]. simpl.
  destruct (update "tls" _ _) as [m3|] eqn:E3; [|discriminate]. simpl.
  destruct (update "ttfb" _ _) as [m4|] eqn:E4; [|discriminate]. simpl.
  destruct (update "total" _ _) as [m5|] eqn:E5; [|discriminate]. simpl.
  intros Ha. inversion Ha; subst a'. clear Ha. simpl.
  split; [reflexivity|].
  split; [unfold bumpBy, statusKey; now destruct (decide (Code r > 0))|].
  split.
  { unfold bumpBy, familyOf. destruct (decide (Code r > 0)); [|reflexivity].
    simpl. now destruct (decide (2 <= div64 (Code r) 100 /\ div64 (Code r) 100 <= 5)). }
  split; [unfold bumpBy, errorKey; now destruct (decide (Error r <> ""))|].
  split; [unfold bumpBy, phaseKey; now destruct (decide (FailPhase r <> ""))|].
  intros p.
  rewrite (update_seen _ _ _ _ E5 p), (update_seen _ _ _ _ E4 p),
    (update_seen _ _ _ _ E3 p), (update_seen _ _ _ _ E2 p),
    (update_seen _ _ _ _ E1 p).
  destruct (decide (p ∈ PhaseNames)) as [Hin|Hout].
  - apply phase_cases in Hin as [->|[->|[->|[->| ->]]]];
      repeat match goal with
             | |- context [decide ?P] => destruct (decide P)
             end; try discriminate; try congruence; reflexivity.
  - rewrite phase_cases in Hout.
    rewrite !decide_False by (intros ->; apply Hout; tauto). reflexivity.
Qed.

(** *** A stream of [Add]s on a fresh aggregator *)

Lemma seen_New p :
  seen (stats.stats New) p = if decide (p ∈ PhaseNames) then Some 0 else None.
Proof.
  destruct (decide (p ∈ PhaseNames)) as [Hin|Hout].
  - apply phase_cases in Hin as [->|[->|[->|[->| ->]]]]; reflexivity.
  - rewrite phase_cases in Hout. unfold seen, New, PhaseNames. simpl.
    rewrite !lookup_insert_ne by (intros <-; apply Hout; tauto).
    reflexivity.
Qed.

Lemma addResults_snoc a rs r :
  addResults a (rs ++ [r]) =
    match addResults a rs with
    | Some a' => Add a' r
    | None => None
    end.
Proof.
  rewrite addResults_app. destruct (addResults a rs) as [a'|]; [|reflexivity].
  simpl. now destruct (Add a' r).
Qed.

Lemma addResults_New rs :
  exists a,
    addResults New rs = Some a /\ has_phases a /\
    count a = wrap64 (Z.of_nat (length rs)) /\
    status a = fold_left (bumpBy statusKey) rs ∅ /\
    statusFamily a = fold_left (bumpBy familyOf) rs ∅ /\
    errors a = fold_left (bumpBy errorKey) rs ∅ /\
    failByPhase a = fold_left (bumpBy phaseKey) rs ∅ /\
    (forall p, seen (stats.stats a) p =
               if decide (p ∈ PhaseNames)
               then Some (wrap64 (Z.of_nat (length rs))) else None).
Proof.
  induction rs as [|r rs IH] using rev_ind.
  - exists New. split; [reflexivity|]. split; [apply has_phases_New|].
    repeat split. intros p. rewrite seen_New.
    now destruct (decide (p ∈ PhaseNames)).
  - destruct IH as (a & Ha & Hp & Hc & Hs & Hf & He & Hb & Hseen).
    destruct (Add_has_phases a r Hp) as (a' & Hadd & Hp').
    exists a'. rewrite addResults_snoc, Ha.
    split; [exact Hadd|]. split; [exact Hp'|].
    destruct (Add_fields a r a' Hadd) as (Hc' & Hs' & Hf' & He' & Hb' & Hseen').
    rewrite !fold_left_app, length_app. cbn [fold_left length].
    rewrite Hc', Hs', Hf', He', Hb', Hc, Hs, Hf, He, Hb.
    repeat split.
    + unfold add64. rewrite wrap64_add_l. f_equal. lia.
    + intros p. rewrite Hseen', Hseen.
      destruct (decide (p ∈ PhaseNames)); [|reflexivity].
      simpl. f_equal. unfold add64. rewrite wrap64_add_l. f_equal. lia.
Qed.

(** X11. Adding any stream of results to a fresh aggregator never fails,
    and every record is counted once in the total and once in each of
    the five phase entries -- failed requests included, with whatever
    durations they carry; the aggregator has no other phase entry. *)
Theorem Aggregator_counts_every_record rs :
  exists a,
    addResults New rs = Some a /\
    count a = wrap64 (Z.of_nat (length rs)) /\
    (forall p, seen (stats.stats a) p =
               if decide (p ∈ PhaseNames)
               then Some (wrap64 (Z.of_nat (length rs))) else None).
Proof.
  destruct (addResults_New rs) as (a & Ha & _ & Hc & _ & _ & _ & _ & Hseen).
  now exists a.
Qed.

(** *** Reading the counter maps *)

Lemma countIf_ext (P Q : Result -> Prop)
      `{forall r, Decision (P r)} `{forall r, Decision (Q r)} rs :
  (forall r, P r <-> Q r) -> countIf P rs = countIf Q rs.
Proof.
  intros Hpq. unfold countIf. f_equal. f_equal.
  induction rs as [|r rs IH]; [reflexivity|].
  rewrite !filter_cons, IH.
  destruct (decide (P r)) as [Hp|Hp], (decide (Q r)) as [Hq|Hq];
    try reflexivity; exfalso; apply Hpq in Hp || apply Hpq in Hq; contradiction.
Qed.

Lemma countIf_never (P : Result -> Prop) `{forall r, Decision (P r)} rs :
  (forall r, ~ P r) -> countIf P rs = 0.
Proof.
  intros Hp. unfold countIf.
  induction rs as [|r rs IH]; [reflexivity|].
  rewrite filter_cons_False by apply Hp. exact IH.
Qed.

Lemma statusKey_iff r c : statusKey r = Some c <-> Code r = c /\ c > 0.
Proof.
  unfold statusKey. destruct (decide (Code r > 0)) as [Hp|Hp].
  - split; [intros E; inversion E; subst; auto | intros [E _]; now subst].
  - split; [discriminate | intros [E Hc]; subst; contradiction].
Qed.

Lemma errorKey_iff r e : errorKey r = Some e <-> Error r = e /\ e <> "".
Proof.
  unfold errorKey. destruct (decide (Error r <> "")) as [Hp|Hp].
  - split; [intros E; inversion E; subst; auto | intros [E _]; now subst].
  - split; [discriminate | intros [E Hc]; subst; contradiction].
Qed.

Lemma phaseKey_iff r k : phaseKey r = Some k <-> FailPhase r = k /\ k <> "".
Proof.
  unfold phaseKey. destruct (decide (FailPhase r <> "")) as [Hp|Hp].
  - split; [intros E; inversion E; subst; auto | intros [E _]; now subst].
  - split; [discriminate | intros [E Hc]; subst; contradiction].
Qed.

(** The entry of a counter map whose key is bumped for the results with
    [field r = k], provided [k] passes the guard. *)
Lemma guarded_lookup `{Countable K} (key : Result -> option K)
      (field : Result -> K) (guard : K -> Prop)
      `{forall k, Decision (guard k)} rs k :
  (forall r k, key r = Some k <-> field r = k /\ guard k) ->
  fold_left (bumpBy key) rs ∅ !! k =
    if decide (~ guard k \/ countIf (fun r => field r = k) rs = 0) then None
    else Some (wrap64 (countIf (fun r => field r = k) rs)).
Proof.
  intros Hkey. rewrite tally_lookup.
  destruct (decide (guard k)) as [Hg|Hg].
  - rewrite (countIf_ext (fun r => key r = Some k) (fun r => field r = k))
      by (intros r; rewrite Hkey; tauto).
    destruct (decide (countIf (fun r => field r = k) rs = 0)) as [E|E].
    + rewrite decide_True by tauto. reflexivity.
    + rewrite decide_False by tauto. reflexivity.
  - rewrite (countIf_never (fun r => key r = Some k))
      by (intros r Hr; apply Hkey in Hr; tauto).
    rewrite decide_True by reflexivity. rewrite decide_True by tauto.
    reflexivity.
Qed.

(** Two tests of the same condition take the same branch. *)
Ltac same_decision :=
  repeat match goal with
         | |- context [@decide ?P ?d] => destruct (@decide P d)
         end;
  try reflexivity; exfalso; intuition (try lia; try congruence).

(** X12. After any stream of results has been added to a fresh
    aggregator, the status table has an entry for a code exactly when
    the code is positive and some result carries it, and the entry is
    the number of those results (in 64-bit arithmetic): results without
    a response, whose code is zero, are not in the table. *)
Theorem status_tallies rs c :
  exists a,
    addResults New rs = Some a /\
    status a !! c =
      if decide (c <= 0 \/ countIf (fun r => Code r = c) rs = 0) then None
      else Some (wrap64 (countIf (fun r => Code r = c) rs)).
Proof.
  destruct (addResults_New rs) as (a & Ha & _ & _ & Hs & _).
  exists a. split; [exact Ha|]. rewrite Hs.
  rewrite (guarded_lookup statusKey Code (fun c => c > 0) rs c statusKey_iff).
  same_decision.
Qed.

(** X13. Likewise the table of errors counts the results by their error
    text and the table of failures by phase counts them by their
    failing-phase tag, each leaving out the results whose text is
    empty: neither table ever has the empty string as a key. *)
Theorem errors_tally_nonempty_texts rs k :
  exists a,
    addResults New rs = Some a /\
    errors a !! k =
      (if decide (k = "" \/ countIf (fun r => Error r = k) rs = 0)
       then None
       else Some (wrap64 (countIf (fun r => Error r = k) rs))) /\
    failByPhase a !! k =
      (if decide (k = "" \/ countIf (fun r => FailPhase r = k) rs = 0)
       then None
       else Some (wrap64 (countIf (fun r => FailPhase r = k) rs))).
Proof.
  destruct (addResults_New rs) as (a & Ha & _ & _ & _ & _ & He & Hb & _).
  exists a. split; [exact Ha|]. rewrite He, Hb. split.
  - rewrite (guarded_lookup errorKey Error (fun k => k <> "") rs k
               errorKey_iff).
    same_decision.
  - rewrite (guarded_lookup phaseKey FailPhase (fun k => k <> "") rs k
               phaseKey_iff).
    same_decision.
Qed.

(** *** Status families *)

Lemma countIf_ext_Forall (P Q : Result -> Prop)
      `{forall r, Decision (P r)} `{forall r, Decision (Q r)} rs :
  Forall (fun r => P r <-> Q r) rs -> countIf P rs = countIf Q rs.
Proof.
  intros Hall. unfold countIf. f_equal. f_equal.
  induction Hall as [|r rs Hr _ IH]; [reflexivity|].
  rewrite !filter_cons, IH.
  destruct (decide (P r)) as [Hp|Hp], (decide (Q r)) as [Hq|Hq];
    try reflexivity; exfalso; tauto.
Qed.

Lemma countIf_pos (P : Result -> Prop) `{forall r, Decision (P r)} rs :
  countIf P rs <> 0 -> exists r, In r rs /\ P r.
Proof.
  unfold countIf. induction rs as [|r rs IH]; [intros Hc; now elim Hc|].
  rewrite filter_cons. destruct (decide (P r)) as [Hp|Hp].
  - intros _. exists r. split; [now left | exact Hp].
  - intros Hc. destruct (IH Hc) as (r' & Hin & Hr').
    exists r'. split; [now right | exact Hr'].
Qed.

Definition familyNames : list string := ["2xx"; "3xx"; "4xx"; "5xx"].

Lemma family_cases n :
  2 <= n <= 5 -> n = 2 \/ n = 3 \/ n = 4 \/ n = 5.
Proof. lia. Qed.

Lemma familyKey_inj n m :
  2 <= n <= 5 -> 2 <= m <= 5 -> familyKey n = familyKey m -> n = m.
Proof.
  intros Hn Hm.
  destruct (family_cases n Hn) as [->|[->|[->| ->]]];
    destruct (family_cases m Hm) as [->|[->|[->| ->]]];
    vm_compute; intros E; try reflexivity; discriminate E.
Qed.

Lemma familyKey_name n : 2 <= n <= 5 -> In (familyKey n) familyNames.
Proof.
  intros Hn. destruct (family_cases n Hn) as [->|[->|[->| ->]]];
    vm_compute; tauto.
Qed.

Lemma familyOf_iff r n :
  in_int64 (Code r) -> 2 <= n <= 5 ->
  familyOf r = Some (familyKey n) <-> 100 * n <= Code r < 100 * n + 100.
Proof.
  intros Hc Hn.
  rewrite <- (TallyFacts.family_of_code (Code r) n Hc) by lia.
  unfold familyOf. destruct (decide (Code r > 0)) as [Hp|Hp];
    [|split; [discriminate | tauto]].
  cbv zeta.
  destruct (decide (2 <= div64 (Code r) 100 /\ div64 (Code r) 100 <= 5))
    as [Hf|Hf].
  - split.
    + intros E. apply (inj Some) in E. split; [exact Hp|].
      apply familyKey_inj; [lia | exact Hn | exact E].
    + intros [_ ->]. reflexivity.
  - split; [discriminate | intros [_ E]; lia].
Qed.

Lemma familyOf_name r k : familyOf r = Some k -> In k familyNames.
Proof.
  unfold familyOf. destruct (decide (Code r > 0)); [|discriminate].
  cbv zeta.
  destruct (decide (2 <= div64 (Code r) 100 /\ div64 (Code r) 100 <= 5))
    as [Hf|Hf]; [|discriminate].
  intros E. apply (inj Some) in E as <-. apply familyKey_name. lia.
Qed.

(** X14. For results whose status codes are Go integers, the table of
    status families of a fresh aggregator counts, under each of [2xx] to
    [5xx], the results with a status of that hundred -- whether or not
    the result also carries an error -- and has no other key: statuses
    below 200 and from 600 on are in no family. *)
Theorem statusFamily_tallies rs :
  Forall (fun r => in_int64 (Code r)) rs ->
  exists a,
    addResults New rs = Some a /\
    (forall n, 2 <= n <= 5 ->
       statusFamily a !! familyKey n =
         if decide (countIf (fun r => 100 * n <= Code r < 100 * n + 100) rs
                    = 0)
         then None
         else Some (wrap64 (countIf (fun r => 100 * n <= Code r
                                              < 100 * n + 100) rs))) /\
    (forall k, statusFamily a !! k <> None -> In k familyNames).
Proof.
  intros Hall.
  destruct (addResults_New rs) as (a & Ha & _ & _ & _ & Hf & _).
  exists a. split; [exact Ha|]. rewrite Hf. split.
  - intros n Hn. rewrite tally_lookup.
    rewrite (countIf_ext_Forall (fun r => familyOf r = Some (familyKey n))
               (fun r => 100 * n <= Code r < 100 * n + 100)).
    + same_decision.
    + eapply Forall_impl; [exact Hall|].
      intros r Hr. now apply familyOf_iff.
  - intros k. rewrite tally_lookup.
    destruct (decide (countIf (fun r => familyOf r = Some k) rs = 0))
      as [E|E]; [intros Hx; now elim Hx|].
    intros _. apply countIf_pos in E as (r & _ & Hr).
    exact (familyOf_name r k Hr).
Qed.

Lemma statusFamily_tallies_witness :
  exists a,
    addResults New [doRequest inputs.fresh200; doRequest inputs.refused]
    = Some a /\
    statusFamily a !! "2xx" = Some 1.
Proof.
  destruct (statusFamily_tallies
              [doRequest inputs.fresh200; doRequest inputs.refused]
              TallyFacts.fresh_refused_codes) as (a & Ha & Hf & _).
  exists a. split; [exact Ha|].
  exact (Hf 2 ltac:(lia)).
Defined.

(** *** The results of the two tracers *)

Lemma doRequest_same_texts x : Error (doRequest x) = FailPhase (doRequest x).
Proof. unfold doRequest. now destruct (outcome x). Qed.

Lemma doRequest_phaseKey x :
  errorKey (doRequest x) = phaseKey (doRequest x).
Proof. unfold errorKey, phaseKey. now rewrite doRequest_same_texts. Qed.

Lemma doRequest_phase_tag x k : phaseKey (doRequest x) = Some k -> In k tags.
Proof.
  intros Hk. apply phaseKey_iff in Hk as [Hk Hne]. revert Hk.
  unfold doRequest. destruct (outcome x) as [err|resp]; simpl.
  - intros <-. apply TracerFacts.classifyError_in_tags.
  - intros <-. now elim Hne.
Qed.

Lemma legacy_phaseKey x : phaseKey (legacy.doRequest x) = None.
Proof.
  unfold phaseKey.
  rewrite TracerFacts.legacy_doRequest_never_sets_fail_phase.
  now destruct (decide ("" <> "")).
Qed.

Lemma legacy_errorKey x err :
  outcome x = inl err ->
  errorKey (legacy.doRequest x) = Some (legacy.classifyError err).
Proof.
  intros Ho. unfold errorKey, legacy.doRequest. rewrite Ho. simpl.
  destruct (decide (legacy.classifyError err <> "")) as [_|Hx];
    [reflexivity|].
  exfalso. apply Hx. unfold legacy.classifyError.
  repeat match goal with
         | |- context [if ?b then _ else _] => destruct b
         end; discriminate.
Qed.

(** X15. For the results of the current tracer the table of failures by
    phase is the table of errors: the two maps of a fresh aggregator are
    equal after any stream of such results, and their keys are among the
    six tags. *)
Theorem doRequest_failures_by_phase xs :
  exists a,
    addResults New (map doRequest xs) = Some a /\
    failByPhase a = errors a /\
    (forall k, failByPhase a !! k <> None -> In k tags).
Proof.
  destruct (addResults_New (map doRequest xs))
    as (a & Ha & _ & _ & _ & _ & He & Hb & _).
  exists a. split; [exact Ha|]. rewrite He, Hb. split.
  - symmetry. apply tally_ext. apply Forall_forall.
    intros r Hr. apply list_elem_of_In, in_map_iff in Hr as (x & <- & _).
    apply doRequest_phaseKey.
  - intros k. rewrite tally_lookup.
    destruct (decide (countIf (fun r => phaseKey r = Some k)
                              (map doRequest xs) = 0))
      as [E|E]; [intros Hx; now elim Hx|].
    intros _. apply countIf_pos in E as (r & Hin & Hr).
    apply in_map_iff in Hin as (x & <- & _).
    exact (doRequest_phase_tag x k Hr).
Qed.

(** X16. For the results of the earlier tracer the table of failures by
    phase stays empty, whatever failed: the failures are only in the
    table of errors, which has an entry for the cause of every failed
    exchange. *)
Theorem legacy_results_have_no_failures_by_phase xs :
  exists a,
    addResults New (map legacy.doRequest xs) = Some a /\
    failByPhase a = ∅ /\
    (forall x err, In x xs -> outcome x = inl err ->
       errors a !! legacy.classifyError err <> None).
Proof.
  destruct (addResults_New (map legacy.doRequest xs))
    as (a & Ha & _ & _ & _ & _ & He & Hb & _).
  exists a. split; [exact Ha|]. rewrite He, Hb. split.
  - apply tally_none. apply Forall_forall.
    intros r Hr. apply list_elem_of_In, in_map_iff in Hr as (x & <- & _).
    apply legacy_phaseKey.
  - intros x err Hin Ho. rewrite tally_lookup.
    destruct (decide (countIf (fun r => errorKey r
                                        = Some (legacy.classifyError err))
                              (map legacy.doRequest xs) = 0))
      as [E|E]; [|discriminate].
    exfalso. revert E. clear -Hin Ho.
    induction xs as [|y xs IH]; [contradiction|].
    simpl. unfold countIf. rewrite filter_cons.
    destruct Hin as [->|Hin].
    + rewrite decide_True by (now apply legacy_errorKey). simpl. lia.
    + destruct (decide _); [simpl; lia | exact (IH Hin)].
Qed.

End AggregatorFacts.


(** ** The books of a run *)
Module LedgerFacts.

Import Go attack Runner ledger GoFacts RunnerFacts.

Lemma omap_insert {A B} (f : A -> option B) (l : list A) i x y :
  l !! i = Some x ->
  exists p q,
    omap f l = (p ++ option_list (f x) ++ q)%list /\
    omap f (<[i := y]> l) = (p ++ option_list (f y) ++ q)%list.
Proof.
  intros Hi. exists (omap f (take i l)), (omap f (drop (S i) l)).
  assert (Hlen : (i < length l)%nat) by (eapply lookup_lt_Some; eauto).
  split.
  - rewrite <- (take_drop_middle l i x Hi) at 1.
    rewrite omap_app. simpl. now destruct (f x).
  - rewrite insert_take_drop by exact Hlen.
    rewrite omap_app. simpl. now destruct (f y).
Qed.

Lemma sending_insert ws i w w' :
  ws !! i = Some w ->
  exists p q,
    sending ws = (p ++ option_list (toSend w) ++ q)%list /\
    sending (<[i := w']> ws) = (p ++ option_list (toSend w') ++ q)%list.
Proof. apply omap_insert. Qed.

Lemma sending_insert_same ws i w w' :
  ws !! i = Some w -> toSend w = None -> toSend w' = None ->
  sending (<[i := w']> ws) = sending ws.
Proof.
  intros Hi Hw Hw'. destruct (sending_insert ws i w w' Hi) as (p & q & -> & ->).
  now rewrite Hw, Hw'.
Qed.

Lemma sending_snoc ws : sending (ws ++ [WRecv]) = sending ws.
Proof. unfold sending. rewrite omap_app. simpl. apply app_nil_r. Qed.

(** Moving one result between the parts of the books. *)
Ltac shuffle H :=
  rewrite H; rewrite <- ?app_assoc; simpl;
  rewrite <- ?Permutation_middle; rewrite ?app_nil_r; reflexivity.

Lemma reachable_before_sink u s :
  reachable u s -> before_sink (pc s) -> sink s = SNotStarted.
Proof.
  induction 1 as [|s a s' _ IH Hstep]; [reflexivity|].
  inversion Hstep; subst; try use_pc; simpl in *;
    try tauto; try (intros Hb; specialize (IH Hb); congruence).
Qed.

(** What the file holds, against the results the encoder was called
    for. *)
Definition in_step (fo : option (File string)) (ws : list Result) : Prop :=
  forall f, fo = Some f ->
            written f `prefix_of` encoded ws /\
            (isOpen f = true -> written f = encoded ws).

Lemma in_step_none ws : in_step None ws.
Proof. intros f Hf. discriminate Hf. Qed.

Lemma ledger_initial : Ledger initial [] [].
Proof.
  constructor; simpl; try reflexivity; try (intros _; reflexivity).
  - exists []. split; [reflexivity | apply in_step_none].
  - constructor.
Qed.

Lemma encoded_snoc rs r :
  encoded (rs ++ [r]) =
    (encoded rs ++ match json.Encode r with
                   | Some line => [line]
                   | None => []
                   end)%list.
Proof.
  unfold encoded. rewrite omap_app. simpl. now destruct (json.Encode r).
Qed.

Lemma in_step_close fo rs : in_step fo rs -> in_step (close fo) rs.
Proof.
  unfold in_step. intros H f Hf. destruct fo as [f0|]; [|discriminate].
  simpl in Hf. inversion Hf; subst f. simpl.
  split; [apply (H f0 eq_refl) | discriminate].
Qed.

Lemma in_step_encodeTo fo rs r :
  in_step fo rs -> in_step (encodeTo fo r) (rs ++ [r]).
Proof.
  unfold in_step, encodeTo. intros H f Hf. rewrite encoded_snoc.
  destruct (json.Encode r) as [line|].
  - destruct fo as [f0|]; [|discriminate]. simpl in Hf.
    destruct (H f0 eq_refl) as [Hpre Heq].
    destruct (isOpen f0) eqn:Eo.
    + inversion Hf; subst f. simpl. rewrite (Heq eq_refl).
      split; [reflexivity | intros _; reflexivity].
    + inversion Hf; subst f. rewrite Eo.
      split; [now apply prefix_app_r | discriminate].
  - rewrite app_nil_r. now apply H.
Qed.

Lemma in_step_new : in_step (Some (mkFile true [])) [].
Proof.
  intros f Hf. inversion Hf; subst f. simpl.
  split; [reflexivity | intros _; reflexivity].
Qed.

(** Bringing in what is known of the writer goroutine. *)
Ltac use_sink :=
  match goal with
  | H : sink ?s = _ |- _ => rewrite H in *
  end.

Ltac books :=
  constructor; simpl;
  repeat match goal with
         | H : sink ?s = _ |- context [sink ?s] => rewrite H
         end;
  simpl; eauto.

Lemma ledger_step u s a s' rs d :
  reachable u s -> Ledger s rs d -> step u s a s' ->
  exists rs' d', Ledger s' rs' d'.
Proof.
  intros Hreach [Hst Hreq Hdrop Hfresh (ws & Hws & Hfile) Htr] Hstep.
  pose proof (reachable_before_sink u s Hreach) as Hbefore.
  fold (in_step (outFile s) ws) in Hfile.
  inversion Hstep; subst s'; simpl in *.
  all: try (exists rs, d; constructor; simpl; solve [eauto]).
  - (* a worker is started *)
    exists rs, d. constructor; simpl; rewrite ?sending_snoc; eauto.
  - (* the result file is created *)
    assert (Hk : sink s = SNotStarted).
    { apply Hbefore.
      match goal with Hpc : pc s = _ |- _ => rewrite Hpc end. exact I. }
    assert (Hn : rs = []) by now apply Hfresh.
    rewrite Hn, Hk in Hreq. simpl in Hreq.
    rewrite Hn in *. exists [], d. books.
    exists []. split; [reflexivity | apply in_step_new].
  - (* the progress log cannot be created *)
    exists rs, d. books.
    exists ws. split; [assumption | now apply in_step_close].
  - (* the writer goroutine is started *)
    assert (Hk : sink s = SNotStarted).
    { apply Hbefore.
      match goal with Hpc : pc s = _ |- _ => rewrite Hpc end. exact I. }
    use_sink. simpl in Hreq, Hws. exists rs, d. books; try discriminate.
  - (* NewTicker panics *)
    exists rs, d. books.
    exists ws. split; [assumption | now apply in_step_close].
  - (* a ticket is handed to a waiting worker *)
    exists rs, d. books.
    now rewrite (sending_insert_same (workers s) i WRecv).
  - (* Run returns *)
    exists rs, d. books.
    exists ws. split; [assumption | now apply in_step_close].
  - (* a worker takes a ticket from the queue *)
    exists rs, d. books.
    now rewrite (sending_insert_same (workers s) i WRecv).
  - (* a worker finds the queue closed *)
    exists rs, d. books.
    now rewrite (sending_insert_same (workers s) i WRecv).
  - (* a worker runs its request *)
    exists rs, d.
    destruct (sending_insert (workers s) i (WBusy ticket)
                (WSend (doRequest x))) as (p & q & E1 & E2);
      [assumption|].
    simpl in E1, E2. rewrite E1 in Hreq.
    books.
    + rewrite E2. shuffle Hreq.
    + apply Forall_app. split; [exact Htr|]. repeat constructor. now exists x.
  - (* a worker puts its result in the buffer *)
    exists rs, d.
    destruct (sending_insert (workers s) i (WSend res) WRecv)
      as (p & q & E1 & E2); [assumption|].
    simpl in E1, E2. rewrite E1 in Hreq.
    books. rewrite E2. shuffle Hreq.
  - (* a worker hands its result to the writer goroutine *)
    use_sink. simpl in Hreq, Hws. exists rs, d.
    destruct (sending_insert (workers s) i (WSend res) WRecv)
      as (p & q & E1 & E2); [assumption|].
    simpl in E1, E2. rewrite E1 in Hreq.
    books.
    + rewrite E2. shuffle Hreq.
    + discriminate.
  - (* a worker gives up after the cancellation *)
    exists rs, (res :: d).
    destruct (sending_insert (workers s) i (WSend res) WExited)
      as (p & q & E1 & E2); [assumption|].
    simpl in E1, E2. rewrite E1 in Hreq.
    books.
    + rewrite E2. shuffle Hreq.
    + congruence.
  - (* the writer goroutine takes a result from the buffer *)
    use_sink. simpl in Hreq, Hws. exists rs, d.
    match goal with Hb : buf (results s) = _ |- _ => rewrite Hb in Hreq end.
    books; try discriminate.
  - (* the writer goroutine counts the result *)
    use_sink. simpl in Hreq, Hws. rewrite app_nil_r in Hws. rewrite <- Hws in *.
    exists (rs ++ [r])%list, d. books.
    + now rewrite CollectorFacts.addAll_snoc, Hst.
    + shuffle Hreq.
    + discriminate.
  - (* the writer goroutine writes the result *)
    use_sink. simpl in Hreq, Hws. exists rs, d. books.
    + discriminate.
    + exists rs. split; [now rewrite app_nil_r|].
      rewrite Hws. now apply in_step_encodeTo.
  - (* the writer goroutine ends *)
    use_sink. simpl in Hreq, Hws. exists rs, d. books; try discriminate.
  - (* the context is cancelled *)
    exists rs, d. books; try discriminate.
Qed.

Lemma reachable_ledger u s :
  reachable u s -> exists rs d, Ledger s rs d.
Proof.
  induction 1 as [|s a s' Hs (rs & d & IH) Hstep].
  - exists [], []. exact ledger_initial.
  - exact (ledger_step u s a s' rs d Hs IH Hstep).
Qed.

(** X17. In every state of every run each request executed so far is
    accounted for exactly once: its result has been counted by the
    collector, or is in the hands of the writer goroutine, received and
    not yet counted, or lies in the results buffer, or is in the hands
    of a worker waiting to send it, or -- only once the context is
    cancelled -- was given up by its worker. Everything accounted for is
    a result of [doRequest]. *)
Theorem results_accounted u s :
  reachable u s ->
  exists rs dropped,
    stats s = addAll rs /\
    requests s ≡ₚ
      rs ++ held (sink s) ++ buf (results s) ++ sending (workers s)
         ++ dropped /\
    (cancelled s = false -> dropped = []) /\
    Forall (fun r => exists x, r = doRequest x) (requests s).
Proof.
  intros Hr. destruct (reachable_ledger u s Hr) as (rs & d & [H1 H2 H3 _ _ H6]).
  now exists rs, d.
Qed.

Lemma sending_exited ws : all_exited ws -> sending ws = [].
Proof.
  induction 1 as [|w ws Hw _ IH]; [reflexivity|].
  subst w. exact IH.
Qed.

(** X18. Once the writer goroutine has made its final flush in a run
    whose context was not cancelled, the collector has counted exactly
    the requests that were executed: nothing is left in the buffer or
    with a worker, and nothing was given up. *)
Theorem final_statistics_complete u s :
  reachable u s -> final_flush_done s -> cancelled s = false ->
  exists rs,
    stats s = addAll rs /\ rs ≡ₚ requests s /\
    sent (stats s) = wrap64 (Z.of_nat (length (requests s))).
Proof.
  intros Hr Hdone Hc.
  destruct (reachable_ledger u s Hr) as (rs & d & [H1 H2 H3 _ _ _]).
  destruct (reachable_invariant u s Hr) as [_ _ _ Hj _ Hres Hf].
  destruct (Hf Hdone) as [Hclosed Hbuf].
  assert (Hex : all_exited (workers s)).
  { apply Hj. apply Hres in Hclosed as [-> | ->]; exact I. }
  unfold final_flush_done in Hdone.
  rewrite Hdone, Hbuf, (sending_exited _ Hex), (H3 Hc) in H2. simpl in H2.
  rewrite app_nil_r in H2.
  exists rs. split; [exact H1|]. split; [now symmetry|].
  rewrite H1. destruct (CollectorFacts.addAll_counters rs) as (-> & _).
  now rewrite H2.
Qed.


Lemma failed_tag rs k :
  tally.failedWith k rs <> 0 ->
  exists r, In r rs /\ Error r <> "" /\ FailPhase r = k.
Proof.
  unfold tally.failedWith. induction rs as [|r rs IH]; [intros H; now elim H|].
  rewrite filter_cons.
  destruct (decide (succeeded r = false /\ FailPhase r = k)) as [[Hs Hk]|Hn].
  - intros _. exists r. split; [now left|].
    split; [now apply CollectorFacts.succeeded_false | exact Hk].
  - intros H. destruct (IH H) as (r' & Hin & Hr').
    exists r'. split; [now right | exact Hr'].
Qed.

(** X20. During a run the failure breakdown of the live collector only
    ever has keys among the six tags of the classifier. *)
Theorem live_failures_are_tags u s k :
  reachable u s -> failMap (stats s) !! k <> None -> In k tags.
Proof.
  intros Hr Hk.
  destruct (reachable_ledger u s Hr) as (rs & d & [H1 H2 _ _ _ H6]).
  rewrite H1, TallyFacts.failMap_lookup in Hk.
  destruct (decide (tally.failedWith k rs = 0)) as [E|E];
    [now elim Hk|].
  destruct (failed_tag rs k E) as (r & Hin & He & <-).
  assert (Hreq : r ∈ requests s).
  { rewrite H2. apply elem_of_app. left. now apply list_elem_of_In. }
  rewrite Forall_forall in H6. destruct (H6 r Hreq) as [x ->].
  clear -He. unfold doRequest in *.
  destruct (outcome x) as [err|resp]; simpl in *.
  - apply TracerFacts.classifyError_in_tags.
  - now elim He.
Qed.

End LedgerFacts.


(** ** A run that returns before its last result is written *)
Module LossFacts.

Import Go attack Runner ledger GoFacts RunnerFacts.

Lemma reach_eq u s s' : reachable u s -> s = s' -> reachable u s'.
Proof. now intros H <-. Qed.

(** The states of the run: before the files are opened, and once the
    scheduler loop has been entered. *)
Definition preparing (p : MainPc) (ws : list Worker) : State :=
  mkState p ws (mkChan [] false) (mkChan [] false) SNotStarted false
          newStats None None [].

Definition running (p : MainPc) (ws : list Worker) (work : Chan Z)
           (res : Chan Result) (rs : list Result) : State :=
  mkState p ws work res SRunning false newStats
          (Some (mkFile true [])) (Some (mkFile true [])) rs.

(** [Run] has returned [nil]: the workers have exited, both channels
    and both files are closed, and nothing was written. *)
Definition after_return (ws : list Worker) (res : list Result) (k : Sink)
           (c : StatsCollector) (rs : list Result) : State :=
  mkState (PcReturned None) ws (mkChan [] true) (mkChan res true) k false c
          (Some (mkFile false [])) (Some (mkFile false [])) rs.

(** Two states are equal when their fields are; the fields are laid
    open without computing what they hold. *)
Ltac state_eq :=
  cbv [preparing running after_return sinkAdd sinkEncode printStats
       encodeTo
       run_defers close write
       set_pc set_workers set_workCh set_results set_sink set_cancelled
       set_stats set_outFile set_progressFile add_request
       pc workers workCh results sink cancelled stats outFile progressFile
       requests buf closed isOpen written];
  f_equal.

Section Run.

Variable u : Setup.
Variable x : Exchange.

Let n : nat := Z.to_nat (concurrency u).
Let r : Result := doRequest x.

Lemma prepared_sizes :
  prepared u ->
  Z.of_nat n = concurrency u /\ (1 <= n)%nat /\
  0 <= workCap u /\ 2 <= resultsCap u.
Proof.
  intros (_ & _ & _ & Hc & Hq & _). subst n.
  split; [lia|]. split; [lia|]. split; [exact (proj1 Hq)|].
  unfold resultsCap, mul64.
  rewrite wrap64_id by (unfold in_int64, int64_min, int64_max; lia). lia.
Qed.

Lemma reach_spawned i :
  prepared u -> (i <= n)%nat ->
  reachable u (preparing (PcSpawn (Z.of_nat i)) (replicate i WRecv)).
Proof.
  intros Hp. destruct (prepared_sizes Hp) as (Hn & _ & Hw & Hres).
  destruct Hp as (Hreq & _ & _ & Hc & Hfit).
  induction i as [|i IH]; intros Hi.
  - eapply reach_step;
      [eapply reach_step; [apply reach_initial|]|].
    + apply step_makeRequest; [reflexivity | exact Hreq].
    + apply (step_makeChans u (preparing PcMakeChans []));
        [reflexivity | exact Hfit].
  - eapply reach_eq.
    + eapply reach_step; [apply IH; lia|].
      apply (step_spawn u _ (Z.of_nat i)); [reflexivity | lia].
    + state_eq.
      * f_equal. unfold add64. rewrite wrap64_id
          by (unfold in_int64, int64_min, int64_max; lia).
        lia.
      * symmetry. apply replicate_S_end.
Qed.

(** Both files are open and the writer goroutine runs: the main
    goroutine is about to make its ticker. *)
Lemma reach_ticker :
  prepared u ->
  reachable u (running PcNewTicker (replicate n WRecv)
                       (mkChan [] false) (mkChan [] false) []).
Proof.
  intros Hp.
  destruct (prepared_sizes Hp) as (Hn & _).
  pose proof (reach_spawned n Hp ltac:(lia)) as H0.
  destruct Hp as (_ & Hout & Hprog & _).
  eapply reach_step; [eapply reach_step; [eapply reach_step;
    [eapply reach_step; [exact H0|]|]|]|].
  - apply (step_spawn_done u _ (Z.of_nat n)); [reflexivity | lia].
  - apply step_openOutput; [reflexivity | exact Hout].
  - apply step_openProgress; [reflexivity | exact Hprog].
  - apply step_spawnSink. reflexivity.
Qed.

Lemma reach_loop :
  ready u ->
  reachable u (running (PcSelect 0) (replicate n WRecv)
                       (mkChan [] false) (mkChan [] false) []).
Proof.
  intros [Hp Hr].
  eapply reach_step; [exact (reach_ticker Hp)|].
  apply step_newTicker; [reflexivity | lia |].
  pose proof (ConfigFacts.interval_positive (rate u) Hr). lia.
Qed.

(** One ticket is sent, its request runs, and the result is put in the
    buffer; then the stop timer fires and the queue is closed. *)
Lemma reach_buffered :
  ready u ->
  reachable u (running PcWait (replicate n WRecv)
                       (mkChan [] true) (mkChan [r] false) [r]).
Proof.
  intros Hready.
  destruct (prepared_sizes (proj1 Hready)) as (_ & Hn1 & _ & Hres).
  pose proof (reach_loop Hready) as H0.
  assert (Hlen : (0 < length (replicate n WRecv))%nat)
    by (rewrite length_replicate; lia).
  eapply reach_eq.
  - eapply reach_step; [eapply reach_step; [eapply reach_step;
      [eapply reach_step; [eapply reach_step; [eapply reach_step;
        [exact H0|]|]|]|]|]|].
    + apply (step_tick u _ 0). reflexivity.
    + apply (step_send_handoff u _ 0 0%nat); try reflexivity.
      simpl. apply lookup_replicate_2. lia.
    + apply (step_doRequest u _ 0%nat 0 x). simpl.
      now apply list_lookup_insert_eq.
    + apply (step_result u _ 0%nat r); try reflexivity.
      * simpl. apply list_lookup_insert_eq. now rewrite length_insert.
      * simpl. lia.
    + apply (step_stop u _ (add64 0 1)). reflexivity.
    + apply step_closeWork. reflexivity.
  - state_eq. rewrite ?list_insert_insert_eq. apply insert_replicate.
Qed.

Lemma reach_exiting j :
  ready u -> (j <= n)%nat ->
  reachable u (running PcWait
                       (replicate j WExited ++ replicate (n - j) WRecv)
                       (mkChan [] true) (mkChan [r] false) [r]).
Proof.
  intros Hready. induction j as [|j IH]; intros Hj.
  - simpl. rewrite Nat.sub_0_r. now apply reach_buffered.
  - eapply reach_eq.
    + eapply reach_step; [apply IH; lia|].
      apply (step_recv_closed u _ j); try reflexivity. simpl.
      rewrite lookup_app_r by (rewrite length_replicate; lia).
      rewrite length_replicate, Nat.sub_diag.
      apply lookup_replicate_2. lia.
    + state_eq.
      replace (n - j)%nat with (S (n - S j)) by lia.
      rewrite (replicate_S_end j), <- app_assoc.
      rewrite insert_app_r_alt by (rewrite length_replicate; lia).
      rewrite length_replicate, Nat.sub_diag. reflexivity.
Qed.


(** [Run] returns, closing the files, with the result still in the
    buffer. *)
Lemma reach_returned :
  ready u ->
  reachable u (after_return (replicate n WExited) [r] SRunning newStats [r]).
Proof.
  intros Hready.
  pose proof (reach_exiting n Hready ltac:(lia)) as H0.
  rewrite Nat.sub_diag, app_nil_r in H0.
  eapply reach_eq.
  - eapply reach_step; [eapply reach_step; [eapply reach_step;
      [exact H0|]|]|].
    + apply step_wait; [reflexivity|]. simpl.
      now apply Forall_replicate.
    + apply step_closeResults. reflexivity.
    + apply step_return. reflexivity.
  - state_eq.
Qed.

(** Only then does the writer goroutine take the result from the
    buffer, *)
Lemma reach_held :
  ready u ->
  reachable u (after_return (replicate n WExited) [] (SHolds r) newStats [r]).
Proof.
  intros Hready. eapply reach_eq.
  - eapply reach_step; [exact (reach_returned Hready)|].
    apply (step_sink_recv u _ r []); reflexivity.
  - state_eq.
Qed.

(** count it, *)
Lemma reach_counted :
  ready u ->
  reachable u (after_return (replicate n WExited) [] (SCounted r)
                            (Add newStats r) [r]).
Proof.
  intros Hready. eapply reach_eq.
  - eapply reach_step; [exact (reach_held Hready)|].
    apply (step_sink_add u _ r). reflexivity.
  - state_eq.
Qed.

(** and call the encoder, which cannot write to the closed file. *)
Lemma reach_lost :
  ready u ->
  reachable u (mkState (PcReturned None) (replicate n WExited)
                       (mkChan [] true) (mkChan [] true) SRunning false
                       (Add newStats r)
                       (Some (mkFile false [])) (Some (mkFile false []))
                       [r]).
Proof.
  intros Hready. eapply reach_eq.
  - eapply reach_step; [exact (reach_counted Hready)|].
    apply (step_sink_encode u _ r). reflexivity.
  - state_eq. now destruct (json.Encode r).
Qed.

(** The writer goroutine then sees the closed channel and takes its
    last branch. *)
Lemma reach_flushed :
  ready u ->
  reachable u (after_return (replicate n WExited) [] SDone
                            (Add newStats r) [r]).
Proof.
  intros Hready. eapply reach_eq.
  - eapply reach_step; [exact (reach_lost Hready)|].
    apply step_sink_final; reflexivity.
  - state_eq.
Qed.

End Run.

(** X21. With every setup that gets [Run] through its preparations, and
    for every exchange, there is a run in which the request is executed
    and its result counted by the collector while [Run] has already
    returned [nil] and closed the result file, which is empty: a result
    still in the buffer when [Run] returns is never written. *)
Theorem Run_can_return_before_a_result_is_written u x :
  ready u ->
  exists s,
    reachable u s /\ pc s = PcReturned None /\
    requests s = [doRequest x] /\ stats s = addAll [doRequest x] /\
    outFile s = Some (mkFile false []).
Proof.
  intros Hready. eexists. split; [exact (reach_lost u x Hready)|].
  repeat split.
Qed.

Lemma plainRun_ready : ready inputs.plainRun.
Proof.
  repeat split;
    first [reflexivity | cbv; reflexivity | cbv; intro; discriminate].
Defined.

Lemma Run_can_return_before_a_result_is_written_witness :
  exists s,
    reachable inputs.plainRun s /\ pc s = PcReturned None /\
    requests s = [doRequest inputs.refused] /\
    stats s = addAll [doRequest inputs.refused] /\
    outFile s = Some (mkFile false []).
Proof.
  exact (Run_can_return_before_a_result_is_written inputs.plainRun
           inputs.refused plainRun_ready).
Defined.

Lemma live_failures_are_tags_witness : In "connect" tags.
Proof.
  apply (LedgerFacts.live_failures_are_tags inputs.plainRun _ "connect"
           (reach_lost inputs.plainRun inputs.refused plainRun_ready)).
  vm_compute. discriminate.
Defined.

(** *** The run of one refused request *)

Lemma oneLost_reaches : reachable inputs.plainRun (inputs.oneLost SRunning).
Proof.
  exact (reach_lost inputs.plainRun inputs.refused plainRun_ready).
Defined.

Lemma oneLost_flushed : reachable inputs.plainRun (inputs.oneLost SDone).
Proof.
  exact (reach_flushed inputs.plainRun inputs.refused plainRun_ready).
Defined.


Lemma run_keeps_sent_eq_success_plus_fail_witness :
  sent (stats (inputs.oneLost SRunning)) = 1 /\
  fail (stats (inputs.oneLost SRunning)) = 1 /\
  sent (stats (inputs.oneLost SRunning))
  = add64 (success (stats (inputs.oneLost SRunning)))
          (fail (stats (inputs.oneLost SRunning))).
Proof.
  split; [reflexivity|]. split; [reflexivity|].
  exact (run_keeps_sent_eq_success_plus_fail inputs.plainRun
           (inputs.oneLost SRunning) oneLost_reaches).
Defined.

Lemma results_accounted_witness :
  sent (stats (inputs.oneLost SRunning)) = 1 /\
  exists rs dropped,
    stats (inputs.oneLost SRunning) = addAll rs /\
    requests (inputs.oneLost SRunning)
      ≡ₚ rs ++ held (sink (inputs.oneLost SRunning))
            ++ buf (results (inputs.oneLost SRunning))
            ++ sending (workers (inputs.oneLost SRunning)) ++ dropped /\
    (cancelled (inputs.oneLost SRunning) = false -> dropped = []) /\
    Forall (fun r => exists x, r = doRequest x)
           (requests (inputs.oneLost SRunning)).
Proof.
  split; [reflexivity|].
  exact (LedgerFacts.results_accounted inputs.plainRun
           (inputs.oneLost SRunning) oneLost_reaches).
Defined.

Lemma final_statistics_complete_witness :
  requests (inputs.oneLost SDone) = [doRequest inputs.refused] /\
  exists rs,
    stats (inputs.oneLost SDone) = addAll rs /\
    rs ≡ₚ requests (inputs.oneLost SDone) /\
    sent (stats (inputs.oneLost SDone))
    = wrap64 (Z.of_nat (length (requests (inputs.oneLost SDone)))).
Proof.
  split; [reflexivity|].
  exact (LedgerFacts.final_statistics_complete inputs.plainRun
           (inputs.oneLost SDone) oneLost_flushed eq_refl eq_refl).
Defined.


End LossFacts.

(** ** The output stream of a run *)
Module StreamFacts.

Import Go attack Runner ledger GoFacts RunnerFacts.





End StreamFacts.


(** ** Tickets, bounds and the start of the scheduler *)
Module ScheduleFacts.

Import Go attack Runner ledger GoFacts RunnerFacts.

(** *** Tickets *)

Lemma busy_insert ws i w w' :
  ws !! i = Some w ->
  exists p q,
    busy ws = (p ++ option_list (inFlight w) ++ q)%list /\
    busy (<[i := w']> ws) = (p ++ option_list (inFlight w') ++ q)%list.
Proof. apply LedgerFacts.omap_insert. Qed.

Lemma busy_snoc ws : busy (ws ++ [WRecv]) = busy ws.
Proof. unfold busy. rewrite omap_app. simpl. apply app_nil_r. Qed.

Ltac busy_at ws i w w' :=
  let p := fresh "p" in
  let q := fresh "q" in
  let E1 := fresh "E" in
  let E2 := fresh "E" in
  destruct (busy_insert ws i w w') as (p & q & E1 & E2);
  [assumption|]; simpl in E1, E2; rewrite E1, E2; rewrite ?length_app;
  simpl.

(** What one step does to the tickets that are out and to the counter. *)
Lemma ticketsOut_step u s a s' :
  step u s a s' ->
  (ticketsOut s' = ticketsOut s /\ counter (pc s') = counter (pc s)) \/
  counter (pc s') = None \/
  (early (pc s) /\ pc s' = PcSelect 0 /\ ticketsOut s' = ticketsOut s) \/
  (exists c, pc s = PcSend c /\ pc s' = PcSelect (add64 c 1) /\
             ticketsOut s' = ticketsOut s + 1).
Proof.
  intros Hstep. unfold ticketsOut.
  inversion Hstep; subst; simpl;
    try (right; left; reflexivity);
    try (left; split; [reflexivity | congruence]).
  - (* the ticker is made *)
    right. right. left.
    match goal with Hpc : pc s = _ |- _ => rewrite Hpc end.
    repeat split.
  - (* the ticker fires *)
    left. split; [reflexivity|].
    match goal with Hpc : pc s = _ |- _ => now rewrite Hpc end.
  - (* a ticket is queued *)
    right. right. right. exists count. rewrite length_app. simpl.
    repeat split; [assumption | lia].
  - (* a ticket is handed to a waiting worker *)
    right. right. right. exists count.
    busy_at (workers s) i WRecv (WBusy count).
    repeat split; [assumption | lia].
  - (* a worker takes a ticket from the queue *)
    left. split; [|reflexivity].
    match goal with Hb : buf (workCh s) = _ |- _ => rewrite Hb end.
    busy_at (workers s) i WRecv (WBusy ticket). lia.
  - (* a worker finds the queue closed *)
    left. split; [|reflexivity].
    busy_at (workers s) i WRecv WExited. lia.
  - (* a worker runs its request *)
    left. split; [|reflexivity].
    busy_at (workers s) i (WBusy ticket) (WSend (doRequest x)).
    rewrite ?length_app. simpl. lia.
  - (* a worker puts its result in the buffer *)
    left. split; [|reflexivity].
    busy_at (workers s) i (WSend res) WRecv. lia.
  - (* a worker hands its result to the writer goroutine *)
    left. split; [|reflexivity].
    busy_at (workers s) i (WSend res) WRecv. lia.
  - (* a worker gives up after the cancellation *)
    left. split; [|reflexivity].
    busy_at (workers s) i (WSend res) WExited. lia.
Qed.

Lemma busy_waiting ws : Forall (fun w => w = WRecv) ws -> busy ws = [].
Proof.
  induction 1 as [|w ws Hw _ IH]; [reflexivity|]. subst w. exact IH.
Qed.

Lemma early_ticketsOut u s :
  reachable u s -> early (pc s) -> ticketsOut s = 0.
Proof.
  intros Hr He.
  destruct (inv_idle u s (reachable_invariant u s Hr) He)
    as (Hq & Hw & _ & _ & _ & Hall & _).
  unfold ticketsOut. now rewrite Hq, Hw, (busy_waiting _ Hall).
Qed.

Lemma reachable_counter u s c :
  reachable u s -> counter (pc s) = Some c -> c = wrap64 (ticketsOut s).
Proof.
  intros Hr. revert c. induction Hr as [|s a s' Hs IH Hstep]; intros c Hc.
  - discriminate.
  - destruct (ticketsOut_step u s a s' Hstep)
      as [[Ht Hsame]|[Hnone|[(He & Hpc & Ht)|(c0 & Hpc & Hpc' & Ht)]]].
    + rewrite Ht. apply IH. congruence.
    + congruence.
    + rewrite Hpc in Hc. inversion Hc; subst c.
      now rewrite Ht, (early_ticketsOut u s Hs He).
    + rewrite Hpc' in Hc. inversion Hc; subst c.
      rewrite Ht, (IH c0) by (now rewrite Hpc).
      unfold add64. now rewrite wrap64_add_l.
Qed.

(** X22. In the scheduler loop the ticket counter is the number of
    tickets that are out -- queued, in the hands of a worker, or already
    turned into a request (in 64-bit arithmetic): no ticket is lost or
    counted twice, and no more requests have been executed than tickets
    sent. *)
Theorem tickets_accounted u s c :
  reachable u s -> counter (pc s) = Some c ->
  c = wrap64 (ticketsOut s) /\
  (ticketsOut s <= int64_max ->
   c = ticketsOut s /\ Z.of_nat (length (requests s)) <= c).
Proof.
  intros Hr Hc. pose proof (reachable_counter u s c Hr Hc) as E.
  split; [exact E|]. intros Hmax.
  assert (E' : c = ticketsOut s).
  { rewrite E. apply wrap64_id. unfold in_int64, int64_min, ticketsOut in *.
    lia. }
  split; [exact E'|]. rewrite E'. unfold ticketsOut. lia.
Qed.

Lemma oneQueued_reaches : reachable inputs.plainRun inputs.oneQueued.
Proof.
  eapply LossFacts.reach_eq.
  - eapply reach_step; [eapply reach_step;
      [exact (LossFacts.reach_loop inputs.plainRun LossFacts.plainRun_ready)|]|].
    + apply (step_tick _ _ 0). reflexivity.
    + apply (step_send _ _ 0); [reflexivity | reflexivity |].
      vm_compute. reflexivity.
  - reflexivity.
Defined.

Lemma tickets_accounted_witness :
  counter (pc inputs.oneQueued) = Some 1 /\
  buf (workCh inputs.oneQueued) = [0] /\
  1 = wrap64 (ticketsOut inputs.oneQueued) /\
  (ticketsOut inputs.oneQueued <= int64_max ->
   1 = ticketsOut inputs.oneQueued /\
   Z.of_nat (length (requests inputs.oneQueued)) <= 1).
Proof.
  split; [reflexivity|]. split; [reflexivity|].
  exact (tickets_accounted inputs.plainRun inputs.oneQueued 1
           oneQueued_reaches eq_refl).
Defined.

(** *** Bounds *)

Lemma busy_sending_le ws :
  (length (busy ws) + length (sending ws) <= length ws)%nat.
Proof.
  induction ws as [|w ws IH]; [reflexivity|].
  destruct w; simpl; lia.
Qed.

Lemma reachable_pool u s :
  in_int64 (concurrency u) -> reachable u s ->
  Z.of_nat (length (workers s)) <= Z.max 0 (concurrency u).
Proof.
  intros Hc Hr. induction Hr as [|s a s' Hs IH Hstep]; [simpl; lia|].
  pose proof (reachable_started u s Hc Hs) as Hst.
  inversion Hstep; subst; simpl; rewrite ?length_insert; try exact IH.
  unfold started in Hst.
  match goal with Hpc : pc s = _ |- _ => rewrite Hpc in Hst end.
  rewrite length_app. simpl. lia.
Qed.

Lemma reachable_buffers u s :
  reachable u s ->
  Z.of_nat (length (buf (workCh s))) <= Z.max 0 (workCap u) /\
  Z.of_nat (length (buf (results s))) <= Z.max 0 (resultsCap u).
Proof.
  induction 1 as [|s a s' _ [IHw IHr] Hstep]; [simpl; lia|].
  inversion Hstep; subst; simpl; rewrite ?length_app; simpl;
    try (split; assumption); try (split; lia).
  - match goal with Hb : buf (workCh s) = _ |- _ => rewrite Hb in IHw end.
    simpl in IHw. split; lia.
  - match goal with Hb : buf (results s) = _ |- _ => rewrite Hb in IHr end.
    simpl in IHr. split; lia.
Qed.

(** X23. In every state of a run the queue holds at most [QueueSize]
    tickets and the results buffer at most twice [concurrency] results,
    and the requests in flight together with the results waiting to be
    sent are never more than the workers, of which there are at most
    [concurrency]. *)
Theorem queues_and_pool_bounded u s :
  in_int64 (concurrency u) -> reachable u s ->
  Z.of_nat (length (buf (workCh s))) <= Z.max 0 (QueueSize u) /\
  Z.of_nat (length (buf (results s))) <= Z.max 0 (mul64 (concurrency u) 2) /\
  Z.of_nat (length (busy (workers s)) + length (sending (workers s)))
  <= Z.of_nat (length (workers s)) /\
  Z.of_nat (length (workers s)) <= Z.max 0 (concurrency u).
Proof.
  intros Hc Hr. destruct (reachable_buffers u s Hr) as [Hw Hres].
  pose proof (busy_sending_le (workers s)).
  pose proof (reachable_pool u s Hc Hr).
  repeat split; try assumption. lia.
Qed.

Lemma plainRun_concurrency : in_int64 (concurrency inputs.plainRun).
Proof. unfold in_int64, int64_min, int64_max. cbn. lia. Defined.

Lemma queues_and_pool_bounded_witness :
  Z.of_nat (length (workers inputs.returnedBeforeFlush))
  <= Z.max 0 (concurrency inputs.plainRun).
Proof.
  exact (proj2 (proj2 (proj2
           (queues_and_pool_bounded inputs.plainRun
              inputs.returnedBeforeFlush plainRun_concurrency
              plainRun_reaches)))).
Defined.

(** *** Panics at the start *)

Lemma reachable_no_panic u s :
  chansFit u -> rate u <> 0 -> 0 < interval (rate u) ->
  reachable u s -> pc s <> PcPanicked.
Proof.
  intros Hfit Hr0 Hint. induction 1 as [|s a s' _ IH Hstep];
    [discriminate|].
  inversion Hstep; subst; simpl; try discriminate; try exact IH;
    first [contradiction | lia].
Qed.

(** X24. A configuration that [Validate] accepts, with a rate of at most
    10^9 and with a queue size and a number of workers for which both
    [make(chan ...)] calls get through (sizes that are not negative and
    buffers within the limit of the allocator), never makes [Run]
    panic: no state of any of its runs is a panic of the main
    goroutine. Without the bound on the sizes [Run] does panic, in
    [make]. *)
Theorem validated_run_never_panics
        (ParseDuration : string -> Go.Duration + string) u s :
  config.Validate ParseDuration (cfg u) = None ->
  rate u <= Second -> chansFit u ->
  reachable u s -> pc s <> PcPanicked.
Proof.
  intros Hv Hrate Hfit.
  apply ConfigFacts.Validate_accepts_iff in Hv as (_ & Hr & Hc & _).
  fold (rate u) in Hr. fold (concurrency u) in Hc.
  apply reachable_no_panic.
  - exact Hfit.
  - lia.
  - pose proof (ConfigFacts.interval_positive (rate u)). lia.
Qed.

Lemma plainRun_fits : chansFit inputs.plainRun.
Proof. repeat split; cbv; intro; discriminate. Defined.

Lemma validated_run_never_panics_witness :
  pc inputs.oneQueued <> PcPanicked.
Proof.
  apply (validated_run_never_panics inputs.parseTenSeconds inputs.plainRun
           inputs.oneQueued);
    [ reflexivity | vm_compute; discriminate | exact plainRun_fits
    | exact oneQueued_reaches ].
Defined.

Lemma reachable_stalled u s :
  rate u = 0 \/ interval (rate u) <= 0 -> reachable u s -> early (pc s).
Proof.
  intros Hbad. induction 1 as [|s a s' _ IH Hstep]; [exact I|].
  inversion Hstep; subst; simpl; try exact I; try exact IH;
    try (match goal with Hpc : pc s = _ |- _ => rewrite Hpc in IH end;
         simpl in IH; contradiction).
  lia.
Qed.

(** X25. A rate above 10^9 has a scheduler interval of zero, with which
    making the ticker panics: [Run] then never enters the scheduler loop
    and never returns [nil]; and when its preparations succeed, it does
    reach the panic, with the workers started and both files created
    and closed again, empty. *)
Theorem fast_rate_panics u :
  Second < rate u ->
  interval (rate u) = 0 /\
  (forall s, reachable u s ->
     ~ scheduling (pc s) /\ pc s <> PcReturned None /\
     (pc s = PcNewTicker ->
      forall s', step u s Main s' -> pc s' = PcPanicked)) /\
  (prepared u ->
   exists s, reachable u s /\ pc s = PcPanicked /\
             Z.of_nat (length (workers s)) = concurrency u /\
             outFile s = Some (mkFile false []) /\
             progressFile s = Some (mkFile false [])).
Proof.
  intros Hfast.
  assert (Hz : interval (rate u) = 0).
  { apply ConfigFacts.interval_zero_iff; unfold Second in *; lia. }
  split; [exact Hz|]. split.
  - intros s Hr.
    pose proof (reachable_stalled u s ltac:(right; lia) Hr) as He.
    split; [|split].
    + destruct (pc s); simpl in *; tauto.
    + intros E. rewrite E in He. exact He.
    + intros Hpc s' Hstep.
      inversion Hstep; subst; simpl; try congruence; lia.
  - intros Hp.
    destruct (LossFacts.prepared_sizes u Hp) as (Hn & _).
    eexists. split.
    + eapply reach_step; [exact (LossFacts.reach_ticker u Hp)|].
      apply step_newTicker_panic; [reflexivity | right; lia].
    + simpl. rewrite length_replicate. repeat split. exact Hn.
Qed.

Lemma fastRun_prepared : prepared inputs.fastRun.
Proof.
  repeat split;
    first [reflexivity | cbv; reflexivity | cbv; intro; discriminate].
Defined.

Lemma fast_rate_panics_witness :
  interval (rate inputs.fastRun) = 0 /\
  exists s, reachable inputs.fastRun s /\ pc s = PcPanicked /\
            Z.of_nat (length (workers s)) = concurrency inputs.fastRun /\
            outFile s = Some (mkFile false []) /\
            progressFile s = Some (mkFile false []).
Proof.
  destruct (fast_rate_panics inputs.fastRun) as (Hz & _ & Hex);
    [vm_compute; reflexivity|].
  split; [exact Hz | exact (Hex fastRun_prepared)].
Defined.

End ScheduleFacts.


(** ** From the result file to the report *)
Module FileFacts.

Import Go attack stats GoFacts LoaderFacts.

(** *** Loading into a fresh aggregator *)

Section Loading.

Variable Unmarshal : string -> option Result.

Lemma LoadJSONL_New content readErr :
  exists a,
    LoadJSONL Unmarshal (Opened content readErr) New = Returns a readErr /\
    addResults New (parsedResults Unmarshal (allLines content)) = Some a.
Proof.
  destruct (AggregatorFacts.addResults_New
              (parsedResults Unmarshal (allLines content)))
    as (a & Ha & _).
  exists a. split; [|exact Ha].
  unfold LoadJSONL. rewrite readLoop_spec by lia. now rewrite Ha.
Qed.

(** X26. Loading a result file into a fresh aggregator, as the report
    command does, always returns: it never stops on a missing phase
    entry, the error is the one of reading the file, and the number of
    requests the aggregator reports is the number of lines that parse
    (in 64-bit arithmetic). When the file cannot be opened the
    aggregator is left as [New] made it. *)
Theorem LoadJSONL_counts_parsed_lines opened :
  match opened with
  | OpenError msg =>
      LoadJSONL Unmarshal opened New = Returns New (Some msg)
  | Opened content readErr =>
      exists a,
        LoadJSONL Unmarshal opened New = Returns a readErr /\
        count a
        = wrap64 (Z.of_nat (length (parsedResults Unmarshal
                                      (allLines content))))
  end.
Proof.
  destruct opened as [msg|content readErr]; [reflexivity|].
  destruct (AggregatorFacts.addResults_New
              (parsedResults Unmarshal (allLines content)))
    as (a & Ha & _ & Hc & _).
  exists a. split; [|exact Hc].
  unfold LoadJSONL. rewrite readLoop_spec by lia. now rewrite Ha.
Qed.

Lemma fileLines_noNewline s : noNewline s = true -> fileLines s = ([], s).
Proof.
  induction s as [|c s IH]; [reflexivity|].
  simpl. intros H. apply andb_true_iff in H as [Hc Hs].
  apply negb_true_iff in Hc. now rewrite (IH Hs), Hc.
Qed.

Lemma allLines_last ls last :
  Forall completeLine ls -> noNewline last = true ->
  allLines (joinLines ls ++ last) = (ls ++ [last])%list.
Proof.
  intros Hls Hlast. rewrite (allLines_join ls last Hls). f_equal.
  unfold allLines. now rewrite (fileLines_noNewline last Hlast).
Qed.

Lemma parsedResults_empty : parsedResults Unmarshal [""] = [].
Proof. reflexivity. Qed.

(** X27. The last record of a file is read even when the file ends
    without a newline: appending an unterminated line that parses to a
    file of complete lines adds exactly that record to what loading the
    file gave before. *)
Theorem LoadJSONL_reads_unterminated_last_line ls last r readErr :
  Forall completeLine ls -> noNewline last = true ->
  Unmarshal last = Some r -> last <> "" ->
  exists a0 a,
    LoadJSONL Unmarshal (Opened (joinLines ls) readErr) New
    = Returns a0 readErr /\
    LoadJSONL Unmarshal (Opened (joinLines ls ++ last) readErr) New
    = Returns a readErr /\
    Add a0 r = Some a.
Proof.
  intros Hls Hlast Hr Hne.
  destruct (LoadJSONL_New (joinLines ls) readErr) as (a0 & H0 & Ha0).
  destruct (LoadJSONL_New (joinLines ls ++ last) readErr) as (a & H1 & Ha).
  exists a0, a. split; [exact H0|]. split; [exact H1|].
  rewrite <- (append_nil_r (joinLines ls)) in Ha0.
  rewrite (allLines_last ls "" Hls eq_refl), parsedResults_app in Ha0.
  rewrite parsedResults_empty, app_nil_r in Ha0.
  rewrite (allLines_last ls last Hls Hlast), parsedResults_app in Ha.
  assert (Hp : parsedResults Unmarshal [last] = [r]).
  { unfold parsedResults. simpl.
    destruct (decide (0 < String.length last)%nat) as [_|Hx].
    - now rewrite Hr.
    - destruct last; [now elim Hne | simpl in Hx; lia]. }
  rewrite Hp, AggregatorFacts.addResults_snoc, Ha0 in Ha. exact Ha.
Qed.

End Loading.

Lemma LoadJSONL_reads_unterminated_last_line_witness :
  exists a0 a,
    LoadJSONL json.Unmarshal (Opened "" None) New = Returns a0 None /\
    LoadJSONL json.Unmarshal (Opened samples.cutOff None) New
    = Returns a None /\
    Add a0 (doRequest inputs.refused) = Some a.
Proof.
  apply (LoadJSONL_reads_unterminated_last_line json.Unmarshal []
           samples.cutOff (doRequest inputs.refused) None).
  - constructor.
  - vm_compute. reflexivity.
  - vm_compute. reflexivity.
  - vm_compute. discriminate.
Defined.

(** *** The lines the encoder writes *)

Import json JsonFacts.
Local Open Scope Z_scope.

(** Every character but the newline. *)
Definition plain (c : ascii) : bool := negb (Ascii.eqb c json.newline).

Lemma noNewline_plain s : noNewline s = all plain s.
Proof. induction s as [|c s IH]; [reflexivity|]. simpl. now rewrite IH. Qed.

Lemma all_weaken (p q : ascii -> bool) s :
  (forall c, p c = true -> q c = true) -> all p s = true -> all q s = true.
Proof.
  intros Hpq. induction s as [|c s IH]; [reflexivity|].
  simpl. intros H. apply andb_true_iff in H as [Hc Hs].
  now rewrite (Hpq c Hc), (IH Hs).
Qed.

Lemma plain_of (p : ascii -> bool) :
  p json.newline = false -> forall c, p c = true -> plain c = true.
Proof.
  intros Hn c Hc. unfold plain.
  destruct (Ascii.eqb_spec c json.newline) as [->|_]; [congruence|reflexivity].
Qed.

Lemma plain_formatInt z : all plain (formatInt z) = true.
Proof.
  apply (all_weaken isNumChar); [|apply formatInt_chars].
  now apply plain_of.
Qed.

Lemma plain_zeros k : all plain (zeros k) = true.
Proof. induction k as [|k IH]; [reflexivity | exact IH]. Qed.

Lemma plain_appendInt x w : all plain (appendInt x w) = true.
Proof.
  unfold appendInt. destruct ((0 <=? x) && (x <? 10 ^ Z.of_nat w)).
  - apply (all_weaken isDigit); [now apply plain_of|].
    now rewrite fixedWidth_digits.
  - rewrite !all_app, plain_zeros, plain_formatInt.
    now destruct (x <? 0).
Qed.

Lemma plain_trimZeros f : all plain f = true -> all plain (trimZeros f) = true.
Proof.
  intros H. destruct (trimZeros_split f) as [j Hj].
  rewrite Hj, all_app in H. now apply andb_true_iff in H as [H _].
Qed.

Lemma plain_formatTime t ts : formatTime t = Some ts -> all plain ts = true.
Proof.
  unfold formatTime.
  destruct ((0 <=? year t) && (year t <=? 9999)
            && (Z.abs (zoneOffset t ÷ 60) / 60 <? 24)); [|discriminate].
  intros E. inversion E; subst ts. clear E.
  rewrite !all_app, !plain_appendInt. simpl.
  apply andb_true_iff. split.
  - unfold appendNano. destruct (nanosecond t =? 0); [reflexivity|].
    simpl. apply plain_trimZeros, plain_appendInt.
  - unfold formatZone. destruct (zoneOffset t =? 0); [reflexivity|].
    rewrite !all_app, !plain_appendInt.
    now destruct (zoneOffset t ÷ 60 <? 0).
Qed.

Lemma plain_escapeAscii c : all plain (escapeAscii c) = true.
Proof. destruct c as [[] [] [] [] [] [] [] []]; reflexivity. Qed.

Lemma plain_escapeFrom s :
  isAscii s = true -> all plain (escapeFrom 0 0 s) = true.
Proof.
  induction s as [|c s IH]; intros H; [reflexivity|].
  cbn [isAscii] in H. apply andb_true_iff in H as [Hc Hs].
  cbn [escapeFrom]. rewrite Hc, all_app, plain_escapeAscii. now apply IH.
Qed.

Lemma plain_omitempty name v :
  all plain name = true -> isAscii v = true ->
  all plain (omitempty name v) = true.
Proof.
  intros Hn Hv. unfold omitempty. destruct (decide (v = "")); [reflexivity|].
  unfold key, encodeString. simpl. rewrite !all_app, Hn. simpl.
  rewrite all_app, (plain_escapeFrom v Hv). reflexivity.
Qed.

Lemma plain_encodePhases p : all plain (encodePhases p) = true.
Proof.
  unfold encodePhases. simpl. rewrite !all_app, !plain_formatInt. reflexivity.
Qed.

(** What [Encode] writes for a result is one complete line. *)
Lemma Encode_completeLine r line :
  isAscii (Error r) = true -> isAscii (FailPhase r) = true ->
  Encode r = Some line -> completeLine line.
Proof.
  intros He Hf. unfold Encode.
  destruct (formatTime (Timestamp r)) as [ts|] eqn:Ets; [|discriminate].
  intros E. inversion E; subst line. clear E.
  exists ("{" ++ key "ts" ++ String quote (ts ++ String quote
            ("," ++ key "code" ++ formatInt (Code r)
             ++ omitempty "error" (Error r)
             ++ omitempty "fail_phase" (FailPhase r)
             ++ "," ++ key "reused" ++ formatBool (Reused r)
             ++ "," ++ key "phases" ++ encodePhases (Phases r)
             ++ "}"))).
  split.
  - rewrite noNewline_plain. simpl. rewrite !all_app.
    rewrite (plain_formatTime _ _ Ets). simpl. rewrite !all_app.
    rewrite plain_formatInt, (plain_omitempty "error" _ eq_refl He),
      (plain_omitempty "fail_phase" _ eq_refl Hf), plain_encodePhases.
    simpl. now destruct (Reused r).
  - rewrite !append_assoc.
    change (String quote ?a ++ ?b) with (String quote (a ++ b)).
    rewrite !append_assoc.
    change (String quote ?a ++ ?b) with (String quote (a ++ b)).
    rewrite !append_assoc. reflexivity.
Qed.

Lemma encoded_wellFormed rs :
  Forall wellFormed rs ->
  Forall completeLine (ledger.encoded rs) /\
  parsedResults json.Unmarshal (ledger.encoded rs) = rs.
Proof.
  induction 1 as [|r rs Hr _ [IHc IHp]]; [split; [constructor | reflexivity]|].
  destruct (line_reads_back r Hr) as (line & Henc & Hdec).
  assert (Hline : completeLine line).
  { destruct Hr as (_ & _ & He & Hf & _).
    exact (Encode_completeLine r line He Hf Henc). }
  assert (Henc' : ledger.encoded (r :: rs) = line :: ledger.encoded rs).
  { unfold ledger.encoded. simpl. now rewrite Henc. }
  rewrite Henc'. split.
  - now constructor.
  - change (line :: ledger.encoded rs)
      with ([line] ++ ledger.encoded rs)%list.
    rewrite parsedResults_app, IHp. f_equal.
    unfold parsedResults. simpl.
    rewrite decide_True by (now apply completeLine_length).
    now rewrite Hdec.
Qed.

(** X28. The report reads what the run wrote: for results with a valid
    timestamp, Go integers and ASCII texts, loading the file made of the
    lines the encoder writes for them gives, without an error, the
    aggregator that adding those very results in order gives. *)
Theorem LoadJSONL_reads_encoded_results rs :
  Forall wellFormed rs ->
  exists a,
    LoadJSONL json.Unmarshal
              (Opened (joinLines (ledger.encoded rs)) None) New
    = Returns a None /\
    addResults New rs = Some a.
Proof.
  intros Hrs. destruct (encoded_wellFormed rs Hrs) as [Hc Hp].
  destruct (LoadJSONL_New json.Unmarshal (joinLines (ledger.encoded rs)) None)
    as (a & Hload & Ha).
  exists a. split; [exact Hload|].
  rewrite <- (append_nil_r (joinLines (ledger.encoded rs))) in Ha.
  rewrite (allLines_last (ledger.encoded rs) "" Hc eq_refl) in Ha.
  rewrite parsedResults_app, Hp in Ha.
  rewrite (parsedResults_empty json.Unmarshal), app_nil_r in Ha. exact Ha.
Qed.

Lemma two_results_wellFormed :
  Forall wellFormed [doRequest inputs.fresh200; doRequest inputs.refused].
Proof.
  apply List.Forall_cons; [|apply List.Forall_cons; [|apply List.Forall_nil]];
    vm_compute; repeat split; first [reflexivity | intros H; discriminate H].
Defined.

Lemma LoadJSONL_reads_encoded_results_witness :
  exists a,
    LoadJSONL json.Unmarshal
      (Opened (joinLines (ledger.encoded
                 [doRequest inputs.fresh200; doRequest inputs.refused]))
              None) New
    = Returns a None /\
    addResults New [doRequest inputs.fresh200; doRequest inputs.refused]
    = Some a.
Proof.
  exact (LoadJSONL_reads_encoded_results _ two_results_wellFormed).
Defined.

End FileFacts.


(** ** The report *)
Module ReportFacts.

Import Go attack stats Report GoFacts.

(** *** The order of strings *)

Lemma lessEq_refl a : lessEq a a = true.
Proof.
  induction a as [|x a IH]; [reflexivity|].
  simpl. now rewrite Nat.ltb_irrefl, Nat.eqb_refl.
Qed.

Lemma nat_of_ascii_inj x y : nat_of_ascii x = nat_of_ascii y -> x = y.
Proof.
  intros H. rewrite <- (ascii_nat_embedding x), <- (ascii_nat_embedding y).
  now rewrite H.
Qed.

#[export] Instance strLe_total : base.Total strLe.
Proof.
  unfold base.Total, strLe. intros a. induction a as [|x a IH]; intros b.
  - now left.
  - destruct b as [|y b]; [now right|]. simpl.
    destruct (Nat.ltb_spec (nat_of_ascii x) (nat_of_ascii y)) as [Hlt|Hge];
      [now left|].
    destruct (Nat.ltb_spec (nat_of_ascii y) (nat_of_ascii x)) as [Hlt'|Hge'];
      [now right|].
    assert (E : nat_of_ascii x = nat_of_ascii y) by lia.
    rewrite E, Nat.eqb_refl. apply IH.
Qed.

#[export] Instance strLe_trans : Transitive strLe.
Proof.
  unfold Transitive, strLe. intros a.
  induction a as [|x a IH]; intros b c Hab Hbc; [reflexivity|].
  destruct b as [|y b]; [discriminate|].
  destruct c as [|z c]; [discriminate|].
  simpl in *.
  destruct (Nat.ltb_spec (nat_of_ascii x) (nat_of_ascii y)) as [Hxy|Hxy],
           (Nat.ltb_spec (nat_of_ascii y) (nat_of_ascii z)) as [Hyz|Hyz],
           (Nat.ltb_spec (nat_of_ascii x) (nat_of_ascii z)) as [Hxz|Hxz];
    try reflexivity; try lia.
  - destruct (Nat.eqb_spec (nat_of_ascii y) (nat_of_ascii z));
      [lia | discriminate].
  - destruct (Nat.eqb_spec (nat_of_ascii x) (nat_of_ascii y));
      [lia | discriminate].
  - destruct (Nat.eqb_spec (nat_of_ascii x) (nat_of_ascii y)) as [E1|];
      [|discriminate].
    destruct (Nat.eqb_spec (nat_of_ascii y) (nat_of_ascii z)) as [E2|];
      [|discriminate].
    rewrite E1, E2, Nat.eqb_refl. now apply (IH b c).
Qed.

#[export] Instance strLe_antisym : AntiSymm (=) strLe.
Proof.
  unfold AntiSymm, strLe. intros a.
  induction a as [|x a IH]; intros b Hab Hba.
  - now destruct b.
  - destruct b as [|y b]; [discriminate|]. simpl in *.
    destruct (Nat.ltb_spec (nat_of_ascii x) (nat_of_ascii y)) as [Hxy|Hxy],
             (Nat.ltb_spec (nat_of_ascii y) (nat_of_ascii x)) as [Hyx|Hyx];
      try lia.
    + destruct (Nat.eqb_spec (nat_of_ascii y) (nat_of_ascii x));
        [lia | discriminate].
    + destruct (Nat.eqb_spec (nat_of_ascii x) (nat_of_ascii y));
        [lia | discriminate].
    + destruct (Nat.eqb_spec (nat_of_ascii x) (nat_of_ascii y)) as [E|];
        [|discriminate].
      rewrite <- E, Nat.eqb_refl in Hba.
      f_equal; [now apply nat_of_ascii_inj | now apply IH].
Qed.

(** *** Sorted keys *)

Section Keys.

Context {K : Type} (R : relation K) `{!RelDecision R}.
Context `{!base.Total R, !Transitive R, !AntiSymm (=) R}.

(** Sorting gives the same list whatever the order of the input. *)
Lemma merge_sort_order (l1 l2 : list K) :
  l1 ≡ₚ l2 -> merge_sort R l1 = merge_sort R l2.
Proof.
  intros Hp. apply (Sorted_unique R); try apply Sorted_merge_sort; try apply _.
  now rewrite !merge_sort_Permutation.
Qed.

(** A sorted list without repetitions goes strictly up. *)
Lemma merge_sort_strict (l : list K) :
  NoDup l ->
  StronglySorted (fun x y => R x y /\ x <> y) (merge_sort R l).
Proof.
  intros Hnd.
  assert (Hs : StronglySorted R (merge_sort R l))
    by (apply StronglySorted_merge_sort; apply _).
  assert (Hn : NoDup (merge_sort R l))
    by (now rewrite merge_sort_Permutation).
  induction Hs as [|x l' Hl' IH Hx]; [constructor|].
  apply NoDup_cons in Hn as [Hx' Hn].
  constructor; [now apply IH|].
  apply Forall_forall. intros y Hy. split.
  - rewrite Forall_forall in Hx. now apply Hx.
  - intros ->. contradiction.
Qed.

End Keys.

Lemma keys_NoDup `{Countable K} (m : gmap K Z) : NoDup (keys m).
Proof. apply NoDup_fst_map_to_list. Qed.

Lemma elem_of_keys `{Countable K} (m : gmap K Z) k :
  k ∈ keys m <-> is_Some (m !! k).
Proof.
  unfold keys. rewrite list_elem_of_fmap. split.
  - intros ([k' v] & -> & Hin). apply elem_of_map_to_list in Hin. eauto.
  - intros [v Hv]. exists (k, v). split; [reflexivity|].
    now apply elem_of_map_to_list.
Qed.

(** X29. The report does not depend on the order in which Go visits the
    keys of a map: whatever the three orders, [Report] writes the same,
    and the rows of the status table come with their codes strictly
    ascending, one row for each code of the table. *)
Theorem Report_ignores_map_order a codes1 codes2 causes1 causes2 ph1 ph2 :
  codes1 ≡ₚ keys (status a) -> codes2 ≡ₚ keys (status a) ->
  causes1 ≡ₚ keys (errors a) -> causes2 ≡ₚ keys (errors a) ->
  ph1 ≡ₚ keys (failByPhase a) -> ph2 ≡ₚ keys (failByPhase a) ->
  Report a codes1 causes1 ph1 = Report a codes2 causes2 ph2 /\
  StronglySorted Z.lt (sortedKeysInt codes1) /\
  (forall k, k ∈ sortedKeysInt codes1 <-> is_Some (status a !! k)) /\
  StronglySorted (fun x y => strLe x y /\ x <> y) (sortedKeysStr causes1) /\
  (forall k, k ∈ sortedKeysStr causes1 <-> is_Some (errors a !! k)).
Proof.
  intros Hc1 Hc2 He1 He2 Hp1 Hp2.
  split; [|split; [|split; [|split]]].
  - unfold Report, statusRows, textRows, sortedKeysInt, sortedKeysStr.
    rewrite (merge_sort_order Z.le codes1 codes2) by (now rewrite Hc1, Hc2).
    rewrite (merge_sort_order strLe causes1 causes2)
      by (now rewrite He1, He2).
    rewrite (merge_sort_order strLe ph1 ph2) by (now rewrite Hp1, Hp2).
    reflexivity.
  - assert (Hnd : NoDup codes1) by (rewrite Hc1; apply keys_NoDup).
    pose proof (merge_sort_strict Z.le codes1 Hnd) as Hs.
    unfold sortedKeysInt. induction Hs as [|x l Hl IH Hx]; constructor.
    + exact IH.
    + eapply Forall_impl; [exact Hx|]. simpl. lia.
  - intros k. unfold sortedKeysInt.
    now rewrite merge_sort_Permutation, Hc1, elem_of_keys.
  - apply merge_sort_strict; [apply _..|].
    rewrite He1. apply keys_NoDup.
  - intros k. unfold sortedKeysStr.
    now rewrite merge_sort_Permutation, He1, elem_of_keys.
Qed.

Lemma Report_ignores_map_order_witness :
  Report samples.twoCodes [404; 200] ["connect"] ["connect"]
  = Report samples.twoCodes [200; 404] ["connect"] ["connect"].
Proof.
  apply (Report_ignores_map_order samples.twoCodes [404; 200] [200; 404]
           ["connect"] ["connect"] ["connect"] ["connect"]);
    vm_compute; first [reflexivity | apply perm_swap].
Defined.

(** *** The table of timings *)

Lemma timingRows_counted (m : gmap string phaseStats) names c :
  (forall p, In p names -> exists ps, m !! p = Some ps /\ Count ps = c) ->
  snd (timingRows m names) = Returned /\
  (c = 0 -> fst (timingRows m names) = []) /\
  (c <> 0 -> omap rowName (fst (timingRows m names)) = names).
Proof.
  induction names as [|name rest IH]; intros Hall.
  - repeat split.
  - destruct (Hall name (or_introl eq_refl)) as (ps & Hps & Hc).
    destruct (IH (fun p Hp => Hall p (or_intror Hp))) as (He & Hz & Hn).
    cbn [timingRows]. rewrite Hps.
    destruct (timingRows m rest) as [rows ending]. simpl in *.
    destruct (decide (Count ps = 0)) as [E|E]; simpl.
    + split; [exact He|]. split; [exact Hz|]. intros Hne. congruence.
    + split; [exact He|]. split; [intros Hc0; congruence|].
      intros Hne. f_equal. exact (Hn Hne).
Qed.

(** X30. After any stream of results has been added to a fresh
    aggregator, [Report] returns -- it finds every phase entry -- and its
    table of timings has no row when nothing was added and otherwise one
    row for each of the five phases, in the order of [PhaseNames]: no
    phase is ever left out for want of records, since every result is
    counted in every phase. *)
Theorem Report_timing_rows rs :
  exists a,
    addResults New rs = Some a /\
    (forall codes causes phases,
       snd (Report a codes causes phases) = Returned) /\
    (rs = [] -> fst (timingRows (stats.stats a) PhaseNames) = []) /\
    (0 < Z.of_nat (length rs) <= int64_max ->
     omap rowName (fst (timingRows (stats.stats a) PhaseNames))
     = PhaseNames).
Proof.
  destruct (AggregatorFacts.addResults_New rs)
    as (a & Ha & _ & _ & _ & _ & _ & _ & Hseen).
  exists a. split; [exact Ha|].
  destruct (timingRows_counted (stats.stats a) PhaseNames
              (wrap64 (Z.of_nat (length rs)))) as (He & Hz & Hn).
  { intros p Hp. specialize (Hseen p).
    rewrite decide_True in Hseen by (now apply list_elem_of_In).
    unfold tally.seen in Hseen.
    destruct (stats.stats a !! p) as [ps|]; [|discriminate].
    exists ps. split; [reflexivity|]. simpl in Hseen. congruence. }
  split; [|split].
  - intros codes causes phases. unfold Report.
    now destruct (timingRows (stats.stats a) PhaseNames).
  - intros ->. now apply Hz.
  - intros Hlen. apply Hn.
    rewrite wrap64_id by (unfold in_int64, int64_min, int64_max in *; lia).
    lia.
Qed.

End ReportFacts.
